(** * chaintap: a shallow embedding of the indexing core

    Storage engine ([SQLiteAdapter]), provider pool ([ProviderPool]),
    log fetcher ([EventFetcher]), coordinator ([Indexer]), the
    rate-limit predicate ([isRateLimitError]) and the event decoder
    ([EventDecoder.decode]).

    JavaScript numbers that hold block numbers, priorities and counters
    are modelled as [Z]; strings as [string]. Network calls, the ABI
    library (ethers) and storage faults are oracles passed as
    arguments, so that every theorem holds for every behaviour of the
    outside world. *)

From stdpp Require Import base gmap strings list pretty.
From Stdlib Require Import ZArith Sorted Ascii.

Set Warnings "-register-all".
Open Scope Z_scope.

(* ================================================================= *)
(** ** Common: results of fallible calls *)

(** A call either returns a value or throws (the message of the error). *)
Inductive result (A : Type) : Type :=
| Ok (a : A)
| Err (msg : string).
Arguments Ok {A} a.
Arguments Err {A} msg.

(** JSON values (the [eventData] payload of a decoded event). *)
Inductive json : Type :=
| JNull
| JBool (b : bool)
| JNum (z : Z)
| JStr (s : string)
| JArr (xs : list json)
| JObj (kvs : list (string * json)).

(** [DecodedEvent] (src/unnamed/part_005). *)
Record DecodedEvent := mkDecodedEvent {
  contractAddress : string;
  blockNumber : Z;
  blockTimestamp : Z;
  transactionHash : string;
  logIndex : Z;
  eventName : string;
  eventData : list (string * json)
}.

(* ================================================================= *)
(** ** Storage engine: [SQLiteAdapter] (src/unnamed/part_004) *)

Module Storage.

(** A row of the [events] table. [event_data] holds the payload that
    [JSON.stringify] serialises. *)
Record EventRow := mkEventRow {
  id : Z;
  contract_address : string;
  block_number : Z;
  block_timestamp : Z;
  transaction_hash : string;
  log_index : Z;
  event_name : string;
  event_data : list (string * json);
  indexed_at : Z
}.

(** A row of the [sync_state] table (keyed by [contract_address]). *)
Record SyncRow := mkSyncRow {
  chain_id : Z;
  last_block : Z;
  last_sync : Z;
  status : string
}.

(** The database: [db] is [null] once closed (or before [init]); the two
    tables; the AUTOINCREMENT counter of [events]. *)
Record Store := mkStore {
  db_open : bool;
  sync_state : gmap string SyncRow;
  events : list EventRow;
  next_id : Z
}.

(** The database right after [init] on a fresh file. *)
Definition fresh_store : Store := mkStore true ∅ [] 1.

(** Statements run inside a transaction. A statement may fail (disk
    full, I/O error, lock timeout): the oracle [fault k] says whether the
    [k]-th statement run of the transaction fails. *)
Definition SQL (A : Type) : Type := nat -> Store -> result (A * nat * Store).

Definition sql_ret {A} (a : A) : SQL A := fun k s => Ok (a, k, s).

Definition sql_bind {A B} (m : SQL A) (f : A -> SQL B) : SQL B :=
  fun k s => match m k s with
             | Ok (a, k', s') => f a k' s'
             | Err e => Err e
             end.

Notation "'let*' x := m 'in' f" := (sql_bind m (fun x => f))
  (at level 200, x name, m at level 100, f at level 200).

Section WithFaults.

Variable fault : nat -> bool.

(** [stmt.run(...)]: a statement applies [f] to the database, or fails. *)
Definition stmt_run {A} (f : Store -> A * Store) : SQL A :=
  fun k s => if fault k then Err "SQLITE_IOERR"
             else let '(a, s') := f s in Ok (a, S k, s').

(** [db.transaction(fn)()]: BEGIN; run the body; COMMIT on success, or
    ROLLBACK and rethrow. A rollback leaves the database as it was, so
    the caller keeps its original [Store]. *)
Definition transaction {A} (body : SQL A) (s : Store) : result (A * Store) :=
  match body O s with
  | Ok (a, _, s') => Ok (a, s')
  | Err e => Err e
  end.

End WithFaults.

(** No statement fails. *)
Definition no_fault : nat -> bool := fun _ => false.

(** [INSERT OR IGNORE INTO events (...) VALUES (...)]: the row is ignored
    when [UNIQUE(transaction_hash, log_index)] would be violated. The
    result is [changes]. *)
Definition key_present (tx : string) (li : Z) (rows : list EventRow) : bool :=
  existsb (fun r => bool_decide (transaction_hash r = tx) && bool_decide (log_index r = li)) rows.

(** The uniqueness key of an event is already stored. *)
Definition key_of (e : DecodedEvent) (rows : list EventRow) : bool :=
  key_present (transactionHash e) (logIndex e) rows.

Definition insert_or_ignore (e : DecodedEvent) (now : Z) (s : Store) : Z * Store :=
  if key_present (transactionHash e) (logIndex e) (events s) then (0, s)
  else (1, mkStore (db_open s) (sync_state s)
             (events s ++ [mkEventRow (next_id s) (contractAddress e) (blockNumber e)
                             (blockTimestamp e) (transactionHash e) (logIndex e)
                             (eventName e) (eventData e) now])
             (next_id s + 1)).

(** [INSERT INTO sync_state ... ON CONFLICT(contract_address) DO UPDATE
    SET last_block = excluded.last_block, last_sync = excluded.last_sync]. *)
Definition upsert_sync (addr : string) (chain : Z) (blk : Z) (now : Z) (s : Store) : unit * Store :=
  let row := match sync_state s !! addr with
             | Some r => mkSyncRow (chain_id r) blk now (status r)
             | None => mkSyncRow chain blk now "active"
             end in
  (tt, mkStore (db_open s) (<[addr := row]> (sync_state s)) (events s) (next_id s)).

(** The loop of [insertMany]: counts the rows whose [changes > 0]. *)
Fixpoint insert_loop (fault : nat -> bool) (evs : list DecodedEvent) (now : Z) (insertedCount : Z) : SQL Z :=
  match evs with
  | [] => sql_ret insertedCount
  | e :: rest =>
      let* ch := stmt_run fault (insert_or_ignore e now) in
      insert_loop fault rest now (if 0 <? ch then insertedCount + 1 else insertedCount)
  end.

(** [ensureDb]: throws when the database is closed. *)
Definition not_open_msg : string := "Database not initialized or already closed".

(** [insertEvents(events)]: returns the number of rows actually inserted. *)
Definition insertEvents (fault : nat -> bool) (evs : list DecodedEvent) (now : Z) (s : Store)
  : result Z * Store :=
  if negb (db_open s) then (Err not_open_msg, s)
  else match evs with
  | [] => (Ok 0, s)
  | _ => match transaction (insert_loop fault evs now 0) s with
         | Ok (n, s') => (Ok n, s')
         | Err e => (Err ("Failed to insert events: " +:+ e), s)
         end
  end.

(** [getLastSyncedBlock(contractAddress)]. *)
Definition getLastSyncedBlock (addr : string) (s : Store) : result (option Z) :=
  if negb (db_open s) then Err not_open_msg
  else Ok (last_block <$> sync_state s !! addr).

(** The event loop of [updateSyncStateAndInsertEvents] (changes ignored). *)
Fixpoint commit_loop (fault : nat -> bool) (evs : list DecodedEvent) (now : Z) : SQL unit :=
  match evs with
  | [] => sql_ret tt
  | e :: rest => let* _ := stmt_run fault (insert_or_ignore e now) in commit_loop fault rest now
  end.

(** [updateSyncStateAndInsertEvents(contractAddress, chainId, blockNumber, events)]. *)
Definition updateSyncStateAndInsertEvents (fault : nat -> bool) (addr : string) (chain : Z)
    (blk : Z) (evs : list DecodedEvent) (now : Z) (s : Store) : result unit * Store :=
  if negb (db_open s) then (Err not_open_msg, s)
  else
    let body : SQL unit :=
      let* _ := stmt_run fault (upsert_sync addr chain blk now) in
      (match evs with [] => sql_ret tt | _ => commit_loop fault evs now end) in
    match transaction body s with
    | Ok (_, s') => (Ok tt, s')
    | Err e => (Err ("Failed to update sync state and insert events: " +:+ e), s)
    end.

(** [EventFilter]. *)
Record EventFilter := mkEventFilter {
  f_contractAddress : option string;
  f_eventName : option string;
  f_fromBlock : option Z;
  f_toBlock : option Z;
  f_limit : option Z;
  f_offset : option Z
}.

(** [{contractAddress: addr}]. *)
Definition addr_filter (addr : string) : EventFilter :=
  mkEventFilter (Some addr) None None None None None.

Definition no_filter : EventFilter := mkEventFilter None None None None None None.

(** The [WHERE] clause. ([if (filter.contractAddress)] skips the empty
    string, as JavaScript's truthiness does.) *)
Definition row_matches (f : EventFilter) (r : EventRow) : bool :=
  match f_contractAddress f with
  | Some a => if bool_decide (a = "") then true else bool_decide (contract_address r = a)
  | None => true end &&
  match f_eventName f with
  | Some n => if bool_decide (n = "") then true else bool_decide (event_name r = n)
  | None => true end &&
  match f_fromBlock f with Some b => b <=? block_number r | None => true end &&
  match f_toBlock f with Some b => block_number r <=? b | None => true end.

(** [ORDER BY block_number ASC, log_index ASC] (a stable insertion sort). *)
Definition row_le (r1 r2 : EventRow) : bool :=
  (block_number r1 <? block_number r2) ||
  ((block_number r1 =? block_number r2) && (log_index r1 <=? log_index r2)).

Fixpoint insert_sorted (r : EventRow) (rs : list EventRow) : list EventRow :=
  match rs with
  | [] => [r]
  | r' :: rs' => if row_le r r' then r :: rs else r' :: insert_sorted r rs'
  end.

Fixpoint sort_rows (rs : list EventRow) : list EventRow :=
  match rs with
  | [] => []
  | r :: rs' => insert_sorted r (sort_rows rs')
  end.

(** [Number.MAX_SAFE_INTEGER]. *)
Definition MAX_SAFE_INTEGER : Z := 9007199254740991.

(** [LIMIT ? OFFSET ?]. *)
Definition limit_offset (lim : option Z) (off : option Z) (rs : list EventRow) : list EventRow :=
  match lim, off with
  | Some l, Some o => take (Z.to_nat l) (drop (Z.to_nat o) rs)
  | Some l, None => take (Z.to_nat l) rs
  | None, Some o => take (Z.to_nat MAX_SAFE_INTEGER) (drop (Z.to_nat o) rs)
  | None, None => rs
  end.

Definition row_to_event (r : EventRow) : DecodedEvent :=
  mkDecodedEvent (contract_address r) (block_number r) (block_timestamp r)
    (transaction_hash r) (log_index r) (event_name r) (event_data r).

(** [queryEvents(filter)]. *)
Definition queryEvents (f : EventFilter) (s : Store) : result (list DecodedEvent) :=
  if negb (db_open s) then Err not_open_msg
  else Ok (map row_to_event
             (limit_offset (f_limit f) (f_offset f) (sort_rows (filter (row_matches f) (events s))))).

(** [close()]: closes the connection once; the tables stay in the file. *)
Definition close (s : Store) : result unit * Store :=
  if db_open s then (Ok tt, mkStore false (sync_state s) (events s) (next_id s))
  else (Ok tt, s).

(** The uniqueness key [(transaction_hash, log_index)] of a row and of
    an event. *)
Definition row_key (r : EventRow) : string * Z := (transaction_hash r, log_index r).
Definition event_key (e : DecodedEvent) : string * Z := (transactionHash e, logIndex e).


End Storage.

(* ================================================================= *)
(** ** Provider pool: [ProviderPool] (src/unnamed/part_007) *)

Module Pool.

(** [ProviderEntry] (the [ethers.JsonRpcProvider] handle is omitted). *)
Record ProviderEntry := mkEntry {
  pid : string;
  url : string;
  priority : Z;
  healthy : bool;
  consecutiveFailures : Z;
  lastFailure : option Z;
  lastSuccess : option Z;
  lastError : option string
}.

(** The pool. The [providers] map and the [providerList] array share the
    entry objects: entries live in a heap [entries] (a reference is an
    index into it), [providers] maps an identifier to a reference and
    [providerList] lists references. *)
Record ProviderPool := mkPool {
  entries : list ProviderEntry;
  providers : gmap string nat;
  providerList : list nat;
  failureThreshold : Z;
  cooldownPeriod : Z;
  roundRobinIndex : Z
}.

(** [ProviderInfo] as returned by [getProvider]. *)
Record ProviderInfo := mkInfo { info_id : string; info_url : string; info_priority : Z }.

(** [x | 0] / [x & x]: conversion to a signed 32-bit integer. *)
Definition toInt32 (z : Z) : Z :=
  let m := z mod 2^32 in if 2^31 <=? m then m - 2^32 else m.

(** [generateProviderId(url)]: [hash = (hash << 5) - hash + char], kept
    to 32 bits, then ["provider-" + Math.abs(hash)]. Characters are the
    string's bytes (its UTF-16 code units for ASCII text). *)
Fixpoint hash_go (s : string) (hash : Z) : Z :=
  match s with
  | EmptyString => hash
  | String c rest =>
      hash_go rest (toInt32 (toInt32 (hash * 32) - hash + Z.of_nat (Ascii.nat_of_ascii c)))
  end.

Definition generateProviderId (u : string) : string :=
  "provider-" +:+ pretty (Z.abs (hash_go u 0)).

(** [providerList.sort((a, b) => b.priority - a.priority)]: a stable
    sort, highest priority first. *)
Fixpoint insert_by_priority (ents : list ProviderEntry) (r : nat) (rs : list nat) : list nat :=
  match rs with
  | [] => [r]
  | r' :: rs' =>
      let p := default 0 (priority <$> ents !! r) in
      let p' := default 0 (priority <$> ents !! r') in
      if p' <=? p then r :: rs else r' :: insert_by_priority ents r rs'
  end.

Fixpoint sort_by_priority (ents : list ProviderEntry) (rs : list nat) : list nat :=
  match rs with
  | [] => []
  | r :: rs' => insert_by_priority ents r (sort_by_priority ents rs')
  end.

(** The constructor. [None] stands for the thrown error on an empty
    configuration list. *)
Definition new_entry (u : string) (p : Z) : ProviderEntry :=
  mkEntry (generateProviderId u) u p true 0 None None None.

Fixpoint add_configs (cfgs : list (string * Z)) (ents : list ProviderEntry)
    (m : gmap string nat) (l : list nat) : list ProviderEntry * gmap string nat * list nat :=
  match cfgs with
  | [] => (ents, m, l)
  | (u, p) :: rest =>
      let r := length ents in
      add_configs rest (ents ++ [new_entry u p]) (<[generateProviderId u := r]> m) (l ++ [r])
  end.

Definition new_ProviderPool (cfgs : list (string * Z)) (threshold : option Z) (cooldown : option Z)
  : result ProviderPool :=
  match cfgs with
  | [] => Err "At least one provider configuration is required"
  | _ =>
      let '(ents, m, l) := add_configs cfgs [] ∅ [] in
      Ok (mkPool ents m (sort_by_priority ents l) (default 3 threshold)
            (default 30000 cooldown) 0)
  end.

(** The entries of [providerList], dereferenced. *)
Definition list_entries (p : ProviderPool) : list ProviderEntry :=
  omap (fun r => entries p !! r) (providerList p).

(** The last unhealthy entry past its cooldown ([bestUnhealthyProvider]). *)
Fixpoint best_unhealthy (now cooldown : Z) (es : list ProviderEntry) (best : option ProviderEntry)
  : option ProviderEntry :=
  match es with
  | [] => best
  | e :: rest =>
      let best' := if negb (healthy e) then
                     match lastFailure e with
                     | Some lf => if cooldown <=? now - lf then Some e else best
                     | None => best
                     end
                   else best in
      best_unhealthy now cooldown rest best'
  end.

Definition last_priority (es : list ProviderEntry) : Z :=
  match last es with Some e => priority e | None => 0 end.

(** The weighted list: each healthy entry repeated
    [Math.max(1, priority - basePriority + 1)] times. *)
Definition weightedList (healthyProviders : list ProviderEntry) : list ProviderEntry :=
  let basePriority := Z.max 0 (last_priority healthyProviders) in
  flat_map (fun e => repeat e (Z.to_nat (Z.max 1 (priority e - basePriority + 1)))) healthyProviders.

Definition to_info (e : ProviderEntry) : ProviderInfo := mkInfo (pid e) (url e) (priority e).

(** [getProvider()] at wall-clock [now]. *)
Definition getProvider (now : Z) (p : ProviderPool) : result ProviderInfo * ProviderPool :=
  let es := list_entries p in
  let healthyProviders := filter (fun e => healthy e = true) es in
  let best := best_unhealthy now (cooldownPeriod p) es None in
  match healthyProviders with
  | _ :: _ =>
      let wl := weightedList healthyProviders in
      match wl !! Z.to_nat (roundRobinIndex p mod Z.of_nat (length wl)) with
      | Some e =>
          (Ok (to_info e), mkPool (entries p) (providers p) (providerList p)
                             (failureThreshold p) (cooldownPeriod p) (roundRobinIndex p + 1))
      | None => (Err "undefined", p)
      end
  | [] =>
      match best with
      | Some e => (Ok (to_info e), p)
      | None => (Err "No healthy providers available", p)
      end
  end.

Definition set_entry (p : ProviderPool) (r : nat) (e : ProviderEntry) : ProviderPool :=
  mkPool (<[r := e]> (entries p)) (providers p) (providerList p)
    (failureThreshold p) (cooldownPeriod p) (roundRobinIndex p).

(** [reportSuccess(providerId)]. *)
Definition reportSuccess (now : Z) (id : string) (p : ProviderPool) : result unit * ProviderPool :=
  match providers p !! id with
  | None => (Err ("Provider " +:+ id +:+ " not found"), p)
  | Some r =>
      match entries p !! r with
      | None => (Err ("Provider " +:+ id +:+ " not found"), p)
      | Some e =>
          (Ok tt, set_entry p r (mkEntry (pid e) (url e) (priority e) true 0
                                   (lastFailure e) (Some now) None))
      end
  end.

(** [reportFailure(providerId, error)]. *)
Definition reportFailure (now : Z) (id : string) (msg : string) (p : ProviderPool)
  : result unit * ProviderPool :=
  match providers p !! id with
  | None => (Err ("Provider " +:+ id +:+ " not found"), p)
  | Some r =>
      match entries p !! r with
      | None => (Err ("Provider " +:+ id +:+ " not found"), p)
      | Some e =>
          let cf := consecutiveFailures e + 1 in
          let h := if failureThreshold p <=? cf then false else healthy e in
          (Ok tt, set_entry p r (mkEntry (pid e) (url e) (priority e) h cf
                                   (Some now) (lastSuccess e) (Some msg)))
      end
  end.

(** The calls a client makes on a pool, each at its wall-clock time; a
    call that throws leaves the pool as it was. *)
Inductive pool_call : Type :=
| PGetProvider (now : Z)
| PReportSuccess (now : Z) (id : string)
| PReportFailure (now : Z) (id : string) (msg : string).

Definition pool_call_run (c : pool_call) (p : ProviderPool) : ProviderPool :=
  match c with
  | PGetProvider now => (getProvider now p).2
  | PReportSuccess now id => (reportSuccess now id p).2
  | PReportFailure now id msg => (reportFailure now id msg p).2
  end.

Fixpoint run_calls (cs : list pool_call) (p : ProviderPool) : ProviderPool :=
  match cs with
  | [] => p
  | c :: rest => run_calls rest (pool_call_run c p)
  end.

(** The failures reported for [id] since its last reported success (the
    count the health rule speaks of), starting from [acc]. *)
Fixpoint failures_since_success (id : string) (cs : list pool_call) (acc : Z) : Z :=
  match cs with
  | [] => acc
  | PGetProvider _ :: rest => failures_since_success id rest acc
  | PReportSuccess _ id' :: rest =>
      failures_since_success id rest (if bool_decide (id' = id) then 0 else acc)
  | PReportFailure _ id' _ :: rest =>
      failures_since_success id rest (if bool_decide (id' = id) then acc + 1 else acc)
  end.

Definition consecutive_failures (id : string) (cs : list pool_call) : Z :=
  failures_since_success id cs 0.

(** The weighted list as the specification describes it: each healthy
    endpoint [max(1, priority - min_priority + 1)] times, [min_priority]
    the lowest priority among the healthy endpoints. *)
Definition min_priority (es : list ProviderEntry) : Z :=
  match es with
  | [] => 0
  | e :: rest => fold_right (fun e' m => Z.min (priority e') m) (priority e) rest
  end.

Definition spec_weightedList (healthyProviders : list ProviderEntry) : list ProviderEntry :=
  let m := min_priority healthyProviders in
  flat_map (fun e => repeat e (Z.to_nat (Z.max 1 (priority e - m + 1)))) healthyProviders.

(** The priority stored at a reference ([0] for a dangling one). *)
Definition ref_priority (ents : list ProviderEntry) (r : nat) : Z :=
  default 0 (priority <$> ents !! r).

(** No two identifiers share an entry. *)
Definition providers_inj (m : gmap string nat) : Prop :=
  forall i j r, m !! i = Some r -> m !! j = Some r -> i = j.

(** [ProviderHealth]; [h_lastError] is [None] when the key is absent. *)
Record ProviderHealth := mkHealth {
  h_id : string;
  h_url : string;
  h_priority : Z;
  h_healthy : bool;
  h_consecutiveFailures : Z;
  h_lastFailure : option Z;
  h_lastSuccess : option Z;
  h_lastError : option string
}.

(** [getHealthStatus()]: [...(entry.lastError && { lastError })] adds
    the key only for a non-empty string. *)
Definition getHealthStatus (p : ProviderPool) : list ProviderHealth :=
  map (fun e => mkHealth (pid e) (url e) (priority e) (healthy e) (consecutiveFailures e)
                  (lastFailure e) (lastSuccess e)
                  (match lastError e with
                   | Some m => if bool_decide (m = "") then None else Some m
                   | None => None
                   end))
    (list_entries p).

(** The test of the [bestUnhealthyProvider] loop: unhealthy, with a
    failure at least [cooldown] ago. *)
Definition cooled_down (now cooldown : Z) (e : ProviderEntry) : bool :=
  negb (healthy e) &&
  match lastFailure e with Some lf => cooldown <=? now - lf | None => false end.

End Pool.

(* ================================================================= *)
(** ** JavaScript values and error predicates
       ([src/src/providers/rate-limiter.ts], [EventFetcher.isBlockRangeError]) *)

Module JS.

(** A thrown or inspected JavaScript value. An object records whether it
    is an [Error] instance, its own properties, and what calling its
    [toString] does. *)
Inductive jsval : Type :=
| VNull
| VUndefined
| VBool (b : bool)
| VNum (z : Z)
| VStr (s : string)
| VObj (is_error : bool) (props : list (string * jsval)) (to_string : tostr)
with tostr : Type :=
| TSReturns (v : jsval)
| TSThrows
| TSNotFunction.

(** [{}]: no own properties; [Object.prototype.toString]. *)
Definition empty_object : jsval := VObj false [] (TSReturns (VStr "[object Object]")).

(** [new Error(msg)]: an own [message]; [Error.prototype.toString]. *)
Definition new_Error (msg : string) : jsval :=
  VObj true [("message", VStr msg)] (TSReturns (VStr ("Error: " +:+ msg))).

Fixpoint assoc (k : string) (kvs : list (string * jsval)) : option jsval :=
  match kvs with
  | [] => None
  | (k', v) :: rest => if bool_decide (k = k') then Some v else assoc k rest
  end.

(** Property read [o[k]]; an [Error] inherits [message = ""] from
    [Error.prototype]. *)
Definition get_prop (is_error : bool) (props : list (string * jsval)) (k : string) : option jsval :=
  match assoc k props with
  | Some v => Some v
  | None => if is_error && bool_decide (k = "message") then Some (VStr "") else None
  end.

(** [k in o]. *)
Definition has_prop (is_error : bool) (props : list (string * jsval)) (k : string) : bool :=
  match get_prop is_error props k with Some _ => true | None => false end.

(** [String.prototype.toLowerCase] on ASCII text. *)
Definition ascii_lower (c : Ascii.ascii) : Ascii.ascii :=
  let n := Ascii.nat_of_ascii c in
  if (65 <=? n)%nat && (n <=? 90)%nat then Ascii.ascii_of_nat (n + 32) else c.

Fixpoint toLowerCase (s : string) : string :=
  match s with
  | EmptyString => EmptyString
  | String c rest => String (ascii_lower c) (toLowerCase rest)
  end.

(** [String.prototype.startsWith] and [String.prototype.includes]. *)
Fixpoint startsWith (s pre : string) : bool :=
  match pre, s with
  | EmptyString, _ => true
  | String c pre', String d s' => bool_decide (c = d) && startsWith s' pre'
  | String _ _, EmptyString => false
  end.

Fixpoint includes (s sub : string) : bool :=
  startsWith s sub ||
  match s with
  | EmptyString => false
  | String _ rest => includes rest sub
  end.

(** The four rate-limit markers, tested on lowercased text. *)
Definition rate_limit_text (lowerError : string) : bool :=
  includes lowerError "429" ||
  includes lowerError "rate limit" ||
  includes lowerError "too many requests" ||
  includes lowerError "quota exceeded".

(** [isRateLimitError(error)]. *)
Definition isRateLimitError (error : jsval) : bool :=
  match error with
  | VNull | VUndefined => false
  | VStr s => rate_limit_text (toLowerCase s)
  | VObj is_err props ts =>
      (* the [message] check returns as soon as [message] is a string *)
      match (if is_err || has_prop is_err props "message"
             then get_prop is_err props "message" else None) with
      | Some (VStr m) => rate_limit_text (toLowerCase m)
      | _ =>
          (* string representation last *)
          match ts with
          | TSReturns (VStr str) =>
              if bool_decide (str = "[object Object]") then false
              else rate_limit_text (toLowerCase str)
          | _ => false
          end
      end
  | _ => false
  end.

(** The markers of [isTimeoutError]: those tested on the [code]
    property, and those tested on a message or text. *)
Definition timeout_code_text (lowerCode : string) : bool :=
  includes lowerCode "timeout" ||
  includes lowerCode "etimedout" ||
  includes lowerCode "econnreset".

Definition timeout_text (lowerError : string) : bool :=
  includes lowerError "timeout" ||
  includes lowerError "etimedout" ||
  includes lowerError "econnreset" ||
  includes lowerError "socket".

(** [String(obj.code)] when [typeof obj.code] is ['string'] or
    ['number'] (numbers here are integers). *)
Definition code_string (v : option jsval) : option string :=
  match v with
  | Some (VStr s) => Some s
  | Some (VNum z) => Some (pretty z)
  | _ => None
  end.

(** [isTimeoutError(error)]. *)
Definition isTimeoutError (error : jsval) : bool :=
  match error with
  | VNull | VUndefined => false
  | VStr s => timeout_text (toLowerCase s)
  | VObj is_err props ts =>
      (* the [code] property first *)
      if match code_string (get_prop is_err props "code") with
         | Some c => timeout_code_text (toLowerCase c)
         | None => false
         end
      then true
      else
        (* the [message] check returns as soon as [message] is a string *)
        match (if is_err || has_prop is_err props "message"
               then get_prop is_err props "message" else None) with
        | Some (VStr m) => timeout_text (toLowerCase m)
        | _ =>
            (* string representation last *)
            match ts with
            | TSReturns (VStr str) =>
                if bool_decide (str = "[object Object]") then false
                else timeout_text (toLowerCase str)
            | _ => false
            end
        end
  | _ => false
  end.

End JS.

(* ================================================================= *)
(** ** Event decoder: [EventDecoder.decode] (src/src/abi/decoder.ts) *)

Module Decoder.
Import JS.

(** A JavaScript call either returns a value or throws one. *)
Inductive outcome (A : Type) : Type :=
| Returns (a : A)
| Throws (v : jsval).
Arguments Returns {A} a.
Arguments Throws {A} v.

(** [ethers.Log]: the fields read by the decoder and the fetcher. *)
Record RawLog := mkLog {
  address : string;
  log_blockNumber : Z;
  log_transactionHash : string;
  index : Z;
  topics : list string;
  data : string
}.

(** Values in an ethers [Result]: a [bigint], a string (addresses,
    bytes as hex), a number, a boolean, an array, a nested [Result] (an
    [Array] subclass whose items carry names), or a deferred decoding
    error that is thrown when the value is read. *)
Inductive abival : Type :=
| ABigInt (z : Z)
| AStr (s : string)
| ANum (z : Z)
| ABool (b : bool)
| AArr (xs : list abival)
| AResult (kvs : list (string * abival))
| ADeferredError (msg : string).

(** [LogDescription]: the matched event's name and its [args]. *)
Record LogDescription := mkLogDescription { ld_name : string; ld_args : list (string * abival) }.

(** [serializeValue] / [serializeEventData]. Reading a deferred error
    throws, as [Result.toObject()] does. *)
Fixpoint serializeValue (v : abival) : outcome json :=
  match v with
  | ABigInt z => Returns (JStr (pretty z))
  | AStr s => Returns (JStr s)
  | ANum z => Returns (JNum z)
  | ABool b => Returns (JBool b)
  | AArr xs =>
      let fix go (xs : list abival) : outcome (list json) :=
        match xs with
        | [] => Returns []
        | x :: rest => match serializeValue x with
                       | Returns j => match go rest with
                                      | Returns js => Returns (j :: js)
                                      | Throws e => Throws e
                                      end
                       | Throws e => Throws e
                       end
        end in
      match go xs with Returns js => Returns (JArr js) | Throws e => Throws e end
  | AResult kvs =>
      (* [Result] extends [Array]: the array branch maps its values *)
      let fix go (kvs : list (string * abival)) : outcome (list json) :=
        match kvs with
        | [] => Returns []
        | (_, x) :: rest => match serializeValue x with
                            | Returns j => match go rest with
                                           | Returns js => Returns (j :: js)
                                           | Throws e => Throws e
                                           end
                            | Throws e => Throws e
                            end
        end in
      match go kvs with Returns js => Returns (JArr js) | Throws e => Throws e end
  | ADeferredError msg => Throws (new_Error msg)
  end.

Fixpoint serializeEventData (args : list (string * abival)) : outcome (list (string * json)) :=
  match args with
  | [] => Returns []
  | (k, x) :: rest =>
      match serializeValue x with
      | Returns j => match serializeEventData rest with
                     | Returns js => Returns ((k, j) :: js)
                     | Throws e => Throws e
                     end
      | Throws e => Throws e
      end
  end.

Section WithInterface.

(** [iface.parseLog({topics, data})] of ethers: returns [null] for an
    unknown topic-0, a [LogDescription], or throws on malformed data. *)
Variable parseLog : list string -> string -> outcome (option LogDescription).

(** The body of the [try] block. *)
Definition decode_try (log : RawLog) : outcome (option DecodedEvent) :=
  match parseLog (topics log) (data log) with
  | Throws e => Throws e
  | Returns None => Returns None
  | Returns (Some parsed) =>
      match serializeEventData (ld_args parsed) with
      | Throws e => Throws e
      | Returns eventData =>
          Returns (Some (mkDecodedEvent (address log) (log_blockNumber log) 0
                           (log_transactionHash log) (index log) (ld_name parsed) eventData))
      end
  end.

(** [decode(log)]: [try { ... } catch { return null; }]. *)
Definition decode (log : RawLog) : outcome (option DecodedEvent) :=
  match decode_try log with
  | Throws _ => Returns None
  | r => r
  end.

End WithInterface.

End Decoder.

(* ================================================================= *)
(** ** Log fetcher: [EventFetcher] (src/unnamed/part_006, lines 1-198) *)

Module Fetcher.
Import JS Decoder.

(** The RPC calls the fetcher makes, in order. *)
Inductive rpc_call : Type :=
| CGetLogs (fromBlock toBlock : Z)
| CGetBlock (blockNumber : Z).

(** An [EventFetcher] instance: its constructor arguments and its two
    maps. *)
Record EventFetcher := mkFetcher {
  providerId : string;
  initialChunkSize : Z;
  blockRangeLimits : gmap string Z;
  blockTimestampCache : gmap Z Z
}.

Definition new_EventFetcher (id : string) (initial : Z) : EventFetcher :=
  mkFetcher id initial ∅ ∅.

Definition set_limit (f : EventFetcher) (c : Z) : EventFetcher :=
  mkFetcher (providerId f) (initialChunkSize f)
    (<[providerId f := c]> (blockRangeLimits f)) (blockTimestampCache f).

Definition set_timestamp (f : EventFetcher) (n ts : Z) : EventFetcher :=
  mkFetcher (providerId f) (initialChunkSize f) (blockRangeLimits f)
    (<[n := ts]> (blockTimestampCache f)).

(** [isBlockRangeError(error)]: [error.message.toLowerCase()] throws a
    [TypeError] when [message] is not a string. *)
Definition isBlockRangeError (error : jsval) : outcome bool :=
  match error with
  | VObj true props _ =>
      match get_prop true props "message" with
      | Some (VStr m) =>
          let message := toLowerCase m in
          Returns (includes message "block range" ||
                   includes message "query returned more than" ||
                   includes message "exceeds max")
      | _ => Throws (new_Error "message.toLowerCase is not a function")
      end
  | _ => Returns false
  end.

(** The loop variables of [fetchEvents]. *)
Record LoopState := mkLoop { currentBlock : Z; chunkSize : Z; allLogs : list RawLog }.

(** The fetcher together with the RPC calls made so far. *)
Record FState := mkFState { fetcher : EventFetcher; calls : list rpc_call }.

Inductive step_res : Type :=
| SContinue (ls : LoopState) (fs : FState)
| SDone (ls : LoopState) (fs : FState)
| SThrow (v : jsval) (fs : FState).

Inductive fetch_res (A : Type) : Type :=
| FReturns (a : A) (fs : FState)
| FThrows (v : jsval) (fs : FState)
| FOutOfFuel (fs : FState).
Arguments FReturns {A} a fs.
Arguments FThrows {A} v fs.
Arguments FOutOfFuel {A} fs.

Section WithRpc.

(** [provider.getLogs(filter)], given the calls made before it. *)
Variable getLogs : list rpc_call -> string -> list string -> Z -> Z -> outcome (list RawLog).
(** [provider.getBlock(n)]: a block with its timestamp, or [null]. *)
Variable getBlock : list rpc_call -> Z -> outcome (option Z).
(** [decoder.interface.getEvent(name)?.topicHash]. *)
Variable getEvent : string -> option string.
(** [iface.parseLog], used by [decoder.decode]. *)
Variable parseLog : list string -> string -> outcome (option LogDescription).

(** One turn of [while (currentBlock <= toBlock) { ... }]. *)
Definition fetch_step (contractAddress : string) (tps : list string) (toBlock : Z)
    (ls : LoopState) (fs : FState) : step_res :=
  if currentBlock ls <=? toBlock then
    let rangeEnd := Z.min (currentBlock ls + chunkSize ls - 1) toBlock in
    let r := getLogs (calls fs) contractAddress tps (currentBlock ls) rangeEnd in
    let fs1 := mkFState (fetcher fs) (calls fs ++ [CGetLogs (currentBlock ls) rangeEnd]) in
    match r with
    | Returns logs =>
        SContinue (mkLoop (rangeEnd + 1) (chunkSize ls) (allLogs ls ++ logs)) fs1
    | Throws error =>
        match isBlockRangeError error with
        | Returns true =>
            let c := Z.max (chunkSize ls / 2) 100 in
            SContinue (mkLoop (currentBlock ls) c (allLogs ls))
                      (mkFState (set_limit (fetcher fs1) c) (calls fs1))
        | Returns false => SThrow error fs1
        | Throws e => SThrow e fs1
        end
    end
  else SDone ls fs.

(** The loop, run for at most [fuel] turns (with a range error at the
    100-block floor on every call the source loops forever). *)
Fixpoint fetch_loop (fuel : nat) (contractAddress : string) (tps : list string) (toBlock : Z)
    (ls : LoopState) (fs : FState) : fetch_res LoopState :=
  match fuel with
  | O => FOutOfFuel fs
  | S fuel' =>
      match fetch_step contractAddress tps toBlock ls fs with
      | SContinue ls' fs' => fetch_loop fuel' contractAddress tps toBlock ls' fs'
      | SDone ls' fs' => FReturns ls' fs'
      | SThrow v fs' => FThrows v fs'
      end
  end.

(** [[...new Set(xs)]]: distinct values in first-occurrence order. *)
Fixpoint dedup_go (xs : list Z) (seen : list Z) : list Z :=
  match xs with
  | [] => []
  | x :: rest => if bool_decide (x ∈ seen) then dedup_go rest seen
                 else x :: dedup_go rest (x :: seen)
  end.

Definition unique (xs : list Z) : list Z := dedup_go xs [].

(** [retry(() => provider.getBlock(n), {retries: 3, ...})] (p-retry):
    up to [attempts] calls; a non-[Error] value is not retried. *)
Fixpoint retry_getBlock (attempts : nat) (n : Z) (fs : FState) : outcome (option Z) * FState :=
  match attempts with
  | O => (Throws (new_Error "retries exhausted"), fs)
  | S a' =>
      let r := getBlock (calls fs) n in
      let fs1 := mkFState (fetcher fs) (calls fs ++ [CGetBlock n]) in
      match r with
      | Returns b => (Returns b, fs1)
      | Throws (VObj true _ _ as e) =>
          match a' with O => (Throws e, fs1) | S _ => retry_getBlock a' n fs1 end
      | Throws e => (Throws e, fs1)
      end
  end.

(** [await Promise.all(uncachedBlockNumbers.map(...))], one block after
    the other; a block that is [null] leaves the cache unchanged. *)
Fixpoint fetch_timestamps (ns : list Z) (fs : FState) : outcome unit * FState :=
  match ns with
  | [] => (Returns tt, fs)
  | n :: rest =>
      match retry_getBlock 4 n fs with
      | (Returns (Some ts), fs1) =>
          fetch_timestamps rest (mkFState (set_timestamp (fetcher fs1) n ts) (calls fs1))
      | (Returns None, fs1) => fetch_timestamps rest fs1
      | (Throws e, fs1) => (Throws e, fs1)
      end
  end.

(** The decode-and-enrich loop of [enrichWithTimestamps]. *)
Fixpoint decode_logs (cache : gmap Z Z) (logs : list RawLog) : list DecodedEvent :=
  match logs with
  | [] => []
  | log :: rest =>
      match decode parseLog log with
      | Returns (Some ev) =>
          match cache !! log_blockNumber log with
          | Some ts =>
              mkDecodedEvent (contractAddress ev) (blockNumber ev) ts (transactionHash ev)
                (logIndex ev) (eventName ev) (eventData ev) :: decode_logs cache rest
          | None => decode_logs cache rest
          end
      | _ => decode_logs cache rest
      end
  end.

(** [enrichWithTimestamps(logs)]. *)
Definition enrichWithTimestamps (logs : list RawLog) (fs : FState) : outcome (list DecodedEvent) * FState :=
  match logs with
  | [] => (Returns [], fs)
  | _ =>
      let uncached := filter (fun n => blockTimestampCache (fetcher fs) !! n = None)
                        (unique (map log_blockNumber logs)) in
      match fetch_timestamps uncached fs with
      | (Throws e, fs1) => (Throws e, fs1)
      | (Returns _, fs1) => (Returns (decode_logs (blockTimestampCache (fetcher fs1)) logs), fs1)
      end
  end.

(** [eventNames.map(name => decoder.interface.getEvent(name).topicHash)]. *)
Fixpoint topic_hashes (names : list string) : outcome (list string) :=
  match names with
  | [] => Returns []
  | n :: rest =>
      match getEvent n with
      | None => Throws (new_Error ("Event " +:+ n +:+ " not found in contract interface"))
      | Some h => match topic_hashes rest with
                  | Returns hs => Returns (h :: hs)
                  | Throws e => Throws e
                  end
      end
  end.

(** The chunk size a call to [fetchEvents] starts from:
    [this.blockRangeLimits.get(this.providerId) ?? this.initialChunkSize]. *)
Definition cached_chunk (f : EventFetcher) : Z :=
  default (initialChunkSize f) (blockRangeLimits f !! providerId f).

(** [fetchEvents(contractAddress, eventNames, fromBlock, toBlock)]. *)
Definition fetchEvents (fuel : nat) (contractAddress : string) (eventNames : list string)
    (fromBlock toBlock : Z) (fs : FState) : fetch_res (list DecodedEvent) :=
  let chunk := cached_chunk (fetcher fs) in
  match topic_hashes eventNames with
  | Throws e => FThrows e fs
  | Returns tps =>
      match fetch_loop fuel contractAddress tps toBlock (mkLoop fromBlock chunk []) fs with
      | FReturns ls fs1 =>
          match enrichWithTimestamps (allLogs ls) fs1 with
          | (Returns evs, fs2) => FReturns evs fs2
          | (Throws e, fs2) => FThrows e fs2
          end
      | FThrows e fs1 => FThrows e fs1
      | FOutOfFuel fs1 => FOutOfFuel fs1
      end
  end.

End WithRpc.

(** The windows of the [getLogs] calls in a trace. *)
Definition getLogs_windows (cs : list rpc_call) : list (Z * Z) :=
  omap (fun c => match c with CGetLogs f t => Some (f, t) | CGetBlock _ => None end) cs.

(** The life of one fetcher: a turn of the chunk loop (for any provider
    behaviour and any call arguments), the start of a new [fetchEvents]
    call (the loop restarts from the cached chunk size), or the timestamp
    enrichment (which touches neither the provider identifier, the
    initial size nor [blockRangeLimits]). *)
Inductive lifetime_step : LoopState * FState -> LoopState * FState -> Prop :=
| lt_loop getLogs contractAddress tps toBlock ls fs ls' fs' :
    fetch_step getLogs contractAddress tps toBlock ls fs = SContinue ls' fs' ->
    lifetime_step (ls, fs) (ls', fs')
| lt_call ls fs fromBlock :
    lifetime_step (ls, fs) (mkLoop fromBlock (cached_chunk (fetcher fs)) [], fs)
| lt_enrich ls fs fs' :
    providerId (fetcher fs') = providerId (fetcher fs) ->
    initialChunkSize (fetcher fs') = initialChunkSize (fetcher fs) ->
    blockRangeLimits (fetcher fs') = blockRangeLimits (fetcher fs) ->
    lifetime_step (ls, fs) (ls, fs').

(** A fresh fetcher at the start of its first [fetchEvents] call. *)
Definition lifetime_start (id : string) (initial fromBlock : Z) : LoopState * FState :=
  (mkLoop fromBlock initial [], mkFState (new_EventFetcher id initial) []).

(** A trace with no [getBlock] call. *)
Definition no_getBlock (cs : list rpc_call) : Prop :=
  Forall (fun c => match c with CGetBlock _ => False | CGetLogs _ _ => True end) cs.

(** The loop's chunk size is the one cached for the provider, and lies
    between 100 and the initial size. *)
Definition chunk_inv (st : LoopState * FState) : Prop :=
  chunkSize st.1 = cached_chunk (fetcher st.2) /\
  100 <= chunkSize st.1 <= initialChunkSize (fetcher st.2).

(** The [getLogs] calls of [cs] that returned, with their windows and
    the logs they returned; [pre] is the trace before [cs]. *)
Fixpoint ok_windows (getLogs : list rpc_call -> string -> list string -> Z -> Z -> outcome (list RawLog))
    (a : string) (tps : list string) (pre cs : list rpc_call) : list ((Z * Z) * list RawLog) :=
  match cs with
  | [] => []
  | CGetLogs f t :: rest =>
      match getLogs pre a tps f t with
      | Returns logs => [((f, t), logs)]
      | Throws _ => []
      end ++ ok_windows getLogs a tps (pre ++ [CGetLogs f t]) rest
  | CGetBlock n :: rest => ok_windows getLogs a tps (pre ++ [CGetBlock n]) rest
  end.

(** Windows that cover [[a, b]] one after the other, without gap or
    overlap. *)
Fixpoint tiles (a b : Z) (ws : list (Z * Z)) : Prop :=
  match ws with
  | [] => b < a
  | (f, t) :: rest => f = a /\ f <= t <= b /\ tiles (t + 1) b rest
  end.

#[global] Instance rpc_call_eq_dec : EqDecision rpc_call.
Proof. solve_decision. Defined.

(** The number of [getBlock(n)] calls in a trace. *)
Definition getBlock_count (n : Z) (cs : list rpc_call) : nat :=
  length (filter (fun c => c = CGetBlock n) cs).

End Fetcher.

(* ================================================================= *)
(** ** Coordinator: [Indexer] (src/unnamed/part_006, lines 200-474) *)

Module Indexer.
Import JS Decoder Fetcher.

(** [Chain] and [CHAIN_IDS]. *)
Inductive Chain := ethereum | polygon | arbitrum | optimism | base | bsc.

Definition getChainId (c : Chain) : Z :=
  match c with
  | ethereum => 1 | polygon => 137 | arbitrum => 42161
  | optimism => 10 | base => 8453 | bsc => 56
  end.

(** [ContractConfig]. *)
Record ContractConfig := mkContractConfig {
  c_address : string;
  c_name : option string;
  c_events : list string;
  from_block : option Z;
  c_abi : option string
}.

(** [OptionsConfig]. *)
Record OptionsConfig := mkOptions {
  batch_size : Z;
  confirmations : Z;
  poll_interval : Z;
  max_retries : Z
}.

(** What the coordinator touches: the shared pool, the database and the
    RPC calls made so far. *)
Record World := mkWorld {
  w_pool : Pool.ProviderPool;
  w_store : Storage.Store;
  w_calls : list rpc_call
}.

Definition with_pool (w : World) (p : Pool.ProviderPool) : World := mkWorld p (w_store w) (w_calls w).
Definition with_store (w : World) (s : Storage.Store) : World := mkWorld (w_pool w) s (w_calls w).
Definition with_calls (w : World) (c : list rpc_call) : World := mkWorld (w_pool w) (w_store w) c.

Inductive idx_res : Type :=
| IOk (w : World)
| IThrows (v : jsval) (w : World)
| IOutOfFuel (w : World).

(** [error instanceof Error ? error.message : String(error)] (only the
    message is kept). *)
Definition error_message (v : jsval) : string :=
  match v with
  | VObj _ props _ => match assoc "message" props with Some (VStr m) => m | _ => "" end
  | VStr s => s
  | _ => ""
  end.

Section WithEnv.

(** Storage faults and the wall clock. *)
Variable fault : nat -> bool.
Variable now : Z.
(** RPC calls of the provider with a given identifier. *)
Variable getLogsP : string -> list rpc_call -> string -> list string -> Z -> Z -> outcome (list RawLog).
Variable getBlockP : string -> list rpc_call -> Z -> outcome (option Z).
Variable getBlockNumberP : string -> list rpc_call -> outcome Z.
(** [abiFetcher.getABI(address, chainId, manualPath)] and the decoder
    built from the ABI it returns. *)
Variable getABI : string -> Z -> option string -> outcome unit.
Variable getEvent : string -> option string.
Variable parseLog : list string -> string -> outcome (option LogDescription).

(** Start-block selection of [watchContract(contractConfig)]. *)
Definition startBlock (cfg : ContractConfig) (w : World) : outcome Z * World :=
  let contractAddress := toLowerCase (c_address cfg) in
  match from_block cfg with
  | None =>
      match Pool.getProvider now (w_pool w) with
      | (Err m, p1) => (Throws (new_Error m), with_pool w p1)
      | (Ok prov, p1) =>
          match getBlockNumberP (Pool.info_id prov) (w_calls w) with
          | Returns n =>
              match Pool.reportSuccess now (Pool.info_id prov) p1 with
              | (Ok _, p2) => (Returns n, with_pool w p2)
              | (Err m, p2) => (Throws (new_Error m), with_pool w p2)
              end
          | Throws e =>
              let (_, p2) := Pool.reportFailure now (Pool.info_id prov) (error_message e) p1 in
              (Throws (new_Error ("Failed to get current block number: " +:+ error_message e)),
               with_pool w p2)
          end
      end
  | Some fb =>
      match Storage.getLastSyncedBlock contractAddress (w_store w) with
      | Err m => (Throws (new_Error m), w)
      | Ok lastSyncedBlock =>
          match lastSyncedBlock with
          | Some last => if fb <=? last then (Returns (last + 1), w) else (Returns fb, w)
          | None => (Returns fb, w)
          end
      end
  end.

(** [indexBlocks(contractConfig, fromBlock, toBlock)]. *)
Definition indexBlocks (fuel : nat) (chain : Chain) (opts : OptionsConfig) (cfg : ContractConfig)
    (fromBlock toBlock : Z) (w : World) : idx_res :=
  let chainId := getChainId chain in
  let contractAddress := toLowerCase (c_address cfg) in
  match Pool.getProvider now (w_pool w) with
  | (Err m, p1) => IThrows (new_Error m) (with_pool w p1)
  | (Ok provider, p1) =>
      let id := Pool.info_id provider in
      (* the [catch] block *)
      let fail (msg : string) (w' : World) : idx_res :=
        match Pool.reportFailure now id msg (w_pool w') with
        | (Err m, p2) => IThrows (new_Error m) (with_pool w' p2)
        | (Ok _, p2) => IThrows (new_Error ("Failed to index blocks: " +:+ msg)) (with_pool w' p2)
        end in
      let w1 := with_pool w p1 in
      match getABI contractAddress chainId (c_abi cfg) with
      | Throws e => fail (error_message e) w1
      | Returns _ =>
          let fs := mkFState (new_EventFetcher id (batch_size opts)) (w_calls w1) in
          match fetchEvents (getLogsP id) (getBlockP id) getEvent parseLog fuel
                  contractAddress (c_events cfg) fromBlock toBlock fs with
          | FOutOfFuel fs1 => IOutOfFuel (with_calls w1 (calls fs1))
          | FThrows e fs1 => fail (error_message e) (with_calls w1 (calls fs1))
          | FReturns evs fs1 =>
              let w2 := with_calls w1 (calls fs1) in
              match Pool.reportSuccess now id (w_pool w2) with
              | (Err m, p2) => fail m (with_pool w2 p2)
              | (Ok _, p2) =>
                  let w3 := with_pool w2 p2 in
                  match Storage.updateSyncStateAndInsertEvents fault contractAddress chainId
                          toBlock evs now (w_store w3) with
                  | (Ok _, s) => IOk (with_store w3 s)
                  | (Err m, s) => fail m (with_store w3 s)
                  end
              end
          end
      end
  end.

(** One pass of [pollLoop] inside [watchContract] while [running] is
    set, from the cursor [currentBlock]: the new cursor and the world,
    or [None] when the pass does not finish within [fuel] turns of the
    chunk loop. Both [catch] blocks only log; the inner one first
    reports the failure for the provider of the pass. A report that
    throws ([Provider ... not found]) is caught by the outer block. *)
Definition pollOnce (fuel : nat) (chain : Chain) (opts : OptionsConfig) (cfg : ContractConfig)
    (currentBlock : Z) (w : World) : option (Z * World) :=
  match Pool.getProvider now (w_pool w) with
  | (Err _, p1) => Some (currentBlock, with_pool w p1)
  | (Ok provider, p1) =>
      let id := Pool.info_id provider in
      let w1 := with_pool w p1 in
      let fail (msg : string) (w' : World) : option (Z * World) :=
        Some (currentBlock, with_pool w' (Pool.reportFailure now id msg (w_pool w')).2) in
      match getBlockNumberP id (w_calls w1) with
      | Throws e => fail (error_message e) w1
      | Returns latestBlock =>
          match Pool.reportSuccess now id (w_pool w1) with
          | (Err m, p2) => fail m (with_pool w1 p2)
          | (Ok _, p2) =>
              let w2 := with_pool w1 p2 in
              let targetBlock := latestBlock - confirmations opts in
              if currentBlock <=? targetBlock then
                match indexBlocks fuel chain opts cfg currentBlock targetBlock w2 with
                | IOk w3 => Some (targetBlock + 1, w3)
                | IThrows e w3 => fail (error_message e) w3
                | IOutOfFuel _ => None
                end
              else Some (currentBlock, w2)
          end
      end
  end.

End WithEnv.

(** The [chain] values of the configuration schema ([ChainSchema],
    src/src/cli/config.ts). *)
Definition chain_name (c : Chain) : string :=
  match c with
  | ethereum => "ethereum" | polygon => "polygon" | arbitrum => "arbitrum"
  | optimism => "optimism" | base => "base" | bsc => "bsc"
  end.

(** [CHAIN_NAMES] of the [status] command (src/unnamed/part_006,
    lines 494-501). *)
Definition CHAIN_NAMES (id : Z) : option string :=
  if bool_decide (id = 1) then Some "ethereum"
  else if bool_decide (id = 137) then Some "polygon"
  else if bool_decide (id = 42161) then Some "arbitrum"
  else if bool_decide (id = 10) then Some "optimism"
  else if bool_decide (id = 8453) then Some "base"
  else if bool_decide (id = 56) then Some "bsc"
  else None.

(** The chain label the [status] command prints for a [sync_state] row:
    [CHAIN_NAMES[chain_id] || `Unknown (${chain_id})`]. *)
Definition status_chain_label (chain_id : Z) : string :=
  match CHAIN_NAMES chain_id with
  | Some n => n
  | None => "Unknown (" +:+ pretty chain_id +:+ ")"
  end.

End Indexer.

(* ================================================================= *)
(** ** Scenario inputs *)

Module Scenario.

(** One hundred events with distinct [(transaction_hash, log_index)]. *)
Definition batch100 : list DecodedEvent :=
  map (fun i => mkDecodedEvent "0xabc" (Z.of_nat i) 0 ("0x" +:+ pretty i) 0 "Transfer" [])
    (seq 0 100).

(** The database after inserting [batch100] into a fresh one. *)
Definition store_after_batch100 : Storage.Store :=
  (Storage.insertEvents Storage.no_fault batch100 0 Storage.fresh_store).2.

(** A provider whose first [getLogs] call rejects the block range and
    whose later calls return no logs. *)
Definition range_error_once_getLogs (cs : list Fetcher.rpc_call) (a : string) (t : list string)
    (f to : Z) : Decoder.outcome (list Decoder.RawLog) :=
  match cs with
  | [] => Decoder.Throws (JS.new_Error "block range too large")
  | _ => Decoder.Returns []
  end.

(** A provider that rejects the block range of every [getLogs] call. *)
Definition always_range_error_getLogs (cs : list Fetcher.rpc_call) (a : string)
    (t : list string) (f to : Z) : Decoder.outcome (list Decoder.RawLog) :=
  Decoder.Throws (JS.new_Error "block range too large").

(** The pool built from [cfgs] with the default options. *)
Definition pool_of (cfgs : list (string * Z)) : Pool.ProviderPool :=
  match Pool.new_ProviderPool cfgs None None with
  | Ok p => p
  | Err _ => Pool.mkPool [] ∅ [] 3 30000 0
  end.

(** A pool of one endpoint, and three failures reported for it. *)
Definition local_pool : Pool.ProviderPool := pool_of [("http://localhost:8545", 1)].

Definition local_id : string := Pool.generateProviderId "http://localhost:8545".

Definition three_failures : list Pool.pool_call :=
  [Pool.PReportFailure 1 local_id "timeout"; Pool.PReportFailure 2 local_id "timeout";
   Pool.PReportFailure 3 local_id "timeout"].

(** Two endpoints with priorities 2 and 1, and two with negative
    priorities -1 and -2. *)
Definition two_cfgs : list (string * Z) := [("http://a.example", 2); ("http://b.example", 1)].
Definition negative_cfgs : list (string * Z) := [("http://a.example", -1); ("http://b.example", -2)].

(** A contract configured with [from_block = 100] whose address has been
    synced up to block 150. *)
Definition resume_cfg : Indexer.ContractConfig :=
  Indexer.mkContractConfig "0xABC" None ["Transfer"] (Some 100) None.

Definition resume_world : Indexer.World :=
  Indexer.mkWorld local_pool
    (Storage.updateSyncStateAndInsertEvents Storage.no_fault "0xabc" 1 150 [] 0 Storage.fresh_store).2 [].

(** A chain on which the contract emitted nothing: every [getLogs] call
    returns no logs; the ABI is found and knows [Transfer]. *)
Definition empty_getLogsP (id : string) (cs : list Fetcher.rpc_call) (a : string)
    (t : list string) (f to : Z) : Decoder.outcome (list Decoder.RawLog) :=
  Decoder.Returns [].

Definition some_getBlockP (id : string) (cs : list Fetcher.rpc_call) (n : Z)
    : Decoder.outcome (option Z) :=
  Decoder.Returns (Some 1700000000).

Definition found_getABI (a : string) (chainId : Z) (manual : option string) : Decoder.outcome unit :=
  Decoder.Returns tt.

Definition transfer_getEvent (name : string) : option string :=
  if bool_decide (name = "Transfer") then Some "0xddf252ad" else None.

Definition no_parseLog (topics : list string) (data : string)
    : Decoder.outcome (option Decoder.LogDescription) :=
  Decoder.Returns None.

Definition default_options : Indexer.OptionsConfig := Indexer.mkOptions 2000 12 15000 5.

Definition fresh_world : Indexer.World := Indexer.mkWorld local_pool Storage.fresh_store [].

(** A log, and the fetcher states before and after its block timestamp is fetched. *)
Definition witness_log : Decoder.RawLog := Decoder.mkLog "0xabc" 5 "0x01" 0 ["0xddf252ad"] "0x".

Definition witness_fs : Fetcher.FState := Fetcher.mkFState (Fetcher.new_EventFetcher "p" 2000) [].

Definition witness_fs1 : Fetcher.FState :=
  Fetcher.mkFState (Fetcher.set_timestamp (Fetcher.new_EventFetcher "p" 2000) 5 1700000000) [Fetcher.CGetBlock 5].


(** A chain whose latest block is 200. *)
Definition latest_200_getBlockNumberP (id : string) (cs : list Fetcher.rpc_call) : Decoder.outcome Z :=
  Decoder.Returns 200.

(** Three events, out of order, and the database holding them; filters
    used to query it. *)
Definition witness_events : list DecodedEvent :=
  [mkDecodedEvent "0xabc" 7 0 "0x07" 1 "Transfer" [];
   mkDecodedEvent "0xabc" 5 0 "0x05" 0 "Transfer" [];
   mkDecodedEvent "0xdef" 7 0 "0x07" 0 "Approval" []].

Definition witness_store : Storage.Store :=
  (Storage.insertEvents Storage.no_fault witness_events 0 Storage.fresh_store).2.




End Scenario.

(* ================================================================= *)
(** * Properties *)

(* ----------------------------------------------------------------- *)
(** ** Storage: statement-level facts *)

Module StorageFacts.
Import Storage.

Lemma key_present_app tx li rs1 rs2 :
  key_present tx li (rs1 ++ rs2) = key_present tx li rs1 || key_present tx li rs2.
Proof. unfold key_present. apply existsb_app. Qed.

Lemma stmt_run_ok {A} fault (f : Store -> A * Store) k s x :
  stmt_run fault f k s = Ok x -> fault k = false /\ x = (fst (f s), S k, snd (f s)).
Proof.
  unfold stmt_run. destruct (fault k); [discriminate|].
  destruct (f s) as [a s'] eqn:Hf. intros H. inversion H. auto.
Qed.

Lemma stmt_run_no_fault {A} (f : Store -> A * Store) k s :
  stmt_run no_fault f k s = Ok (fst (f s), S k, snd (f s)).
Proof. unfold stmt_run, no_fault. destruct (f s); reflexivity. Qed.

(** What one [INSERT OR IGNORE] does to the tables. *)
Lemma insert_or_ignore_spec e now s :
  let '(ch, s') := insert_or_ignore e now s in
  db_open s' = db_open s /\ sync_state s' = sync_state s /\
  key_of e (events s') = true /\
  ((key_of e (events s) = true /\ ch = 0 /\ s' = s) \/
   (key_of e (events s) = false /\ ch = 1 /\ exists r, events s' = events s ++ [r])).
Proof.
  unfold insert_or_ignore, key_of.
  destruct (key_present (transactionHash e) (logIndex e) (events s)) eqn:Hk.
  - repeat split; auto.
  - simpl. repeat split; auto.
    + rewrite key_present_app. simpl. rewrite !bool_decide_eq_true_2 by reflexivity.
      apply orb_true_r.
    + right. eauto.
Qed.

Lemma key_of_extend e rs extra : key_of e rs = true -> key_of e (rs ++ extra) = true.
Proof. unfold key_of. rewrite key_present_app. intros ->. reflexivity. Qed.

(** A run of the [insertMany] loop that commits. *)
Lemma insert_loop_ok fault evs now c k s n k' s' :
  insert_loop fault evs now c k s = Ok (n, k', s') ->
  n = c + (Z.of_nat (length (events s')) - Z.of_nat (length (events s))) /\
  db_open s' = db_open s /\
  Forall (fun e => key_of e (events s') = true) evs /\
  exists extra, events s' = events s ++ extra.
Proof.
  revert c k s. induction evs as [|e rest IH]; intros c k s H.
  - simpl in H. inversion H; subst. repeat split; [lia| constructor |].
    exists []. by rewrite app_nil_r.
  - simpl in H. unfold sql_bind in H.
    destruct (stmt_run fault (insert_or_ignore e now) k s) as [[[ch k1] s1]|m] eqn:Hs;
      [|discriminate].
    apply stmt_run_ok in Hs as [_ Hs]. inversion Hs; subst ch k1 s1.
    pose proof (insert_or_ignore_spec e now s) as Hspec.
    destruct (insert_or_ignore e now s) as [ch s1] eqn:Hio. simpl in *.
    destruct (IH _ _ _ H) as (Hn & Hdb & Hall & extra & Hext).
    destruct Hspec as (Hdb1 & _ & Hkey & [(_ & -> & ->) | (_ & -> & r & Hr)]).
    + simpl in Hn. repeat split; [lia|congruence| |eauto].
      constructor; [|exact Hall]. rewrite Hext. by apply key_of_extend.
    + simpl in Hn. rewrite Hext, Hr, !length_app in Hn. simpl in Hn.
      repeat split.
      * rewrite Hext, Hr, !length_app. simpl. lia.
      * congruence.
      * constructor; [|exact Hall]. rewrite Hext. by apply key_of_extend.
      * exists (r :: extra). rewrite Hext, Hr. by rewrite <- app_assoc.
Qed.

(** When every key of the batch is already stored, the loop changes
    nothing and counts nothing. *)
Lemma insert_loop_present fault evs now c k s n k' s' :
  Forall (fun e => key_of e (events s) = true) evs ->
  insert_loop fault evs now c k s = Ok (n, k', s') ->
  n = c /\ s' = s.
Proof.
  revert k. induction evs as [|e rest IH]; intros k Hall H.
  - simpl in H. inversion H; subst. auto.
  - inversion Hall as [|? ? He Hrest]; subst.
    simpl in H. unfold sql_bind in H.
    destruct (stmt_run fault (insert_or_ignore e now) k s) as [[[ch k1] s1]|m] eqn:Hs;
      [|discriminate].
    apply stmt_run_ok in Hs as [_ Hs]. inversion Hs; subst ch k1 s1.
    unfold insert_or_ignore in H. unfold key_of in He. rewrite He in H. simpl in H.
    eapply IH; eauto.
Qed.

(** A run of the commit loop that commits. *)
Lemma commit_loop_ok fault evs now k s x :
  commit_loop fault evs now k s = Ok x ->
  commit_loop no_fault evs now k s = Ok x /\
  db_open x.2 = db_open s /\ sync_state x.2 = sync_state s /\
  Forall (fun e => key_of e (events x.2) = true) evs /\
  exists extra, events x.2 = events s ++ extra.
Proof.
  revert k s. induction evs as [|e rest IH]; intros k s H.
  - simpl in H. inversion H; subst. simpl. repeat split; auto.
    exists []. by rewrite app_nil_r.
  - simpl in H |- *. unfold sql_bind in H |- *.
    destruct (stmt_run fault (insert_or_ignore e now) k s) as [[[ch k1] s1]|m] eqn:Hs;
      [|discriminate].
    apply stmt_run_ok in Hs as [_ Hs]. inversion Hs; subst ch k1 s1.
    rewrite stmt_run_no_fault.
    pose proof (insert_or_ignore_spec e now s) as Hspec.
    destruct (insert_or_ignore e now s) as [ch s1] eqn:Hio. simpl in *.
    destruct (IH _ _ H) as (Hnf & Hdb & Hss & Hall & extra & Hext).
    destruct Hspec as (Hdb1 & Hss1 & Hkey & Hcase).
    repeat split; [exact Hnf|congruence|congruence| |].
    + constructor; [|exact Hall]. rewrite Hext. by apply key_of_extend.
    + destruct Hcase as [(_ & _ & ->) | (_ & _ & r & Hr)]; [eauto|].
      exists (r :: extra). rewrite Hext, Hr. by rewrite <- app_assoc.
Qed.

Lemma insert_sorted_length r rs : length (insert_sorted r rs) = S (length rs).
Proof.
  induction rs as [|r' rs IH]; simpl; [reflexivity|].
  destruct (row_le r r'); simpl; auto.
Qed.

Lemma sort_rows_length rs : length (sort_rows rs) = length rs.
Proof.
  induction rs as [|r rs IH]; simpl; [reflexivity|].
  by rewrite insert_sorted_length, IH.
Qed.

End StorageFacts.

(* ----------------------------------------------------------------- *)
(** ** Storage: claims *)

Import StorageFacts.
Import Storage (no_fault, key_of, addr_filter).

Lemma upsert_sync_last_block addr chain blk now s :
  Storage.last_block <$> Storage.sync_state (Storage.upsert_sync addr chain blk now s).2 !! addr = Some blk.
Proof.
  unfold Storage.upsert_sync. simpl. rewrite lookup_insert_eq.
  by destruct (Storage.sync_state s !! addr).
Qed.

(** C1. [updateSyncStateAndInsertEvents] runs the [Storage.sync_state] upsert and
    the insert-ignore of every event in one transaction: for every
    pattern of statement failures it either commits the whole effect of
    the fault-free run (Storage.last_block set, every event's key stored) or
    fails with the database unchanged. On a fresh database,
    [Commit(addr, 1, 101, [e@100; e@101])] then gives
    [getLastSyncedBlock addr = 101] and two rows for [addr]. *)
Theorem updateSyncStateAndInsertEvents_atomic :
  (forall fault addr chain blk evs now s r s',
     Storage.updateSyncStateAndInsertEvents fault addr chain blk evs now s = (r, s') ->
     (r = Ok tt /\
      s' = (Storage.updateSyncStateAndInsertEvents no_fault addr chain blk evs now s).2 /\
      Storage.last_block <$> Storage.sync_state s' !! addr = Some blk /\
      Forall (fun e => key_of e (Storage.events s') = true) evs) \/
     ((exists m, r = Err m) /\ s' = s)) /\
  (forall addr e100 e101 now,
     contractAddress e100 = addr -> contractAddress e101 = addr ->
     blockNumber e100 = 100 -> blockNumber e101 = 101 ->
     (transactionHash e100, logIndex e100) <> (transactionHash e101, logIndex e101) ->
     let s' := (Storage.updateSyncStateAndInsertEvents no_fault addr 1 101 [e100; e101] now
                  Storage.fresh_store).2 in
     Storage.getLastSyncedBlock addr s' = Ok (Some 101) /\
     match Storage.queryEvents (addr_filter addr) s' with
     | Ok rows => length rows = 2%nat
     | Err _ => False
     end).
Proof.
  split.
  - intros fault addr chain blk evs now s r s' H.
    unfold Storage.updateSyncStateAndInsertEvents in H |- *.
    destruct (Storage.db_open s) eqn:Hdb; simpl in H |- *;
      [|inversion H; subst; right; eauto].
    unfold Storage.transaction, Storage.sql_bind in H |- *.
    destruct (Storage.stmt_run fault (Storage.upsert_sync addr chain blk now) O s) as [[[u k1] s1]|m] eqn:Hs;
      [|inversion H; subst; right; eauto].
    pose proof (upsert_sync_last_block addr chain blk now s) as Hlb.
    apply stmt_run_ok in Hs as [_ Hs]. rewrite stmt_run_no_fault.
    destruct (Storage.upsert_sync addr chain blk now s) as [u0 s0] eqn:Hup. simpl in *.
    injection Hs as -> -> ->.
    destruct evs as [|e rest].
    + simpl in H |- *. inversion H; subst. left. repeat split; auto.
    + destruct (Storage.commit_loop fault (e :: rest) now 1%nat s0) as [[[v k2] s2]|m] eqn:Hc;
        [|inversion H; subst; right; eauto].
      inversion H; subst r s'. destruct v.
      destruct (commit_loop_ok _ _ _ _ _ _ Hc) as (Hnf & _ & Hss & Hall & _).
      rewrite Hnf. simpl in *. left. repeat split; auto. by rewrite Hss.
  - intros addr e100 e101 now H1 H2 H3 H4 Hkey s'.
    assert (Hk : bool_decide (transactionHash e100 = transactionHash e101) &&
                 bool_decide (logIndex e100 = logIndex e101) = false).
    { destruct (bool_decide_reflect (transactionHash e100 = transactionHash e101)) as [Ht|Ht];
        destruct (bool_decide_reflect (logIndex e100 = logIndex e101)) as [Hl|Hl]; simpl; auto.
      exfalso. apply Hkey. by rewrite Ht, Hl. }
    subst s'. unfold Storage.updateSyncStateAndInsertEvents. simpl.
    cbv [Storage.transaction Storage.sql_bind Storage.sql_ret Storage.stmt_run no_fault].
    unfold Storage.insert_or_ignore, Storage.key_present. simpl. rewrite Hk. simpl.
    split.
    + unfold Storage.getLastSyncedBlock. simpl. by rewrite lookup_insert_eq.
    + unfold Storage.queryEvents. simpl.
      unfold Storage.row_matches. simpl. rewrite H1, H2.
      rewrite length_map, sort_rows_length.
      destruct (bool_decide (addr = "")); [reflexivity|].
      rewrite !filter_cons_True; [reflexivity| |];
        simpl; by rewrite bool_decide_eq_true_2.
Qed.

Lemma updateSyncStateAndInsertEvents_atomic_witness :
  let e100 := mkDecodedEvent "0xabc" 100 0 "0x01" 0 "Transfer" [] in
  let e101 := mkDecodedEvent "0xabc" 101 0 "0x02" 0 "Transfer" [] in
  (transactionHash e100, logIndex e100) <> (transactionHash e101, logIndex e101) /\
  Storage.getLastSyncedBlock "0xabc"
    (Storage.updateSyncStateAndInsertEvents no_fault "0xabc" 1 101 [e100; e101] 0
       Storage.fresh_store).2 = Ok (Some 101).
Proof.
  intros e100 e101. split; [discriminate|].
  exact (proj1 (proj2 updateSyncStateAndInsertEvents_atomic "0xabc" e100 e101 0
                  eq_refl eq_refl eq_refl eq_refl ltac:(discriminate))).
Defined.

(** C2. [insertEvents] is idempotent on the uniqueness pair
    [(transaction_hash, log_index)]: when a batch is inserted and then
    inserted again (both calls committing), the first call returns the
    number of rows it actually added, the second returns 0 and leaves the
    table as it was, so the final row count equals that after one
    insertion. Inserting 100 distinct events twice into a fresh database
    persists 100 rows, and the second call returns 0. *)
Theorem insertEvents_idempotent :
  (forall fault1 fault2 evs now1 now2 s n1 s1 n2 s2,
     Storage.insertEvents fault1 evs now1 s = (Ok n1, s1) ->
     Storage.insertEvents fault2 evs now2 s1 = (Ok n2, s2) ->
     n1 = Z.of_nat (length (Storage.events s1)) - Z.of_nat (length (Storage.events s)) /\
     n2 = 0 /\ s2 = s1 /\
     length (Storage.events s2) = length (Storage.events s1)) /\
  (let '(r1, s1) := Storage.insertEvents no_fault Scenario.batch100 0 Storage.fresh_store in
   let '(r2, s2) := Storage.insertEvents no_fault Scenario.batch100 0 s1 in
   r1 = Ok 100 /\ r2 = Ok 0 /\ length (Storage.events s2) = 100%nat).
Proof.
  split; [|vm_compute; auto].
  intros fault1 fault2 evs now1 now2 s n1 s1 n2 s2 H1 H2.
  unfold Storage.insertEvents in H1, H2.
  destruct (Storage.db_open s) eqn:Hdb; simpl in H1; [|discriminate].
  destruct evs as [|e rest].
  - inversion H1; subst. rewrite Hdb in H2. simpl in H2. inversion H2; subst.
    repeat split; lia.
  - unfold Storage.transaction in H1.
    destruct (Storage.insert_loop fault1 (e :: rest) now1 0 O s) as [[[n k] s1']|m] eqn:Hl;
      [|discriminate].
    inversion H1; subst n s1'.
    destruct (insert_loop_ok _ _ _ _ _ _ _ _ _ Hl) as (Hn & Hdb1 & Hall & _).
    rewrite Hdb1, Hdb in H2. cbn [negb] in H2. unfold Storage.transaction in H2.
    destruct (Storage.insert_loop fault2 (e :: rest) now2 0 O s1) as [[[n' k'] s2']|m] eqn:Hl2;
      [|discriminate].
    inversion H2; subst n' s2'.
    destruct (insert_loop_present _ _ _ _ _ _ _ _ _ Hall Hl2) as [-> ->].
    repeat split; lia.
Qed.

Lemma insertEvents_idempotent_witness :
  Storage.insertEvents no_fault Scenario.batch100 0 Storage.fresh_store =
    (Ok 100, Scenario.store_after_batch100) /\
  Storage.insertEvents no_fault Scenario.batch100 0 Scenario.store_after_batch100 =
    (Ok 0, Scenario.store_after_batch100) /\
  length (Storage.events Scenario.store_after_batch100) =
    length (Storage.events Scenario.store_after_batch100).
Proof.
  assert (H1 : Storage.insertEvents no_fault Scenario.batch100 0 Storage.fresh_store =
                 (Ok 100, Scenario.store_after_batch100)) by (vm_compute; reflexivity).
  assert (H2 : Storage.insertEvents no_fault Scenario.batch100 0 Scenario.store_after_batch100 =
                 (Ok 0, Scenario.store_after_batch100)) by (vm_compute; reflexivity).
  split; [exact H1|]. split; [exact H2|].
  pose proof insertEvents_idempotent as [H _].
  exact (proj2 (proj2 (proj2 (H no_fault no_fault Scenario.batch100 0 0 Storage.fresh_store 100
                               Scenario.store_after_batch100 0 Scenario.store_after_batch100 H1 H2)))).
Defined.

(* ----------------------------------------------------------------- *)
(** ** Fetcher: claims *)

Import JS Decoder Fetcher.

Ltac zred :=
  repeat match goal with
  | |- context [Z.min ?a ?b] => let v := eval vm_compute in (Z.min a b) in change (Z.min a b) with v
  | |- context [Z.max ?a ?b] => let v := eval vm_compute in (Z.max a b) in change (Z.max a b) with v
  | |- context [Z.add ?a ?b] => let v := eval vm_compute in (Z.add a b) in change (Z.add a b) with v
  | |- context [Z.sub ?a ?b] => let v := eval vm_compute in (Z.sub a b) in change (Z.sub a b) with v
  | |- context [Z.div ?a ?b] => let v := eval vm_compute in (Z.div a b) in change (Z.div a b) with v
  | |- context [Z.leb ?a ?b] => let v := eval vm_compute in (Z.leb a b) in change (Z.leb a b) with v
  end.

Lemma fetch_loop_S getLogs n a tps tb ls fs :
  fetch_loop getLogs (S n) a tps tb ls fs =
  match fetch_step getLogs a tps tb ls fs with
  | SContinue ls' fs' => fetch_loop getLogs n a tps tb ls' fs'
  | SDone ls' fs' => FReturns ls' fs'
  | SThrow v fs' => FThrows v fs'
  end.
Proof. reflexivity. Qed.

Lemma windows_getBlock cs n : getLogs_windows (cs ++ [CGetBlock n]) = getLogs_windows cs.
Proof. unfold getLogs_windows. rewrite omap_app. simpl. by rewrite app_nil_r. Qed.

Lemma retry_getBlock_preserves getBlock k n fs :
  getLogs_windows (calls (retry_getBlock getBlock k n fs).2) = getLogs_windows (calls fs) /\
  blockRangeLimits (fetcher (retry_getBlock getBlock k n fs).2) = blockRangeLimits (fetcher fs).
Proof.
  revert fs. induction k as [|k IH]; intros fs; [done|]. simpl.
  destruct (getBlock (calls fs) n) as [b|[| | | | |[] props ts]]; simpl; try (split; [apply windows_getBlock|done]).
  destruct k; simpl; [split; [apply windows_getBlock|done]|].
  destruct (IH (mkFState (fetcher fs) (calls fs ++ [CGetBlock n]))) as [A B].
  simpl in *. rewrite A, B. split; [apply windows_getBlock|done].
Qed.

Lemma fetch_timestamps_preserves getBlock ns fs :
  getLogs_windows (calls (fetch_timestamps getBlock ns fs).2) = getLogs_windows (calls fs) /\
  blockRangeLimits (fetcher (fetch_timestamps getBlock ns fs).2) = blockRangeLimits (fetcher fs).
Proof.
  revert fs. induction ns as [|n ns IH]; intros fs; [done|]. cbn [fetch_timestamps].
  pose proof (retry_getBlock_preserves getBlock 4 n fs) as [A B].
  destruct (retry_getBlock getBlock 4 n fs) as [[[ts|]|e] fs1]; simpl in A, B.
  - destruct (IH (mkFState (set_timestamp (fetcher fs1) n ts) (calls fs1))) as [C D].
    simpl in C, D. rewrite C, D. done.
  - destruct (IH fs1) as [C D]. rewrite C, D. done.
  - done.
Qed.

Lemma enrich_preserves getBlock parseLog logs fs :
  getLogs_windows (calls (enrichWithTimestamps getBlock parseLog logs fs).2) = getLogs_windows (calls fs) /\
  blockRangeLimits (fetcher (enrichWithTimestamps getBlock parseLog logs fs).2) = blockRangeLimits (fetcher fs).
Proof.
  unfold enrichWithTimestamps. destruct logs as [|l logs]; [done|].
  match goal with |- context [fetch_timestamps getBlock ?ns fs] =>
    pose proof (fetch_timestamps_preserves getBlock ns fs) as [A B];
    destruct (fetch_timestamps getBlock ns fs) as [[] fs1] end; done.
Qed.

Ltac fstep := rewrite fetch_loop_S; unfold fetch_step at 1;
  cbn [currentBlock chunkSize allLogs calls fetcher app]; zred; cbv iota beta.

(** C3. Over the window [[17000000, 17002000]] with initial chunk size
    2000, when the first [getLogs] call throws "block range too large"
    and every later one succeeds, [fetchEvents] finishes its chunk loop
    (whatever the timestamp lookups then do) having issued exactly four
    [getLogs] calls, on [[17000000, 17001999]], [[17000000, 17000999]],
    [[17001000, 17001999]] and [[17002000, 17002000]], and the chunk size
    stored for the provider is 1000. *)
Theorem fetchEvents_range_shrink_scenario : forall getLogs getBlock getEvent parseLog fuel pid addr names tps,
  (forall a t f to, getLogs [] a t f to = Throws (new_Error "block range too large")) ->
  (forall cs a t f to, cs <> [] -> exists logs, getLogs cs a t f to = Returns logs) ->
  topic_hashes getEvent names = Returns tps ->
  (5 <= fuel)%nat ->
  match fetchEvents getLogs getBlock getEvent parseLog fuel addr names 17000000 17002000 (mkFState (new_EventFetcher pid 2000) []) with
  | FReturns _ fs | FThrows _ fs => getLogs_windows (calls fs) = [(17000000,17001999); (17000000,17000999); (17001000,17001999); (17002000,17002000)] /\ blockRangeLimits (fetcher fs) !! pid = Some 1000
  | FOutOfFuel _ => False
  end.
Proof.
  intros getLogs getBlock getEvent parseLog fuel pid addr names tps H0 H1 Htop Hf.
  assert (Hc : cached_chunk (new_EventFetcher pid 2000) = 2000)
    by (unfold cached_chunk; simpl; by rewrite lookup_empty).
  assert (Hr : isBlockRangeError (new_Error "block range too large") = Returns true) by reflexivity.
  unfold fetchEvents. cbv zeta. cbn [fetcher]. rewrite Htop, Hc.
  destruct fuel as [|[|[|[|[|f]]]]]; try lia.
  fstep. rewrite H0, Hr. cbv iota beta. zred.
  fstep. destruct (H1 [CGetLogs 17000000 17001999] addr tps 17000000 17000999) as [l1 E1]; [done|]. rewrite E1. cbv iota beta.
  fstep. destruct (H1 [CGetLogs 17000000 17001999; CGetLogs 17000000 17000999] addr tps 17001000 17001999) as [l2 E2]; [done|]. rewrite E2. cbv iota beta.
  fstep. destruct (H1 [CGetLogs 17000000 17001999; CGetLogs 17000000 17000999; CGetLogs 17001000 17001999] addr tps 17002000 17002000) as [l3 E3]; [done|]. rewrite E3. cbv iota beta.
  fstep. cbn [allLogs].
  match goal with |- context [enrichWithTimestamps ?b ?p ?l ?fs] =>
    pose proof (enrich_preserves b p l fs) as [Hw Hl];
    destruct (enrichWithTimestamps b p l fs) as [[evs|e] fs2] end;
    cbn [snd calls fetcher] in Hw, Hl; rewrite Hw, Hl; split; try reflexivity; apply lookup_insert_eq.
Qed.

Lemma fetchEvents_range_shrink_scenario_witness :
  match fetchEvents Scenario.range_error_once_getLogs (fun _ _ => Returns (Some 1700000000))
          (fun _ => Some "0xddf252ad") (fun _ _ => Returns None) 5 "0xabc" ["Transfer"]
          17000000 17002000 (mkFState (new_EventFetcher "provider-1" 2000) []) with
  | FReturns _ fs | FThrows _ fs =>
      getLogs_windows (calls fs) = [(17000000,17001999); (17000000,17000999); (17001000,17001999); (17002000,17002000)] /\
      blockRangeLimits (fetcher fs) !! "provider-1" = Some 1000
  | FOutOfFuel _ => False
  end.
Proof.
  apply (fetchEvents_range_shrink_scenario Scenario.range_error_once_getLogs _ _ _ 5 "provider-1" "0xabc" ["Transfer"] ["0xddf252ad"]).
  - intros a t f to. reflexivity.
  - intros [|c cs] a t f to Hne; [congruence|]. exists []. reflexivity.
  - reflexivity.
  - lia.
Defined.

Lemma fetch_step_continue g a tps tb ls fs ls' fs' :
  fetch_step g a tps tb ls fs = SContinue ls' fs' ->
  providerId (fetcher fs') = providerId (fetcher fs) /\
  initialChunkSize (fetcher fs') = initialChunkSize (fetcher fs) /\
  ((chunkSize ls' = chunkSize ls /\ blockRangeLimits (fetcher fs') = blockRangeLimits (fetcher fs)) \/
   (chunkSize ls' = Z.max (chunkSize ls / 2) 100 /\
    blockRangeLimits (fetcher fs') = <[providerId (fetcher fs) := chunkSize ls']> (blockRangeLimits (fetcher fs)))).
Proof.
  unfold fetch_step. destruct (currentBlock ls <=? tb); [|discriminate].
  destruct (g _ _ _ _ _) as [logs|e]; [intros H; inversion H; subst; simpl; auto|].
  destruct (isBlockRangeError e) as [[]|]; intros H; inversion H; subst; simpl; auto.
Qed.

Lemma lifetime_step_inv st st' :
  chunk_inv st -> lifetime_step st st' ->
  chunk_inv st' /\ initialChunkSize (fetcher st'.2) = initialChunkSize (fetcher st.2) /\
  chunkSize st'.1 <= chunkSize st.1.
Proof.
  intros [Hc Hb] Hs. destruct Hs as [g a tps tb ls fs ls' fs' H|ls fs fromBlock|ls fs fs' Hp Hi Hl];
    simpl in *.
  - destruct (fetch_step_continue _ _ _ _ _ _ _ _ H) as (Hp & Hi & [[E1 E2]|[E1 E2]]);
      unfold chunk_inv, cached_chunk in *; simpl; rewrite Hp, Hi.
    + rewrite E1, E2. lia.
    + rewrite E2, lookup_insert_eq. simpl. rewrite E1.
      assert (chunkSize ls / 2 <= chunkSize ls) by (apply Z.div_le_upper_bound; lia). lia.
  - unfold chunk_inv; simpl. lia.
  - unfold chunk_inv, cached_chunk in *; simpl. rewrite Hp, Hi, Hl. lia.
Qed.

Lemma lifetime_inv id init fromBlock st :
  100 <= init -> rtc lifetime_step (lifetime_start id init fromBlock) st ->
  chunk_inv st /\ initialChunkSize (fetcher st.2) = init.
Proof.
  intros Hinit Hr. remember (lifetime_start id init fromBlock) as st0 eqn:E.
  assert (H0 : chunk_inv st0 /\ initialChunkSize (fetcher st0.2) = init).
  { subst. unfold chunk_inv, cached_chunk; simpl. rewrite lookup_empty. simpl. lia. }
  clear E. induction Hr as [st|st1 st2 st3 Hs Hr IH]; [exact H0|].
  apply IH. destruct H0 as [Hinv Hi]. destruct (lifetime_step_inv _ _ Hinv Hs) as (? & ? & _).
  split; congruence.
Qed.

(** C4 (amended). The cached chunk size of a provider in a fetcher
    created with an initial size of at least 100 stays between 100 and
    that initial size and never grows: a range error on chunk size [c]
    makes both the loop's and the cached chunk [max(floor(c/2), 100)]
    without moving the cursor; along any life of the fetcher (loop turns
    with any provider behaviour, new [fetchEvents] calls, timestamp
    enrichment) neither size increases; and from 2000 a provider that
    rejects every range is asked for windows of 2000, 1000, 500, 250,
    125, 100, 100 blocks, with 100 cached. *)
Theorem chunk_size_shrinks_to_floor :
  (forall g a tps tb ls fs e,
     currentBlock ls <= tb ->
     g (calls fs) a tps (currentBlock ls) (Z.min (currentBlock ls + chunkSize ls - 1) tb) = Throws e ->
     isBlockRangeError e = Returns true ->
     exists fs',
       fetch_step g a tps tb ls fs =
         SContinue (mkLoop (currentBlock ls) (Z.max (chunkSize ls / 2) 100) (allLogs ls)) fs' /\
       cached_chunk (fetcher fs') = Z.max (chunkSize ls / 2) 100) /\
  (forall id init fromBlock st st',
     100 <= init ->
     rtc lifetime_step (lifetime_start id init fromBlock) st ->
     lifetime_step st st' ->
     chunkSize st.1 = cached_chunk (fetcher st.2) /\
     100 <= cached_chunk (fetcher st'.2) /\
     cached_chunk (fetcher st'.2) <= cached_chunk (fetcher st.2) /\
     cached_chunk (fetcher st.2) <= init /\
     chunkSize st'.1 <= chunkSize st.1) /\
  match fetchEvents Scenario.always_range_error_getLogs (fun _ _ => Returns None) (fun _ => None)
          (fun _ _ => Returns None) 7 "0xabc" [] 17000000 17002000
          (mkFState (new_EventFetcher "provider-1" 2000) []) with
  | FOutOfFuel fs =>
      map (fun w => w.2 - w.1 + 1) (getLogs_windows (calls fs)) = [2000; 1000; 500; 250; 125; 100; 100] /\
      cached_chunk (fetcher fs) = 100
  | _ => False
  end.
Proof.
  split; [|split; [|vm_compute; auto]].
  - intros g a tps tb ls fs e Hle Hg He. unfold fetch_step.
    rewrite (proj2 (Z.leb_le _ _) Hle), Hg, He.
    eexists. split; [reflexivity|].
    unfold cached_chunk. simpl. by rewrite lookup_insert_eq.
  - intros id init fromBlock st st' Hinit Hr Hs.
    destruct (lifetime_inv _ _ _ _ Hinit Hr) as [[Hc Hb] Hi].
    destruct (lifetime_step_inv _ _ (conj Hc Hb) Hs) as ([Hc' Hb'] & Hi' & Hle).
    lia.
Qed.

Lemma chunk_size_shrinks_to_floor_witness :
  100 <= 2000 /\
  cached_chunk (fetcher (mkFState (set_limit (new_EventFetcher "provider-1" 2000) 1000)
                          [CGetLogs 17000000 17001999])) <=
  cached_chunk (fetcher (lifetime_start "provider-1" 2000 17000000).2).
Proof.
  split; [lia|].
  pose proof chunk_size_shrinks_to_floor as [_ [H _]].
  refine (proj1 (proj2 (proj2 (H "provider-1" 2000 17000000 (lifetime_start "provider-1" 2000 17000000)
            (mkLoop 17000000 1000 [], mkFState (set_limit (new_EventFetcher "provider-1" 2000) 1000)
                                        [CGetLogs 17000000 17001999]) _ _ _)))).
  - lia.
  - apply rtc_refl.
  - apply (lt_loop Scenario.always_range_error_getLogs "0xabc" [] 17002000). reflexivity.
Defined.

(** C4 as stated fails for a configured chunk size below 100
    ([batch_size] only has to be a positive integer): a fetcher created
    with 10 requests 10-block windows, and its first range error raises
    the chunk size to 100. *)
Lemma chunk_size_small_initial_grows :
  exists st1,
    lifetime_step (lifetime_start "provider-1" 10 0) st1 /\
    chunkSize (lifetime_start "provider-1" 10 0).1 < 100 /\
    cached_chunk (fetcher (lifetime_start "provider-1" 10 0).2) < cached_chunk (fetcher st1.2) /\
    chunkSize (lifetime_start "provider-1" 10 0).1 < chunkSize st1.1.
Proof.
  exists (mkLoop 0 100 [], mkFState (set_limit (new_EventFetcher "provider-1" 10) 100) [CGetLogs 0 9]).
  split.
  - apply (lt_loop Scenario.always_range_error_getLogs "0xabc" [] 1000). reflexivity.
  - vm_compute. auto.
Qed.

(* ----------------------------------------------------------------- *)
(** ** Provider pool: claims *)

Module PoolFacts.
Import Pool.

Lemma pool_call_run_frame c p :
  providers (pool_call_run c p) = providers p /\
  failureThreshold (pool_call_run c p) = failureThreshold p /\
  length (entries (pool_call_run c p)) = length (entries p).
Proof.
  destruct c as [now|now id|now id msg]; simpl.
  - unfold getProvider. cbv zeta.
    destruct (filter _ _); [destruct (best_unhealthy _ _ _ _); auto|].
    destruct (weightedList _ !! _); simpl; auto.
  - unfold reportSuccess. destruct (providers p !! id); [|auto].
    destruct (entries p !! n); simpl; [|auto]. rewrite length_insert. auto.
  - unfold reportFailure. destruct (providers p !! id); [|auto].
    destruct (entries p !! n); simpl; [|auto]. rewrite length_insert. auto.
Qed.

Lemma run_calls_frame cs p :
  providers (run_calls cs p) = providers p /\
  failureThreshold (run_calls cs p) = failureThreshold p.
Proof.
  revert p. induction cs as [|c cs IH]; intros p; simpl; [auto|].
  destruct (IH (pool_call_run c p)) as [-> ->].
  destruct (pool_call_run_frame c p) as (-> & -> & _). auto.
Qed.

(** A call that names another provider does not touch [id]'s entry. *)
Lemma pool_call_run_other c p id r :
  providers_inj (providers p) -> providers p !! id = Some r ->
  match c with PReportSuccess _ id' | PReportFailure _ id' _ => id' <> id | _ => True end ->
  entries (pool_call_run c p) !! r = entries p !! r.
Proof.
  intros Hinj Hid Hne. destruct c as [now|now id'|now id' msg]; simpl.
  - unfold getProvider. cbv zeta.
    destruct (filter _ _); [destruct (best_unhealthy _ _ _ _); auto|].
    destruct (weightedList _ !! _); simpl; auto.
  - unfold reportSuccess. destruct (providers p !! id') as [r'|] eqn:E; [|auto].
    destruct (entries p !! r'); simpl; [|auto].
    apply list_lookup_insert_ne. intros ->. apply Hne. eapply Hinj; eauto.
  - unfold reportFailure. destruct (providers p !! id') as [r'|] eqn:E; [|auto].
    destruct (entries p !! r'); simpl; [|auto].
    apply list_lookup_insert_ne. intros ->. apply Hne. eapply Hinj; eauto.
Qed.

Lemma run_calls_entry cs p id r e :
  1 <= failureThreshold p ->
  providers_inj (providers p) -> providers p !! id = Some r ->
  entries p !! r = Some e ->
  healthy e = negb (failureThreshold p <=? consecutiveFailures e) ->
  exists e',
    entries (run_calls cs p) !! r = Some e' /\
    consecutiveFailures e' = failures_since_success id cs (consecutiveFailures e) /\
    healthy e' = negb (failureThreshold p <=? consecutiveFailures e').
Proof.
  revert p e. induction cs as [|c cs IH]; intros p e Hth Hinj Hid He Hh; simpl; [eauto|].
  destruct (pool_call_run_frame c p) as (Hp & Ht & _).
  assert (Hstep : exists e1, entries (pool_call_run c p) !! r = Some e1 /\
            consecutiveFailures e1 =
              match c with
              | PGetProvider _ => consecutiveFailures e
              | PReportSuccess _ id' => if bool_decide (id' = id) then 0 else consecutiveFailures e
              | PReportFailure _ id' _ =>
                  if bool_decide (id' = id) then consecutiveFailures e + 1 else consecutiveFailures e
              end /\
            healthy e1 = negb (failureThreshold p <=? consecutiveFailures e1)).
  { destruct c as [now|now id'|now id' msg].
    - exists e. rewrite (pool_call_run_other _ _ id r); auto.
    - case_bool_decide as Hi.
      + subst id'. simpl. unfold reportSuccess. rewrite Hid, He. simpl.
        eexists. split; [apply list_lookup_insert_eq; eapply lookup_lt_Some; eauto|].
        simpl. split; [reflexivity|]. symmetry. apply negb_true_iff, Z.leb_gt. lia.
      + exists e. rewrite (pool_call_run_other _ _ id r); auto.
    - case_bool_decide as Hi.
      + subst id'. simpl. unfold reportFailure. rewrite Hid, He. simpl.
        eexists. split; [apply list_lookup_insert_eq; eapply lookup_lt_Some; eauto|].
        simpl. split; [reflexivity|].
        destruct (Z.leb_spec (failureThreshold p) (consecutiveFailures e + 1)); [reflexivity|].
        rewrite Hh. f_equal. apply Z.leb_gt in H. apply Z.leb_gt. lia.
      + exists e. rewrite (pool_call_run_other _ _ id r); auto. }
  destruct Hstep as (e1 & He1 & Hc1 & Hh1).
  destruct (IH (pool_call_run c p) e1) as (e' & He' & Hc' & Hh'); rewrite ?Hp, ?Ht; auto.
  exists e'. split; [exact He'|]. split; [|by rewrite Hh', Ht].
  rewrite Hc', Hc1. destruct c; reflexivity.
Qed.

(** The constructor: identifiers are mapped to distinct fresh entries,
    all healthy with no failures. *)
Lemma add_configs_spec cfgs ents m l :
  providers_inj m ->
  (forall i r, m !! i = Some r -> (r < length ents)%nat) ->
  Forall (fun e => healthy e = true /\ consecutiveFailures e = 0) ents ->
  let '(ents', m', l') := add_configs cfgs ents m l in
  providers_inj m' /\
  (forall i r, m' !! i = Some r -> (r < length ents')%nat) /\
  Forall (fun e => healthy e = true /\ consecutiveFailures e = 0) ents'.
Proof.
  revert ents m l. induction cfgs as [|[u p] cfgs IH]; intros ents m l Hinj Hlt Hall; simpl; [auto|].
  apply IH.
  - intros i j r Hi Hj.
    destruct (decide (i = generateProviderId u)) as [->|Hi'];
      destruct (decide (j = generateProviderId u)) as [->|Hj']; auto.
    + rewrite lookup_insert_eq in Hi. rewrite lookup_insert_ne in Hj by auto.
      injection Hi as <-. apply Hlt in Hj. lia.
    + rewrite lookup_insert_eq in Hj. rewrite lookup_insert_ne in Hi by auto.
      injection Hj as <-. apply Hlt in Hi. lia.
    + rewrite lookup_insert_ne in Hi, Hj by auto. eauto.
  - intros i r Hi. rewrite length_app. simpl.
    destruct (decide (i = generateProviderId u)) as [->|Hi'].
    + rewrite lookup_insert_eq in Hi. injection Hi as <-. lia.
    + rewrite lookup_insert_ne in Hi by auto. apply Hlt in Hi. lia.
  - apply Forall_app. split; [exact Hall|]. constructor; [|constructor]. simpl. auto.
Qed.

Lemma new_ProviderPool_spec cfgs th cd p0 :
  new_ProviderPool cfgs th cd = Ok p0 ->
  failureThreshold p0 = default 3 th /\
  providers_inj (providers p0) /\
  forall id r, providers p0 !! id = Some r ->
    exists e, entries p0 !! r = Some e /\ healthy e = true /\ consecutiveFailures e = 0.
Proof.
  unfold new_ProviderPool. destruct cfgs as [|c cs]; [discriminate|].
  pose proof (add_configs_spec (c :: cs) [] ∅ []) as Hs.
  destruct (add_configs (c :: cs) [] ∅ []) as [[ents m] l].
  intros H. injection H as <-. simpl.
  destruct Hs as (Hinj & Hlt & Hall).
  - intros i j r Hi. by rewrite lookup_empty in Hi.
  - intros i r Hi. by rewrite lookup_empty in Hi.
  - constructor.
  - split; [reflexivity|]. split; [exact Hinj|].
    intros id r Hr. apply Hlt in Hr.
    destruct (lookup_lt_is_Some_2 ents r Hr) as [e He]. exists e. split; [exact He|].
    rewrite Forall_lookup in Hall. exact (Hall r e He).
Qed.

End PoolFacts.

Import PoolFacts.

(** C5 (amended). For a pool whose failure threshold is at least 1 (the
    default 3 included), after any sequence of [getProvider],
    [reportSuccess] and [reportFailure] calls, every provider's
    [consecutiveFailures] is the number of failures reported for it since
    its last reported success, and it is unhealthy exactly when that
    number has reached the threshold. A success report on a known
    provider resets its counter to 0, marks it healthy and stamps
    [lastSuccess]. *)
Theorem health_threshold_after_reports :
  (forall cfgs th cd p0 cs id r e,
     Pool.new_ProviderPool cfgs th cd = Ok p0 -> 1 <= default 3 th ->
     Pool.providers (Pool.run_calls cs p0) !! id = Some r ->
     Pool.entries (Pool.run_calls cs p0) !! r = Some e ->
     Pool.consecutiveFailures e = Pool.consecutive_failures id cs /\
     (Pool.healthy e = false <->
      Pool.failureThreshold (Pool.run_calls cs p0) <= Pool.consecutive_failures id cs)) /\
  (forall now id p r e,
     Pool.providers p !! id = Some r -> Pool.entries p !! r = Some e ->
     (Pool.reportSuccess now id p).1 = Ok tt /\
     exists e', Pool.entries (Pool.reportSuccess now id p).2 !! r = Some e' /\
       Pool.consecutiveFailures e' = 0 /\ Pool.healthy e' = true /\
       Pool.lastSuccess e' = Some now).
Proof.
  split.
  - intros cfgs th cd p0 cs id r e Hnew Hth Hid He.
    destruct (new_ProviderPool_spec _ _ _ _ Hnew) as (Ht & Hinj & Hent).
    destruct (run_calls_frame cs p0) as [Hp Ht'].
    rewrite Hp in Hid. rewrite Ht'.
    destruct (Hent id r Hid) as (e0 & He0 & Hh0 & Hc0).
    destruct (run_calls_entry cs p0 id r e0) as (e' & He' & Hc' & Hh'); auto.
    + lia.
    + rewrite Hh0, Hc0. symmetry. apply negb_true_iff, Z.leb_gt. lia.
    + rewrite He in He'. injection He' as <-.
      unfold Pool.consecutive_failures. rewrite <- Hc0. split; [exact Hc'|].
      rewrite Hh'. destruct (Z.leb_spec (Pool.failureThreshold p0) (Pool.consecutiveFailures e));
        simpl; split; intros; try lia; congruence.
  - intros now id p r e Hid He. unfold Pool.reportSuccess. rewrite Hid, He. simpl.
    split; [reflexivity|]. eexists. split; [apply list_lookup_insert_eq; eapply lookup_lt_Some; eauto|].
    simpl. auto.
Qed.

Lemma health_threshold_after_reports_witness :
  Pool.new_ProviderPool [("http://localhost:8545", 1)] None None = Ok Scenario.local_pool /\
  match Pool.entries (Pool.run_calls Scenario.three_failures Scenario.local_pool) !! 0%nat with
  | Some e =>
      Pool.healthy e = false <->
      Pool.failureThreshold (Pool.run_calls Scenario.three_failures Scenario.local_pool) <=
        Pool.consecutive_failures Scenario.local_id Scenario.three_failures
  | None => False
  end.
Proof.
  assert (Hnew : Pool.new_ProviderPool [("http://localhost:8545", 1)] None None = Ok Scenario.local_pool)
    by reflexivity.
  split; [exact Hnew|].
  destruct (Pool.entries (Pool.run_calls Scenario.three_failures Scenario.local_pool) !! 0%nat) as [e|] eqn:He.
  - pose proof health_threshold_after_reports as [H _].
    refine (proj2 (H _ None None Scenario.local_pool Scenario.three_failures Scenario.local_id 0%nat e
                     Hnew _ _ He)).
    + simpl. lia.
    + reflexivity.
  - vm_compute in He. discriminate.
Defined.

(** C5 as stated fails when the pool is created with a failure threshold
    of 0 ([options.failureThreshold ?? 3] keeps a 0): a fresh provider
    has 0 >= 0 consecutive failures and is healthy. *)
Lemma health_threshold_zero_counterexample :
  match Pool.new_ProviderPool [("http://localhost:8545", 1)] (Some 0) None with
  | Ok p0 =>
      exists r e,
        Pool.providers (Pool.run_calls [] p0) !! "provider-1860031575" = Some r /\
        Pool.entries (Pool.run_calls [] p0) !! r = Some e /\
        Pool.healthy e = true /\
        Pool.failureThreshold (Pool.run_calls [] p0) <= Pool.consecutive_failures "provider-1860031575" []
  | Err _ => False
  end.
Proof. vm_compute. eexists 0%nat, _. repeat split; try reflexivity. discriminate. Qed.

Module PoolOrder.
Import Pool.

Lemma insert_by_priority_sorted ents r rs :
  StronglySorted (fun a b => ref_priority ents b <= ref_priority ents a) rs ->
  StronglySorted (fun a b => ref_priority ents b <= ref_priority ents a) (insert_by_priority ents r rs).
Proof.
  induction rs as [|r' rs IH]; intros Hs; simpl.
  - repeat constructor.
  - fold (ref_priority ents r) (ref_priority ents r').
    destruct (Z.leb_spec (ref_priority ents r') (ref_priority ents r)) as [Hle|Hlt].
    + constructor; [exact Hs|]. constructor; [exact Hle|].
      apply StronglySorted_inv in Hs as [_ Hf].
      eapply Forall_impl; [exact Hf|]. simpl. intros x Hx. lia.
    + apply StronglySorted_inv in Hs as [Hs Hf]. constructor; [by apply IH|].
      assert (Hperm : forall l, Forall (fun b => ref_priority ents b <= ref_priority ents r') l ->
                 ref_priority ents r <= ref_priority ents r' ->
                 Forall (fun b => ref_priority ents b <= ref_priority ents r') (insert_by_priority ents r l)).
      { clear. induction l as [|x l IHl]; intros Hl Hr; simpl; [repeat constructor; exact Hr|].
        fold (ref_priority ents r) (ref_priority ents x).
        inversion Hl; subst. destruct (_ <=? _); constructor; auto. }
      apply Hperm; [exact Hf|lia].
Qed.

Lemma sort_by_priority_sorted ents rs :
  StronglySorted (fun a b => ref_priority ents b <= ref_priority ents a) (sort_by_priority ents rs).
Proof.
  induction rs as [|r rs IH]; simpl; [constructor|]. by apply insert_by_priority_sorted.
Qed.

(** Dereferencing a sorted list of references gives entries sorted by
    priority. *)
Lemma omap_sorted ents rs :
  StronglySorted (fun a b => ref_priority ents b <= ref_priority ents a) rs ->
  StronglySorted (fun a b => priority b <= priority a) (omap (fun r => ents !! r) rs).
Proof.
  induction rs as [|r rs IH]; intros Hs; simpl; [constructor|].
  apply StronglySorted_inv in Hs as [Hs Hf].
  destruct (ents !! r) as [e|] eqn:Er; [|by apply IH].
  constructor; [by apply IH|].
  apply Forall_forall. intros e' He'. apply list_elem_of_omap in He' as (r' & Hr' & Er').
  rewrite Forall_forall in Hf. specialize (Hf r' Hr').
  unfold ref_priority in Hf. rewrite Er, Er' in Hf. exact Hf.
Qed.

Lemma filter_sorted (P : ProviderEntry -> Prop) `{!forall e, Decision (P e)} es :
  StronglySorted (fun a b => priority b <= priority a) es ->
  StronglySorted (fun a b => priority b <= priority a) (filter P es).
Proof.
  induction es as [|e es IH]; intros Hs; simpl; [constructor|].
  apply StronglySorted_inv in Hs as [Hs Hf].
  rewrite filter_cons. destruct (decide (P e)); [|by apply IH].
  constructor; [by apply IH|].
  apply Forall_forall. intros x Hx. apply list_elem_of_filter in Hx as [_ Hx].
  rewrite Forall_forall in Hf. by apply Hf.
Qed.

Lemma fold_min_last es b x :
  StronglySorted (fun a b => priority b <= priority a) es ->
  Forall (fun e => priority e <= b) es ->
  last es = Some x ->
  fold_right (fun e' m => Z.min (priority e') m) b es = priority x.
Proof.
  induction es as [|e es IH]; intros Hs Hb Hl; [discriminate|].
  apply StronglySorted_inv in Hs as [Hs Hf]. inversion Hb; subst.
  destruct es as [|e' es].
  - simpl in Hl. injection Hl as <-. simpl. lia.
  - rewrite last_cons_cons in Hl. cbn [fold_right]. cbn [fold_right] in IH.
    rewrite IH; auto.
    apply last_Some_elem_of in Hl. rewrite Forall_forall in Hf. specialize (Hf x Hl). lia.
Qed.

Lemma last_priority_min es :
  StronglySorted (fun a b => priority b <= priority a) es ->
  last_priority es = min_priority es.
Proof.
  destruct es as [|e es]; [reflexivity|]. intros Hs. unfold last_priority, min_priority.
  destruct es as [|e' es]; [reflexivity|].
  rewrite last_cons_cons. destruct (last (e' :: es)) as [x|] eqn:Hl.
  - apply StronglySorted_inv in Hs as [Hs Hf]. symmetry. by apply fold_min_last.
  - by rewrite last_None in Hl.
Qed.

(** Calls on the pool leave priorities and the provider list alone. *)
Lemma pool_call_run_priorities c p :
  providerList (pool_call_run c p) = providerList p /\
  (forall r, priority <$> entries (pool_call_run c p) !! r = priority <$> entries p !! r).
Proof.
  destruct c as [now|now id|now id msg]; simpl.
  - unfold getProvider. cbv zeta.
    destruct (filter _ _); [destruct (best_unhealthy _ _ _ _); auto|].
    destruct (weightedList _ !! _); simpl; auto.
  - unfold reportSuccess. destruct (providers p !! id); [|auto].
    destruct (entries p !! n) as [e|] eqn:E; simpl; [|auto]. split; [reflexivity|].
    intros r. rewrite list_lookup_insert. destruct (decide (n = r)) as [->|].
    + rewrite decide_True by (split; [done|eapply lookup_lt_Some; eauto]). by rewrite E.
    + by rewrite decide_False by (intros [? _]; done).
  - unfold reportFailure. destruct (providers p !! id); [|auto].
    destruct (entries p !! n) as [e|] eqn:E; simpl; [|auto]. split; [reflexivity|].
    intros r. rewrite list_lookup_insert. destruct (decide (n = r)) as [->|].
    + rewrite decide_True by (split; [done|eapply lookup_lt_Some; eauto]). by rewrite E.
    + by rewrite decide_False by (intros [? _]; done).
Qed.

Lemma run_calls_priorities cs p :
  providerList (run_calls cs p) = providerList p /\
  (forall r, priority <$> entries (run_calls cs p) !! r = priority <$> entries p !! r).
Proof.
  revert p. induction cs as [|c cs IH]; intros p; simpl; [auto|].
  destruct (IH (pool_call_run c p)) as [H1 H2].
  destruct (pool_call_run_priorities c p) as [H3 H4].
  split; [congruence|]. intros r. by rewrite H2, H4.
Qed.

Lemma StronglySorted_ext (f g : nat -> Z) rs :
  (forall r, f r = g r) ->
  StronglySorted (fun a b => f b <= f a) rs -> StronglySorted (fun a b => g b <= g a) rs.
Proof.
  intros Hfg. induction rs as [|r rs IH]; intros Hs; [constructor|].
  apply StronglySorted_inv in Hs as [Hs Hf]. constructor; [by apply IH|].
  eapply Forall_impl; [exact Hf|]. simpl. intros x. rewrite !Hfg. done.
Qed.

(** Whatever calls it has served, the pool lists its entries highest
    priority first. *)
Lemma list_entries_sorted cfgs th cd p0 cs :
  new_ProviderPool cfgs th cd = Ok p0 ->
  StronglySorted (fun a b => priority b <= priority a) (list_entries (run_calls cs p0)).
Proof.
  intros Hnew. unfold list_entries.
  destruct (run_calls_priorities cs p0) as [Hl Hp]. rewrite Hl.
  apply omap_sorted.
  apply (StronglySorted_ext (ref_priority (entries p0))).
  - intros r. unfold ref_priority. by rewrite Hp.
  - unfold new_ProviderPool in Hnew. destruct cfgs; [discriminate|].
    destruct (add_configs _ _ _ _) as [[ents m] l].
    injection Hnew as <-. simpl. apply sort_by_priority_sorted.
Qed.

Lemma spec_weightedList_length hs :
  hs <> [] -> (0 < length (spec_weightedList hs))%nat.
Proof.
  destruct hs as [|h t]; [done|]. intros _. unfold spec_weightedList.
  cbn [flat_map]. rewrite length_app, repeat_length. lia.
Qed.

End PoolOrder.

Import PoolOrder.

(** C7 (amended). In any pool built by the constructor, after any
    history of calls, when some endpoint is healthy and the lowest healthy
    priority is not negative (configuration files only allow positive
    priorities), [getProvider] returns the entry at position
    [cursor mod length] of the list in which every healthy endpoint, in
    the pool's priority order, appears [max(1, priority - min_priority + 1)]
    times, and advances the cursor by one. *)
Theorem getProvider_weighted_round_robin :
  forall cfgs th cd p0 cs now,
    Pool.new_ProviderPool cfgs th cd = Ok p0 ->
    filter (fun e => Pool.healthy e = true) (Pool.list_entries (Pool.run_calls cs p0)) <> [] ->
    0 <= Pool.min_priority (filter (fun e => Pool.healthy e = true) (Pool.list_entries (Pool.run_calls cs p0))) ->
    match Pool.spec_weightedList (filter (fun e => Pool.healthy e = true) (Pool.list_entries (Pool.run_calls cs p0)))
            !! Z.to_nat (Pool.roundRobinIndex (Pool.run_calls cs p0) mod
                         Z.of_nat (length (Pool.spec_weightedList
                            (filter (fun e => Pool.healthy e = true) (Pool.list_entries (Pool.run_calls cs p0)))))) with
    | Some e =>
        Pool.getProvider now (Pool.run_calls cs p0) =
          (Ok (Pool.to_info e),
           Pool.mkPool (Pool.entries (Pool.run_calls cs p0)) (Pool.providers (Pool.run_calls cs p0))
             (Pool.providerList (Pool.run_calls cs p0)) (Pool.failureThreshold (Pool.run_calls cs p0))
             (Pool.cooldownPeriod (Pool.run_calls cs p0)) (Pool.roundRobinIndex (Pool.run_calls cs p0) + 1))
    | None => False
    end.
Proof.
  intros cfgs th cd p0 cs now Hnew Hne Hmin.
  pose proof (filter_sorted (fun e => Pool.healthy e = true) _ (list_entries_sorted _ _ _ _ cs Hnew)) as Hs.
  pose proof (spec_weightedList_length _ Hne) as Hlen.
  generalize dependent (Pool.run_calls cs p0). intros p Hne Hmin Hs Hlen.
  unfold Pool.getProvider. cbv zeta.
  assert (Hw : Pool.weightedList (filter (fun e => Pool.healthy e = true) (Pool.list_entries p)) =
               Pool.spec_weightedList (filter (fun e => Pool.healthy e = true) (Pool.list_entries p))).
  { unfold Pool.weightedList, Pool.spec_weightedList. rewrite (last_priority_min _ Hs).
    by rewrite Z.max_r by exact Hmin. }
  destruct (filter (fun e => Pool.healthy e = true) (Pool.list_entries p)) as [|h t]; [done|].
  rewrite Hw.
  destruct (Pool.spec_weightedList (h :: t) !! _) as [e|] eqn:E; [reflexivity|].
  apply lookup_ge_None in E.
  pose proof (Z.mod_pos_bound (Pool.roundRobinIndex p) (Z.of_nat (length (Pool.spec_weightedList (h :: t))))) as Hb.
  lia.
Qed.

Lemma getProvider_weighted_round_robin_witness :
  match Pool.spec_weightedList (filter (fun e => Pool.healthy e = true)
          (Pool.list_entries (Pool.run_calls [Pool.PGetProvider 0] (Scenario.pool_of Scenario.two_cfgs))))
          !! Z.to_nat (Pool.roundRobinIndex (Pool.run_calls [Pool.PGetProvider 0] (Scenario.pool_of Scenario.two_cfgs)) mod
                       Z.of_nat (length (Pool.spec_weightedList (filter (fun e => Pool.healthy e = true)
                          (Pool.list_entries (Pool.run_calls [Pool.PGetProvider 0] (Scenario.pool_of Scenario.two_cfgs))))))) with
  | Some e =>
      Pool.getProvider 0 (Pool.run_calls [Pool.PGetProvider 0] (Scenario.pool_of Scenario.two_cfgs)) =
        (Ok (Pool.to_info e),
         Pool.mkPool (Pool.entries (Pool.run_calls [Pool.PGetProvider 0] (Scenario.pool_of Scenario.two_cfgs)))
           (Pool.providers (Pool.run_calls [Pool.PGetProvider 0] (Scenario.pool_of Scenario.two_cfgs)))
           (Pool.providerList (Pool.run_calls [Pool.PGetProvider 0] (Scenario.pool_of Scenario.two_cfgs)))
           (Pool.failureThreshold (Pool.run_calls [Pool.PGetProvider 0] (Scenario.pool_of Scenario.two_cfgs)))
           (Pool.cooldownPeriod (Pool.run_calls [Pool.PGetProvider 0] (Scenario.pool_of Scenario.two_cfgs)))
           (Pool.roundRobinIndex (Pool.run_calls [Pool.PGetProvider 0] (Scenario.pool_of Scenario.two_cfgs)) + 1))
  | None => False
  end.
Proof.
  apply (getProvider_weighted_round_robin Scenario.two_cfgs None None (Scenario.pool_of Scenario.two_cfgs)
           [Pool.PGetProvider 0] 0).
  - reflexivity.
  - vm_compute. discriminate.
  - vm_compute. discriminate.
Defined.

(** C7 as stated fails when the lowest healthy priority is negative: the
    code weighs from [Math.max(0, min_priority)]. With priorities -1 and
    -2 the specified list has three entries (the first endpoint twice),
    the code's has two, and at cursor 1 the code returns the second
    endpoint instead of the first. *)
Lemma getProvider_negative_priority_counterexample :
  Pool.new_ProviderPool Scenario.negative_cfgs None None = Ok (Scenario.pool_of Scenario.negative_cfgs) /\
  Pool.roundRobinIndex (Pool.run_calls [Pool.PGetProvider 0] (Scenario.pool_of Scenario.negative_cfgs)) = 1 /\
  length (Pool.spec_weightedList (filter (fun e => Pool.healthy e = true)
    (Pool.list_entries (Pool.run_calls [Pool.PGetProvider 0] (Scenario.pool_of Scenario.negative_cfgs))))) = 3%nat /\
  match Pool.spec_weightedList (filter (fun e => Pool.healthy e = true)
          (Pool.list_entries (Pool.run_calls [Pool.PGetProvider 0] (Scenario.pool_of Scenario.negative_cfgs)))) !! 1%nat with
  | Some e =>
      (Pool.getProvider 0 (Pool.run_calls [Pool.PGetProvider 0] (Scenario.pool_of Scenario.negative_cfgs))).1
        <> Ok (Pool.to_info e)
  | None => False
  end.
Proof. split; [reflexivity|]. vm_compute. split; [reflexivity|]. split; [reflexivity|]. discriminate. Qed.

(* ----------------------------------------------------------------- *)
(** ** Coordinator: claims *)

(** C6. When [from_block] is configured, [watchContract] reads the stored
    sync state of the (lower-cased) contract address and starts at
    [last_block + 1] when a row exists with [last_block >= from_block],
    and at [from_block] otherwise; choosing the start block changes
    nothing. *)
Theorem startBlock_from_block :
  forall now getBlockNumberP cfg w fb,
    Indexer.from_block cfg = Some fb ->
    Storage.db_open (Indexer.w_store w) = true ->
    (forall row,
       Storage.sync_state (Indexer.w_store w) !! toLowerCase (Indexer.c_address cfg) = Some row ->
       fb <= Storage.last_block row ->
       Indexer.startBlock now getBlockNumberP cfg w = (Returns (Storage.last_block row + 1), w)) /\
    ((forall row,
        Storage.sync_state (Indexer.w_store w) !! toLowerCase (Indexer.c_address cfg) = Some row ->
        Storage.last_block row < fb) ->
     Indexer.startBlock now getBlockNumberP cfg w = (Returns fb, w)).
Proof.
  intros now getBlockNumberP cfg w fb Hfb Hopen.
  unfold Indexer.startBlock, Storage.getLastSyncedBlock. rewrite Hfb, Hopen. cbn [negb].
  split.
  - intros row Hrow Hle. rewrite Hrow. simpl.
    by rewrite (proj2 (Z.leb_le _ _) Hle).
  - intros Hlt.
    destruct (Storage.sync_state (Indexer.w_store w) !! toLowerCase (Indexer.c_address cfg)) as [row|] eqn:Hrow;
      simpl; [|reflexivity].
    specialize (Hlt row eq_refl). by rewrite (proj2 (Z.leb_gt _ _) Hlt).
Qed.

Lemma startBlock_from_block_witness :
  Indexer.startBlock 0 (fun _ _ => Returns 0) Scenario.resume_cfg Scenario.resume_world =
    (Returns (Storage.last_block (Storage.mkSyncRow 1 150 0 "active") + 1), Scenario.resume_world).
Proof.
  destruct (startBlock_from_block 0 (fun _ _ => Returns 0) Scenario.resume_cfg Scenario.resume_world 100
              eq_refl eq_refl) as [H _].
  apply H.
  - reflexivity.
  - simpl. lia.
Defined.

(* ----------------------------------------------------------------- *)
(** ** Error classification: claims *)

(** C8 (amended). [isRateLimitError] tests lower-cased text for ["429"],
    ["rate limit"], ["too many requests"] or ["quota exceeded"]: a string
    is tested itself; an object or [Error] whose [message] is a string is
    judged on that message alone (its string representation and other
    properties are not consulted); any other object is judged on what its
    [toString] returns, unless that is not a string or is
    ["[object Object]"]. A [code] property never matters. [null],
    [undefined], booleans, numbers and [{}] give [false]. *)
Theorem isRateLimitError_spec :
  isRateLimitError VNull = false /\
  isRateLimitError VUndefined = false /\
  isRateLimitError empty_object = false /\
  (forall b, isRateLimitError (VBool b) = false) /\
  (forall n, isRateLimitError (VNum n) = false) /\
  (forall s, isRateLimitError (VStr s) = rate_limit_text (toLowerCase s)) /\
  (forall is_err props ts m,
     get_prop is_err props "message" = Some (VStr m) ->
     isRateLimitError (VObj is_err props ts) = rate_limit_text (toLowerCase m)) /\
  (forall is_err props ts,
     (forall m, get_prop is_err props "message" <> Some (VStr m)) ->
     isRateLimitError (VObj is_err props ts) =
       match ts with
       | TSReturns (VStr str) =>
           negb (bool_decide (str = "[object Object]")) && rate_limit_text (toLowerCase str)
       | _ => false
       end) /\
  (forall is_err props ts v,
     isRateLimitError (VObj is_err (("code", v) :: props) ts) = isRateLimitError (VObj is_err props ts)).
Proof.
  split; [reflexivity|]. split; [reflexivity|]. split; [reflexivity|].
  split; [reflexivity|]. split; [reflexivity|]. split; [reflexivity|].
  split; [|split].
  - intros is_err props ts m Hm. simpl. unfold has_prop. rewrite Hm.
    by destruct is_err.
  - intros is_err props ts Hm. simpl.
    assert (Hx : match (if is_err || has_prop is_err props "message"
                        then get_prop is_err props "message" else None) with
                 | Some (VStr _) => true | _ => false end = false).
    { destruct (is_err || has_prop is_err props "message"); [|reflexivity].
      destruct (get_prop is_err props "message") as [[| | | | m |]|]; try reflexivity.
      exfalso. exact (Hm m eq_refl). }
    destruct (if is_err || has_prop is_err props "message"
              then get_prop is_err props "message" else None) as [[| | | | m |]|];
      try discriminate;
      (destruct ts as [[| | | | str |]| |]; try reflexivity;
       by destruct (bool_decide (str = "[object Object]"))).
  - intros is_err props ts v. reflexivity.
Qed.

Lemma isRateLimitError_spec_witness :
  get_prop true [("message", VStr "HTTP 429 Too Many")] "message" = Some (VStr "HTTP 429 Too Many") /\
  isRateLimitError (new_Error "HTTP 429 Too Many") = rate_limit_text (toLowerCase "HTTP 429 Too Many").
Proof.
  split; [reflexivity|].
  pose proof isRateLimitError_spec as (_ & _ & _ & _ & _ & _ & H & _).
  exact (H true [("message", VStr "HTTP 429 Too Many")] (TSReturns (VStr "Error: HTTP 429 Too Many"))
           "HTTP 429 Too Many" eq_refl).
Defined.

(** C8 as stated fails: a plain object [{code: 429}] is not classified as
    a rate-limit error (its code is never read and its string
    representation is ["[object Object]"]), and neither is an object
    whose [message] is a string without a marker even though its string
    representation contains ["429"]. *)
Lemma isRateLimitError_code_counterexample :
  isRateLimitError (VObj false [("code", VNum 429)] (TSReturns (VStr "[object Object]"))) = false /\
  isRateLimitError (VObj false [("message", VStr "request failed")]
                      (TSReturns (VStr "HTTP 429 Too Many Requests"))) = false /\
  rate_limit_text (toLowerCase "HTTP 429 Too Many Requests") = true.
Proof. vm_compute. auto. Qed.

(* ----------------------------------------------------------------- *)
(** ** Indexing an empty window: claims *)

Lemma fetch_step_no_logs g a tps tb ls fs :
  (forall cs a t f to l, g cs a t f to = Returns l -> l = []) ->
  allLogs ls = [] ->
  match fetch_step g a tps tb ls fs with
  | SContinue ls' fs' | SDone ls' fs' =>
      allLogs ls' = [] /\ exists new, calls fs' = calls fs ++ new /\ no_getBlock new
  | SThrow _ fs' => exists new, calls fs' = calls fs ++ new /\ no_getBlock new
  end.
Proof.
  intros Hg Hl. unfold fetch_step.
  destruct (currentBlock ls <=? tb); [|split; [exact Hl|exists []; split; [by rewrite app_nil_r|constructor]]].
  destruct (g (calls fs) a tps (currentBlock ls) _) as [logs|e] eqn:Eg.
  - apply Hg in Eg. subst logs. simpl. rewrite Hl. split; [reflexivity|].
    eexists. split; [reflexivity|repeat constructor].
  - destruct (isBlockRangeError e) as [[]|e']; simpl.
    + split; [exact Hl|]. eexists. split; [reflexivity|repeat constructor].
    + eexists. split; [reflexivity|repeat constructor].
    + eexists. split; [reflexivity|repeat constructor].
Qed.

Lemma fetch_loop_no_logs g a tps tb fuel ls fs :
  (forall cs a t f to l, g cs a t f to = Returns l -> l = []) ->
  allLogs ls = [] ->
  match fetch_loop g fuel a tps tb ls fs with
  | FReturns ls' fs' => allLogs ls' = [] /\ exists new, calls fs' = calls fs ++ new /\ no_getBlock new
  | FThrows _ fs' | FOutOfFuel fs' => exists new, calls fs' = calls fs ++ new /\ no_getBlock new
  end.
Proof.
  intros Hg. revert ls fs. induction fuel as [|fuel IH]; intros ls fs Hl; simpl.
  - exists []. split; [by rewrite app_nil_r|constructor].
  - pose proof (fetch_step_no_logs g a tps tb ls fs Hg Hl) as Hs.
    destruct (fetch_step g a tps tb ls fs) as [ls1 fs1|ls1 fs1|v fs1]; [|exact Hs|exact Hs].
    destruct Hs as [Hl1 (new1 & Hn1 & Hb1)].
    specialize (IH ls1 fs1 Hl1).
    destruct (fetch_loop g fuel a tps tb ls1 fs1) as [ls' fs'|v fs'|fs'];
      [destruct IH as [IH1 (new & Hn & Hnb)]; split; [exact IH1|] | destruct IH as (new & Hn & Hnb) ..];
      exists (new1 ++ new); rewrite Hn, Hn1, app_assoc; (split; [reflexivity|by apply Forall_app]).
Qed.

Lemma fetchEvents_no_logs g gb ge pl fuel a names fromBlock toBlock fs :
  (forall cs a t f to l, g cs a t f to = Returns l -> l = []) ->
  match fetchEvents g gb ge pl fuel a names fromBlock toBlock fs with
  | FReturns evs fs' => evs = [] /\ exists new, calls fs' = calls fs ++ new /\ no_getBlock new
  | FThrows _ fs' | FOutOfFuel fs' => exists new, calls fs' = calls fs ++ new /\ no_getBlock new
  end.
Proof.
  intros Hg. unfold fetchEvents. cbv zeta.
  destruct (topic_hashes ge names) as [tps|e].
  - pose proof (fetch_loop_no_logs g a tps toBlock fuel (mkLoop fromBlock (cached_chunk (fetcher fs)) []) fs Hg eq_refl) as H.
    destruct (fetch_loop _ _ _ _ _ _ _) as [ls' fs'|v fs'|fs']; [|exact H|exact H].
    destruct H as [Hl H]. rewrite Hl. simpl. split; [reflexivity|exact H].
  - exists []. split; [by rewrite app_nil_r|constructor].
Qed.

Lemma updateSyncStateAndInsertEvents_empty fault addr chain blk now s :
  ((Storage.updateSyncStateAndInsertEvents fault addr chain blk [] now s).1 = Ok tt /\
   (Storage.updateSyncStateAndInsertEvents fault addr chain blk [] now s).2 =
     (Storage.upsert_sync addr chain blk now s).2) \/
  ((exists m, (Storage.updateSyncStateAndInsertEvents fault addr chain blk [] now s).1 = Err m) /\
   (Storage.updateSyncStateAndInsertEvents fault addr chain blk [] now s).2 = s).
Proof.
  unfold Storage.updateSyncStateAndInsertEvents.
  destruct (Storage.db_open s); simpl; [|right; eauto].
  unfold Storage.transaction, Storage.sql_bind, Storage.stmt_run.
  destruct (fault O); [right; simpl; eauto|].
  left. unfold Storage.upsert_sync. simpl. auto.
Qed.

Lemma upsert_sync_events addr chain blk now s :
  Storage.events (Storage.upsert_sync addr chain blk now s).2 = Storage.events s.
Proof. reflexivity. Qed.

(** C9 (amended). When no [getLogs] call returns any log, an indexing
    iteration makes no [getBlock] call (its only RPC calls are [getLogs])
    and writes no event row. When it succeeds it still writes the
    database: the [sync_state] row of the contract is upserted with
    [last_block = toBlock]. When it fails, or does not finish, the
    database is unchanged. *)
Theorem indexBlocks_empty_window :
  forall fault now getLogsP getBlockP getABI getEvent parseLog fuel chain opts cfg fromBlock toBlock w,
    (forall id cs a t f to l, getLogsP id cs a t f to = Returns l -> l = []) ->
    match Indexer.indexBlocks fault now getLogsP getBlockP getABI getEvent parseLog fuel chain opts cfg
            fromBlock toBlock w with
    | Indexer.IOk w' =>
        (exists new, Indexer.w_calls w' = Indexer.w_calls w ++ new /\ no_getBlock new) /\
        Storage.events (Indexer.w_store w') = Storage.events (Indexer.w_store w) /\
        Indexer.w_store w' =
          (Storage.upsert_sync (toLowerCase (Indexer.c_address cfg)) (Indexer.getChainId chain) toBlock now
             (Indexer.w_store w)).2
    | Indexer.IThrows _ w' | Indexer.IOutOfFuel w' =>
        (exists new, Indexer.w_calls w' = Indexer.w_calls w ++ new /\ no_getBlock new) /\
        Indexer.w_store w' = Indexer.w_store w
    end.
Proof.
  intros fault now getLogsP getBlockP getABI getEvent parseLog fuel chain opts cfg fromBlock toBlock w Hg.
  assert (H0 : exists new, Indexer.w_calls w = Indexer.w_calls w ++ new /\ no_getBlock new)
    by (exists []; split; [by rewrite app_nil_r|constructor]).
  unfold Indexer.indexBlocks. cbv zeta.
  destruct (Pool.getProvider now (Indexer.w_pool w)) as [[prov|m] p1]; [|simpl; auto].
  destruct (getABI _ _ _) as [u|e].
  - pose proof (fetchEvents_no_logs (getLogsP (Pool.info_id prov)) (getBlockP (Pool.info_id prov))
                  getEvent parseLog fuel (toLowerCase (Indexer.c_address cfg)) (Indexer.c_events cfg)
                  fromBlock toBlock
                  (mkFState (new_EventFetcher (Pool.info_id prov) (Indexer.batch_size opts))
                     (Indexer.w_calls (Indexer.with_pool w p1)))
                  (fun cs a t f to l => Hg (Pool.info_id prov) cs a t f to l)) as Hf.
    destruct (fetchEvents _ _ _ _ _ _ _ _ _ _) as [evs fs1|v fs1|fs1]; simpl in Hf.
    + destruct Hf as [-> Hn]. simpl.
      destruct (Pool.reportSuccess now (Pool.info_id prov) p1) as [[[]|ms] p2].
      * pose proof (updateSyncStateAndInsertEvents_empty fault (toLowerCase (Indexer.c_address cfg))
                      (Indexer.getChainId chain) toBlock now (Indexer.w_store w)) as Hu.
        destruct (Storage.updateSyncStateAndInsertEvents _ _ _ _ _ _ _) as [[[]|mu] s2];
          simpl in Hu; destruct Hu as [[Hok Hst]|[[m Hm] Hst]]; try discriminate.
        -- simpl. split; [exact Hn|]. rewrite Hst. split; [reflexivity|reflexivity].
        -- destruct (Pool.reportFailure _ _ _ _) as [[[]|mf] p3]; simpl; auto.
      * destruct (Pool.reportFailure _ _ _ _) as [[[]|mf] p3]; simpl; auto.
    + destruct (Pool.reportFailure _ _ _ _) as [[[]|mf] p3]; simpl; auto.
    + simpl. auto.
  - destruct (Pool.reportFailure _ _ _ _) as [[[]|mf] p3]; simpl; auto.
Qed.

Lemma indexBlocks_empty_window_witness :
  match Indexer.indexBlocks Storage.no_fault 0 Scenario.empty_getLogsP Scenario.some_getBlockP
          Scenario.found_getABI Scenario.transfer_getEvent Scenario.no_parseLog 10 Indexer.ethereum
          Scenario.default_options Scenario.resume_cfg 100 150 Scenario.fresh_world with
  | Indexer.IOk w' =>
      (exists new, Indexer.w_calls w' = Indexer.w_calls Scenario.fresh_world ++ new /\ no_getBlock new) /\
      Storage.events (Indexer.w_store w') = Storage.events (Indexer.w_store Scenario.fresh_world) /\
      Indexer.w_store w' =
        (Storage.upsert_sync (toLowerCase (Indexer.c_address Scenario.resume_cfg))
           (Indexer.getChainId Indexer.ethereum) 150 0 (Indexer.w_store Scenario.fresh_world)).2
  | Indexer.IThrows _ w' | Indexer.IOutOfFuel w' =>
      (exists new, Indexer.w_calls w' = Indexer.w_calls Scenario.fresh_world ++ new /\ no_getBlock new) /\
      Indexer.w_store w' = Indexer.w_store Scenario.fresh_world
  end.
Proof.
  apply indexBlocks_empty_window.
  intros id cs a t f to l H. unfold Scenario.empty_getLogsP in H. congruence.
Defined.

(** C9 as stated fails: on a chain where the contract emitted nothing,
    the iteration over blocks 100-150 succeeds and writes the database
    (before it, no block of the contract was recorded as synced; after
    it, block 150 is). *)
Lemma indexBlocks_empty_window_writes_sync_state :
  match Indexer.indexBlocks Storage.no_fault 0 Scenario.empty_getLogsP Scenario.some_getBlockP
          Scenario.found_getABI Scenario.transfer_getEvent Scenario.no_parseLog 10 Indexer.ethereum
          Scenario.default_options Scenario.resume_cfg 100 150 Scenario.fresh_world with
  | Indexer.IOk w' =>
      Indexer.w_store w' <> Indexer.w_store Scenario.fresh_world /\
      Storage.getLastSyncedBlock "0xabc" (Indexer.w_store Scenario.fresh_world) = Ok None /\
      Storage.getLastSyncedBlock "0xabc" (Indexer.w_store w') = Ok (Some 150) /\
      getLogs_windows (Indexer.w_calls w') = [(100, 150)]
  | _ => False
  end.
Proof. vm_compute. split; [discriminate|auto]. Qed.

(* ----------------------------------------------------------------- *)
(** ** Decoder: claims *)

Lemma decode_logs_app parseLog cache l1 l2 :
  decode_logs parseLog cache (l1 ++ l2) = decode_logs parseLog cache l1 ++ decode_logs parseLog cache l2.
Proof.
  induction l1 as [|log l1 IH]; simpl; [reflexivity|].
  destruct (decode parseLog log) as [[ev|]|]; [|by rewrite IH|by rewrite IH].
  destruct (cache !! log_blockNumber log); simpl; by rewrite IH.
Qed.

(** C10. [EventDecoder.decode] never throws, whatever [iface.parseLog]
    does: it returns [null] or an event with the log's coordinates and
    [blockTimestamp = 0]. It returns [null] when [parseLog] returns
    [null] (unknown topic-0), when [parseLog] throws (malformed data),
    and when serialising the arguments throws. In
    [enrichWithTimestamps] a log that decodes to [null] contributes
    nothing: removing it does not change the events returned. *)
Theorem decode_total :
  forall parseLog log,
    (decode parseLog log = Returns None \/
     exists ev, decode parseLog log = Returns (Some ev) /\
       blockTimestamp ev = 0 /\ contractAddress ev = address log /\
       blockNumber ev = log_blockNumber log /\ transactionHash ev = log_transactionHash log /\
       logIndex ev = index log) /\
    (parseLog (topics log) (data log) = Returns None -> decode parseLog log = Returns None) /\
    (forall e, parseLog (topics log) (data log) = Throws e -> decode parseLog log = Returns None) /\
    (forall parsed e, parseLog (topics log) (data log) = Returns (Some parsed) ->
       serializeEventData (ld_args parsed) = Throws e -> decode parseLog log = Returns None) /\
    (forall cache l1 l2, decode parseLog log = Returns None ->
       decode_logs parseLog cache (l1 ++ log :: l2) = decode_logs parseLog cache (l1 ++ l2)).
Proof.
  intros parseLog log. split; [|split; [|split; [|split]]].
  - unfold decode, decode_try.
    destruct (parseLog (topics log) (data log)) as [[parsed|]|e]; [|auto|auto].
    destruct (serializeEventData (ld_args parsed)) as [ed|e]; [|auto].
    right. eexists. split; [reflexivity|]. simpl. auto.
  - intros H. unfold decode, decode_try. by rewrite H.
  - intros e H. unfold decode, decode_try. by rewrite H.
  - intros parsed e H1 H2. unfold decode, decode_try. by rewrite H1, H2.
  - intros cache l1 l2 H. rewrite !decode_logs_app. simpl. by rewrite H.
Qed.

Lemma decode_total_witness :
  decode (fun _ _ => Throws (new_Error "data out-of-bounds"))
    (mkLog "0xabc" 100 "0x01" 0 ["0xddf252ad"] "0x") = Returns None.
Proof.
  pose proof (decode_total (fun _ _ => Throws (new_Error "data out-of-bounds"))
                (mkLog "0xabc" 100 "0x01" 0 ["0xddf252ad"] "0x")) as (_ & _ & H & _).
  exact (H (new_Error "data out-of-bounds") eq_refl).
Defined.

(* ================================================================= *)
(** * Further properties of the storage, rate limiter, pool and fetcher *)

Module ListMore.

Lemma list_map_fmap {A B} (f : A -> B) (l : list A) : map f l = f <$> l.
Proof. induction l as [|x l IH]; simpl; [done|]. by rewrite IH. Qed.

Lemma filter_none {A} (P : A -> Prop) `{!forall x, Decision (P x)} (l : list A) :
  (forall x, x ∈ l -> ~ P x) -> filter P l = [].
Proof.
  induction l as [|x l IH]; intros Hn; [done|].
  rewrite filter_cons_False by (apply Hn; left). apply IH. intros y Hy. apply Hn. by right.
Qed.


End ListMore.
Import ListMore.

Module StorageMore.
Import Storage.

Lemma key_present_true tx li rs :
  key_present tx li rs = true <-> (tx, li) ∈ row_key <$> rs.
Proof.
  unfold key_present. rewrite existsb_exists, list_elem_of_fmap. split.
  - intros (r & Hr & Hb). apply andb_true_iff in Hb as [H1 H2].
    apply bool_decide_eq_true in H1, H2. exists r. unfold row_key. rewrite H1, H2.
    split; [done|]. by apply list_elem_of_In.
  - intros (r & Hk & Hr). exists r. unfold row_key in Hk. injection Hk as -> ->.
    split; [by apply list_elem_of_In|]. by rewrite !bool_decide_eq_true_2.
Qed.

(** The row an [INSERT] adds gives back the event it was made from. *)
Lemma insert_or_ignore_fresh e now s :
  event_key e ∉ row_key <$> events s ->
  exists r, insert_or_ignore e now s =
    (1, mkStore (db_open s) (sync_state s) (events s ++ [r]) (next_id s + 1)) /\
    row_to_event r = e /\ row_key r = event_key e.
Proof.
  intros Hk. unfold insert_or_ignore.
  destruct (key_present _ _ _) eqn:Hp.
  - apply key_present_true in Hp. contradiction.
  - eexists. split; [reflexivity|]. destruct e. split; reflexivity.
Qed.

Lemma insert_or_ignore_nodup e now s :
  NoDup (row_key <$> events s) ->
  NoDup (row_key <$> events (insert_or_ignore e now s).2) /\
  events s `prefix_of` events (insert_or_ignore e now s).2.
Proof.
  intros Hnd. unfold insert_or_ignore.
  destruct (key_present _ _ _) eqn:Hp; simpl; [split; [done|reflexivity]|].
  split; [|by apply prefix_app_r].
  rewrite fmap_app. apply NoDup_app. split; [done|]. split; [|simpl; apply NoDup_singleton].
  intros x Hx Hin. simpl in Hin. apply list_elem_of_singleton in Hin. subst x.
  unfold row_key in Hx. simpl in Hx. apply key_present_true in Hx. congruence.
Qed.

Lemma insert_loop_no_fault fault evs now c k s x :
  insert_loop fault evs now c k s = Ok x -> insert_loop no_fault evs now c k s = Ok x.
Proof.
  revert c k s. induction evs as [|e rest IH]; intros c k s H; [exact H|].
  simpl in H |- *. unfold sql_bind in H |- *.
  destruct (stmt_run fault (insert_or_ignore e now) k s) as [[[ch k1] s1]|m] eqn:Hs;
    [|discriminate].
  apply stmt_run_ok in Hs as [_ Hs]. inversion Hs; subst.
  rewrite stmt_run_no_fault. by apply IH.
Qed.

Lemma insert_loop_nodup fault evs now c k s n k' s' :
  NoDup (row_key <$> events s) ->
  insert_loop fault evs now c k s = Ok (n, k', s') ->
  NoDup (row_key <$> events s') /\ events s `prefix_of` events s'.
Proof.
  revert c k s. induction evs as [|e rest IH]; intros c k s Hnd H.
  - simpl in H. inversion H; subst. split; [done|reflexivity].
  - simpl in H. unfold sql_bind in H.
    destruct (stmt_run fault (insert_or_ignore e now) k s) as [[[ch k1] s1]|m] eqn:Hs;
      [|discriminate].
    apply stmt_run_ok in Hs as [_ Hs]. inversion Hs; subst ch k1 s1.
    destruct (insert_or_ignore_nodup e now s Hnd) as [Hnd1 Hp1].
    destruct (IH _ _ _ Hnd1 H) as [Hnd2 Hp2]. split; [done|]. by transitivity (events (insert_or_ignore e now s).2).
Qed.

Lemma commit_loop_nodup fault evs now k s x :
  NoDup (row_key <$> events s) ->
  commit_loop fault evs now k s = Ok x ->
  NoDup (row_key <$> events x.2) /\ events s `prefix_of` events x.2.
Proof.
  revert k s. induction evs as [|e rest IH]; intros k s Hnd H.
  - simpl in H. inversion H; subst. split; [done|reflexivity].
  - simpl in H. unfold sql_bind in H.
    destruct (stmt_run fault (insert_or_ignore e now) k s) as [[[ch k1] s1]|m] eqn:Hs;
      [|discriminate].
    apply stmt_run_ok in Hs as [_ Hs]. inversion Hs; subst ch k1 s1.
    destruct (insert_or_ignore_nodup e now s Hnd) as [Hnd1 Hp1].
    destruct (IH _ _ Hnd1 H) as [Hnd2 Hp2]. split; [done|]. by transitivity (events (insert_or_ignore e now s).2).
Qed.

(** With keys that are fresh and distinct, every event of the batch is
    inserted. *)
Lemma insert_loop_fresh fault evs now c k s n k' s' :
  NoDup ((row_key <$> events s) ++ (event_key <$> evs)) ->
  insert_loop fault evs now c k s = Ok (n, k', s') ->
  n = c + Z.of_nat (length evs) /\ db_open s' = db_open s /\
  row_to_event <$> events s' = (row_to_event <$> events s) ++ evs.
Proof.
  revert c k s. induction evs as [|e rest IH]; intros c k s Hnd H.
  - simpl in H. inversion H; subst. rewrite app_nil_r. simpl. split; [lia|done].
  - simpl in H. unfold sql_bind in H.
    destruct (stmt_run fault (insert_or_ignore e now) k s) as [[[ch k1] s1]|m] eqn:Hs;
      [|discriminate].
    apply stmt_run_ok in Hs as [_ Hs]. inversion Hs; subst ch k1 s1.
    apply NoDup_app in Hnd as Hnd'. destruct Hnd' as (_ & Hdis & _).
    assert (Hk : event_key e ∉ row_key <$> events s).
    { intros Hin. apply (Hdis _ Hin). simpl. apply list_elem_of_here. }
    destruct (insert_or_ignore_fresh e now s Hk) as (r & Hio & Hr & Hrk).
    rewrite Hio in H. cbn [fst snd] in H.
    assert (Hnd1 : NoDup ((row_key <$> events s ++ [r]) ++ (event_key <$> rest))).
    { rewrite fmap_app, <- app_assoc. rewrite fmap_cons in Hnd. cbn [fmap list_fmap]. by rewrite Hrk. }
    destruct ((fun Hn => IH _ _ _ Hn H) Hnd1) as (Hn & Hdb & Hev).
    cbn [events db_open] in *. rewrite Hev, fmap_app, <- app_assoc. cbn [fmap list_fmap]. rewrite Hr.
    split; [|split; [exact Hdb|reflexivity]].
    rewrite Hn, length_cons. simpl. lia.
Qed.

Lemma filter_no_filter (rs : list EventRow) : filter (row_matches no_filter) rs = rs.
Proof. induction rs as [|r rs IH]; [done|]. rewrite filter_cons_True; [by rewrite IH|done]. Qed.

Lemma insert_sorted_perm r rs : insert_sorted r rs ≡ₚ r :: rs.
Proof.
  induction rs as [|r' rs IH]; simpl; [done|].
  destruct (row_le r r'); [done|]. rewrite IH. constructor.
Qed.

Lemma sort_rows_perm rs : sort_rows rs ≡ₚ rs.
Proof.
  induction rs as [|r rs IH]; simpl; [done|]. by rewrite insert_sorted_perm, IH.
Qed.








(** What a successful sync-state update leaves in [sync_state]. *)
Lemma updateSync_ok_lookup fault addr chain blk evs now s s' :
  Storage.updateSyncStateAndInsertEvents fault addr chain blk evs now s = (Ok tt, s') ->
  Storage.getLastSyncedBlock addr s' = Ok (Some blk) /\
  (forall a, a <> addr -> Storage.getLastSyncedBlock a s' = Storage.getLastSyncedBlock a s) /\
  (forall r, Storage.sync_state s !! addr = Some r ->
     exists r', Storage.sync_state s' !! addr = Some r' /\
       Storage.chain_id r' = Storage.chain_id r /\ Storage.status r' = Storage.status r /\
       Storage.last_sync r' = now) /\
  (Storage.sync_state s !! addr = None ->
     exists r', Storage.sync_state s' !! addr = Some r' /\
       Storage.chain_id r' = chain /\ Storage.status r' = "active" /\ Storage.last_sync r' = now).
Proof.
  intros H. unfold Storage.updateSyncStateAndInsertEvents in H.
  destruct (Storage.db_open s) eqn:Hdb; [|simpl in H; discriminate].
  cbn [negb] in H. unfold Storage.transaction, Storage.sql_bind in H.
  destruct (Storage.stmt_run fault (Storage.upsert_sync addr chain blk now) O s) as [[[u k1] s1]|m] eqn:Hs;
    [|simpl in H; discriminate].
  assert (Hst : Storage.db_open s' = Storage.db_open s1 /\ Storage.sync_state s' = Storage.sync_state s1).
  { destruct evs as [|e rest]; cbv beta iota in H.
    - simpl in H. injection H as <-. split; reflexivity.
    - destruct (Storage.commit_loop fault (e :: rest) now k1 s1) as [[[v k2] s3]|m] eqn:Hc;
        simpl in H; [|discriminate].
      injection H as <-. destruct (commit_loop_ok _ _ _ _ _ _ Hc) as (_ & Hdb3 & Hss & _).
      simpl in Hdb3, Hss |- *. split; congruence. }
  apply stmt_run_ok in Hs as [_ Hs]. injection Hs as _ -> ->.
  destruct Hst as [Hdb' Hss]. unfold Storage.getLastSyncedBlock. rewrite Hdb', Hdb, Hss. simpl.
  split; [|split; [|split]].
  - rewrite lookup_insert_eq. by destruct (Storage.sync_state s !! addr).
  - intros a Ha. by rewrite lookup_insert_ne by congruence.
  - intros r Hr. rewrite lookup_insert_eq, Hr. eexists. split; [reflexivity|]. simpl. auto.
  - intros Hr. rewrite lookup_insert_eq, Hr. eexists. split; [reflexivity|]. simpl. auto.
Qed.

End StorageMore.

Module JSMore.
Import JS.

Lemma ascii_lower_idem c : ascii_lower (ascii_lower c) = ascii_lower c.
Proof.
  unfold ascii_lower. cbv zeta.
  destruct ((65 <=? nat_of_ascii c)%nat && (nat_of_ascii c <=? 90)%nat) eqn:E.
  - apply andb_true_iff in E as [E1 E2]. apply Nat.leb_le in E1, E2.
    rewrite (nat_ascii_embedding (nat_of_ascii c + 32)) by lia.
    replace ((65 <=? nat_of_ascii c + 32)%nat && (nat_of_ascii c + 32 <=? 90)%nat) with false; [done|].
    symmetry. apply andb_false_iff. right. apply Nat.leb_gt. lia.
  - by rewrite E.
Qed.

Lemma toLowerCase_idem s : toLowerCase (toLowerCase s) = toLowerCase s.
Proof. induction s; simpl; [done|]. by rewrite ascii_lower_idem, IHs. Qed.

(** Every character of [s] lies below ['A']. *)
Fixpoint below_A (s : string) : Prop :=
  match s with
  | EmptyString => True
  | String c rest => (nat_of_ascii c < 65)%nat /\ below_A rest
  end.

Lemma toLowerCase_below_A s : below_A s -> toLowerCase s = s.
Proof.
  induction s as [|c s IH]; simpl; [done|]. intros [Hc Hs]. rewrite IH by done.
  unfold ascii_lower. cbv zeta. replace ((65 <=? nat_of_ascii c)%nat && _) with false; [done|].
  symmetry. apply andb_false_iff. left. apply Nat.leb_gt. lia.
Qed.

Lemma startsWith_head s c p : startsWith s (String c p) = true -> exists s', s = String c s'.
Proof.
  destruct s as [|d s']; simpl; [discriminate|]. intros H.
  apply andb_true_iff in H as [H _]. apply bool_decide_eq_true in H. subst. eauto.
Qed.

Lemma includes_below_A s c p : below_A s -> (65 <= nat_of_ascii c)%nat ->
  includes s (String c p) = false.
Proof.
  intros Hs Hc. induction s as [|d s IH]; simpl.
  - done.
  - destruct Hs as [Hd Hs]. rewrite IH by done. rewrite orb_false_r.
    apply andb_false_iff. left. apply bool_decide_eq_false. intros ->. lia.
Qed.

Lemma pretty_N_char_below_A x : (nat_of_ascii (pretty_N_char x) < 65)%nat.
Proof. apply Nat.ltb_lt. unfold pretty_N_char. by repeat case_match. Qed.

Lemma pretty_N_go_below_A x s : below_A s -> below_A (pretty_N_go x s).
Proof.
  revert s. induction (N.lt_wf_0 x) as [x _ IH]; intros s Hs.
  assert (x = 0 \/ 0 < x)%N as [->|?] by lia; [by rewrite pretty_N_go_0|].
  rewrite pretty_N_go_step by done. apply IH; [by apply N.div_lt|].
  split; [apply pretty_N_char_below_A|done].
Qed.

Lemma pretty_N_below_A (x : N) : below_A (pretty x).
Proof.
  unfold pretty, pretty_N. case_decide.
  - simpl. split; [apply Nat.ltb_lt; reflexivity|done].
  - by apply pretty_N_go_below_A.
Qed.

Lemma pretty_Z_below_A (z : Z) : below_A (pretty z).
Proof.
  destruct z as [|p|p].
  - simpl. split; [apply Nat.ltb_lt; reflexivity|done].
  - apply (pretty_N_below_A (N.pos p)).
  - simpl. split; [apply Nat.ltb_lt; reflexivity|]. apply (pretty_N_below_A (N.pos p)).
Qed.

Lemma numeric_code_no_match (z : Z) : timeout_code_text (toLowerCase (pretty z)) = false.
Proof.
  rewrite toLowerCase_below_A by apply pretty_Z_below_A. unfold timeout_code_text.
  rewrite !includes_below_A; try apply pretty_Z_below_A; cbv; lia.
Qed.

End JSMore.

Module PoolMore.
Import Pool.

Lemma best_unhealthy_last now cd es b :
  best_unhealthy now cd es b =
  match last (filter (fun e => cooled_down now cd e = true) es) with
  | Some e => Some e
  | None => b
  end.
Proof.
  revert b. induction es as [|e rest IH]; intros b; simpl; [done|].
  rewrite IH. unfold cooled_down at 1.
  destruct (healthy e) eqn:Hh; simpl.
  - rewrite filter_cons_False by (unfold cooled_down; rewrite Hh; simpl; congruence). done.
  - destruct (lastFailure e) as [lf|] eqn:Hlf.
    + destruct (cd <=? now - lf) eqn:Hc.
      * rewrite filter_cons_True by (unfold cooled_down; rewrite Hh, Hlf, Hc; done).
        destruct (filter _ rest) as [|x l] eqn:Hf; [done|].
        rewrite last_cons_cons. destruct (last (x :: l)) eqn:Hl; [done|].
        apply last_None in Hl. discriminate.
      * rewrite filter_cons_False by (unfold cooled_down; rewrite Hh, Hlf, Hc; simpl; congruence). done.
    + rewrite filter_cons_False by (unfold cooled_down; rewrite Hh, Hlf; simpl; congruence). done.
Qed.

Lemma weightedList_elem hs e : e ∈ weightedList hs -> e ∈ hs.
Proof.
  unfold weightedList. rewrite !list_elem_of_In. intros H.
  apply in_flat_map in H as (x & Hx & Hr). apply repeat_spec in Hr. by subst.
Qed.

Lemma weightedList_length h t : (0 < length (weightedList (h :: t)))%nat.
Proof.
  unfold weightedList. simpl. rewrite length_app, repeat_length. lia.
Qed.

Lemma getProvider_some_healthy now p e0 :
  e0 ∈ list_entries p -> healthy e0 = true ->
  exists e, getProvider now p =
    (Ok (to_info e), mkPool (entries p) (providers p) (providerList p)
                       (failureThreshold p) (cooldownPeriod p) (roundRobinIndex p + 1)) /\
    e ∈ list_entries p /\ healthy e = true.
Proof.
  intros Hin Hh. unfold getProvider.
  assert (Hf : e0 ∈ filter (fun e => healthy e = true) (list_entries p))
    by (apply list_elem_of_filter; auto).
  destruct (filter _ (list_entries p)) as [|h t] eqn:Hfl; [by apply not_elem_of_nil in Hf|].
  pose proof (weightedList_length h t) as Hlen.
  set (wl := weightedList (h :: t)) in *.
  assert (Hi : (Z.to_nat (roundRobinIndex p mod Z.of_nat (length wl)) < length wl)%nat).
  { pose proof (Z.mod_pos_bound (roundRobinIndex p) (Z.of_nat (length wl)) ltac:(lia)). lia. }
  destruct (lookup_lt_is_Some_2 wl _ Hi) as [e He]. rewrite He.
  exists e. split; [done|].
  apply list_elem_of_lookup_2, weightedList_elem in He. rewrite <- Hfl in He.
  apply list_elem_of_filter in He as [? ?]. auto.
Qed.

Lemma filter_healthy_nil es :
  Forall (fun e => healthy e = false) es -> filter (fun e => healthy e = true) es = [].
Proof.
  induction 1 as [|e es He _ IH]; [done|].
  rewrite filter_cons_False by congruence. exact IH.
Qed.

Lemma sorted_last_min es e :
  StronglySorted (fun a b => priority b <= priority a) es -> last es = Some e ->
  forall e', e' ∈ es -> priority e <= priority e'.
Proof.
  intros Hs Hl. apply last_Some in Hl as [l ->].
  induction l as [|x l IH]; intros e' He'.
  - apply list_elem_of_singleton in He' as ->. lia.
  - change ((x :: l) ++ [e]) with (x :: (l ++ [e])) in Hs, He'.
    apply StronglySorted_inv in Hs as [Hs Hx].
    apply elem_of_cons in He' as [->|He']; [|by apply IH].
    rewrite Forall_forall in Hx. apply Hx, elem_of_app. right. by left.
Qed.

Lemma add_configs_shape cfgs ents m l :
  (add_configs cfgs ents m l).1.1 = ents ++ ((fun c => new_entry c.1 c.2) <$> cfgs) /\
  (add_configs cfgs ents m l).2 = l ++ seq (length ents) (length cfgs).
Proof.
  revert ents m l. induction cfgs as [|[u p] cfgs IH]; intros ents m l; simpl.
  - by rewrite !app_nil_r.
  - destruct (IH (ents ++ [new_entry u p]) (<[generateProviderId u:=length ents]> m)
                 (l ++ [length ents])) as [H1 H2].
    rewrite H1, H2, <- !app_assoc, length_app. simpl. by rewrite Nat.add_1_r.
Qed.

Lemma insert_by_priority_perm ents r rs : insert_by_priority ents r rs ≡ₚ r :: rs.
Proof.
  induction rs as [|r' rs IH]; simpl; [done|].
  case_match; [done|]. rewrite IH. by constructor.
Qed.

Lemma sort_by_priority_perm ents rs : sort_by_priority ents rs ≡ₚ rs.
Proof.
  induction rs as [|r rs IH]; simpl; [done|]. by rewrite insert_by_priority_perm, IH.
Qed.

Lemma omap_perm {A B} (f : A -> option B) l1 l2 : l1 ≡ₚ l2 -> omap f l1 ≡ₚ omap f l2.
Proof.
  induction 1; simpl; try done.
  - destruct (f x); [by constructor|done].
  - by destruct (f x), (f y); [constructor|..].
  - by etrans.
Qed.

Lemma omap_lookup_seq (pre l : list ProviderEntry) :
  omap (fun r => (pre ++ l) !! r) (seq (length pre) (length l)) = l.
Proof.
  revert pre. induction l as [|x l IH]; intros pre; simpl; [done|].
  rewrite lookup_app_r by lia. rewrite Nat.sub_diag. simpl. f_equal.
  specialize (IH (pre ++ [x])). rewrite <- app_assoc, length_app in IH. simpl in IH.
  by rewrite Nat.add_1_r in IH.
Qed.

Lemma new_ProviderPool_entries cfgs th cd p0 :
  new_ProviderPool cfgs th cd = Ok p0 ->
  list_entries p0 ≡ₚ (fun c => new_entry c.1 c.2) <$> cfgs.
Proof.
  unfold new_ProviderPool. destruct cfgs as [|c cs]; [discriminate|].
  destruct (add_configs_shape (c :: cs) [] ∅ []) as [H1 H2].
  destruct (add_configs (c :: cs) [] ∅ []) as [[ents m] l].
  cbn [fst snd] in H1, H2. rewrite app_nil_l in H1, H2. subst.
  intros H. injection H as <-. unfold list_entries. cbn [providerList entries].
  set (L := (fun c => new_entry c.1 c.2) <$> c :: cs).
  assert (E : omap (fun r => L !! r) (seq 0 (length (c :: cs))) = L).
  { pose proof (omap_lookup_seq [] L) as Hs. unfold L in Hs at 2. rewrite length_fmap in Hs. exact Hs. }
  transitivity (omap (fun r => L !! r) (seq 0 (length (c :: cs)))).
  - apply omap_perm, (sort_by_priority_perm L (seq 0 (length (c :: cs)))).
  - by rewrite E.
Qed.

Lemma StronglySorted_map {A B} (R : B -> B -> Prop) (f : A -> B) l :
  StronglySorted (fun a b => R (f a) (f b)) l -> StronglySorted R (map f l).
Proof.
  induction 1 as [|a l _ IH Ha]; simpl; [constructor|]. constructor; [exact IH|].
  apply Forall_map. exact Ha.
Qed.

Lemma pool_call_run_unmapped c p r :
  (forall id, providers p !! id <> Some r) -> entries (pool_call_run c p) !! r = entries p !! r.
Proof.
  intros Hr. destruct c as [now|now id|now id msg]; simpl.
  - unfold getProvider. repeat case_match; reflexivity.
  - unfold reportSuccess. destruct (providers p !! id) as [r'|] eqn:Hid; [|done].
    destruct (entries p !! r'); [|done]. simpl.
    rewrite list_lookup_insert_ne; [done|]. intros ->. by apply (Hr id).
  - unfold reportFailure. destruct (providers p !! id) as [r'|] eqn:Hid; [|done].
    destruct (entries p !! r'); [|done]. simpl.
    rewrite list_lookup_insert_ne; [done|]. intros ->. by apply (Hr id).
Qed.

Lemma run_calls_unmapped cs p r :
  (forall id, providers p !! id <> Some r) -> entries (run_calls cs p) !! r = entries p !! r.
Proof.
  revert p. induction cs as [|c cs IH]; intros p Hr; simpl; [done|].
  rewrite IH.
  - by apply pool_call_run_unmapped.
  - destruct (pool_call_run_frame c p) as [-> _]. exact Hr.
Qed.

Lemma add_configs_app cfgs1 cfgs2 ents m l :
  add_configs (cfgs1 ++ cfgs2) ents m l =
  (let '(ents', m', l') := add_configs cfgs1 ents m l in add_configs cfgs2 ents' m' l').
Proof.
  revert ents m l. induction cfgs1 as [|[u p] cfgs1 IH]; intros ents m l; simpl; [done|]. apply IH.
Qed.

Lemma add_configs_unmapped cfgs ents m l r :
  (r < length ents)%nat ->
  (forall j, m !! j = Some r -> exists c, c ∈ cfgs /\ generateProviderId c.1 = j) ->
  forall j, (add_configs cfgs ents m l).1.2 !! j <> Some r.
Proof.
  revert ents m l. induction cfgs as [|[u p] cfgs IH]; intros ents m l Hlt Hm j; simpl.
  - intros Hj. destruct (Hm j Hj) as (c & Hc & _). by apply not_elem_of_nil in Hc.
  - apply IH; [rewrite length_app; simpl; lia|]. intros j' Hj'.
    destruct (decide (j' = generateProviderId u)) as [->|Hne].
    + rewrite lookup_insert_eq in Hj'. injection Hj' as Hj'. lia.
    + rewrite lookup_insert_ne in Hj' by auto. destruct (Hm j' Hj') as (c & Hc & Hcj).
      apply elem_of_cons in Hc as [->|Hc]; [by simpl in Hcj; subst|]. eauto.
Qed.

Lemma add_configs_bound cfgs ents m l :
  (forall i r, m !! i = Some r -> (r < length ents)%nat) ->
  forall i r, (add_configs cfgs ents m l).1.2 !! i = Some r ->
    (r < length (add_configs cfgs ents m l).1.1)%nat.
Proof.
  revert ents m l. induction cfgs as [|[u p] cfgs IH]; intros ents m l Hlt; simpl; [exact Hlt|].
  apply IH. intros i r Hi. rewrite length_app. simpl.
  destruct (decide (i = generateProviderId u)) as [->|Hne].
  - rewrite lookup_insert_eq in Hi. injection Hi as <-. lia.
  - rewrite lookup_insert_ne in Hi by auto. apply Hlt in Hi. lia.
Qed.

Lemma new_ProviderPool_shape cfgs th cd p0 :
  new_ProviderPool cfgs th cd = Ok p0 ->
  entries p0 = (fun c => new_entry c.1 c.2) <$> cfgs /\
  providers p0 = (add_configs cfgs [] ∅ []).1.2 /\
  providerList p0 ≡ₚ seq 0 (length cfgs).
Proof.
  unfold new_ProviderPool. destruct cfgs as [|c cs]; [discriminate|].
  destruct (add_configs_shape (c :: cs) [] ∅ []) as [H1 H2].
  destruct (add_configs (c :: cs) [] ∅ []) as [[ents m] l] eqn:Ha.
  intros H. injection H as <-. cbn [entries providers providerList].
  cbn [fst snd] in H1, H2. rewrite app_nil_l in H1, H2.
  split; [exact H1|]. split; [done|]. rewrite sort_by_priority_perm, H2. done.
Qed.


End PoolMore.

Module FetcherMore.
Import Decoder Fetcher.

Section WithRpc.
Variable getLogs : list rpc_call -> string -> list string -> Z -> Z -> outcome (list RawLog).
Variable getBlock : list rpc_call -> Z -> outcome (option Z).
Variable parseLog : list string -> string -> outcome (option LogDescription).

Lemma fetch_loop_tiles fuel a tps toBlock cur c acc fs ls fs' :
  1 <= c ->
  fetch_loop getLogs fuel a tps toBlock (mkLoop cur c acc) fs = FReturns ls fs' ->
  exists new, calls fs' = calls fs ++ new /\
    tiles cur toBlock ((ok_windows getLogs a tps (calls fs) new).*1) /\
    allLogs ls = acc ++ concat ((ok_windows getLogs a tps (calls fs) new).*2).
Proof.
  revert cur c acc fs. induction fuel as [|fuel IH]; intros cur c acc fs Hc H; [discriminate|].
  simpl in H. unfold fetch_step in H. cbn [currentBlock chunkSize allLogs] in H.
  destruct (cur <=? toBlock) eqn:Hle.
  - apply Z.leb_le in Hle.
    set (re := Z.min (cur + c - 1) toBlock) in H.
    destruct (getLogs (calls fs) a tps cur re) as [logs|err] eqn:Hg.
    + apply IH in H as (new & Hcalls & Ht & Hl); [|done]. cbn [calls] in Hcalls.
      exists (CGetLogs cur re :: new). rewrite Hcalls, <- app_assoc. split; [done|].
      simpl. rewrite Hg. simpl. split; [split; [done|]; split; [lia|]; exact Ht|].
      rewrite Hl, app_assoc. done.
    + destruct (Fetcher.isBlockRangeError err) as [[|]|e]; [|discriminate|discriminate].
      apply IH in H as (new & Hcalls & Ht & Hl); [|lia]. cbn [calls fetcher] in Hcalls.
      exists (CGetLogs cur re :: new). rewrite Hcalls, <- app_assoc. split; [done|].
      simpl. rewrite Hg. simpl. split; [exact Ht|exact Hl].
  - injection H as <- <-. exists []. rewrite app_nil_r. simpl.
    split; [done|]. split; [lia|]. by rewrite app_nil_r.
Qed.

Lemma decode_logs_elem cache logs ev :
  ev ∈ decode_logs parseLog cache logs <->
  exists log parsed eventData ts, log ∈ logs /\
    parseLog (topics log) (data log) = Returns (Some parsed) /\
    serializeEventData (ld_args parsed) = Returns eventData /\
    cache !! log_blockNumber log = Some ts /\
    ev = mkDecodedEvent (address log) (log_blockNumber log) ts (log_transactionHash log)
           (index log) (ld_name parsed) eventData.
Proof.
  induction logs as [|log rest IH]; simpl.
  - split; [intros H; by apply not_elem_of_nil in H|].
    intros (? & ? & ? & ? & H & _). by apply not_elem_of_nil in H.
  - assert (Hrest : (exists log' parsed eventData ts, log' ∈ rest /\
              parseLog (topics log') (data log') = Returns (Some parsed) /\
              serializeEventData (ld_args parsed) = Returns eventData /\
              cache !! log_blockNumber log' = Some ts /\
              ev = mkDecodedEvent (address log') (log_blockNumber log') ts (log_transactionHash log')
                     (index log') (ld_name parsed) eventData) ->
            exists log' parsed eventData ts, log' ∈ log :: rest /\
              parseLog (topics log') (data log') = Returns (Some parsed) /\
              serializeEventData (ld_args parsed) = Returns eventData /\
              cache !! log_blockNumber log' = Some ts /\
              ev = mkDecodedEvent (address log') (log_blockNumber log') ts (log_transactionHash log')
                     (index log') (ld_name parsed) eventData).
    { intros (l' & p & d & t & Hin & Hrest). exists l', p, d, t. split; [by right|exact Hrest]. }
    unfold decode, decode_try.
    destruct (parseLog (topics log) (data log)) as [[parsed|]|e] eqn:Hp.
    + destruct (serializeEventData (ld_args parsed)) as [d|e] eqn:Hs.
      * simpl.
        destruct (cache !! log_blockNumber log) as [ts|] eqn:Hc.
        -- rewrite elem_of_cons, IH. split.
           ++ intros [->|Hr]; [|by apply Hrest]. exists log, parsed, d, ts. split; [left|]. auto.
           ++ intros (l' & p & d' & t & Hin & H1 & H2 & H3 & ->). apply elem_of_cons in Hin as [->|Hin].
              ** left. rewrite Hp in H1. injection H1 as <-. rewrite Hs in H2. injection H2 as <-.
                 rewrite Hc in H3. by injection H3 as <-.
              ** right. exists l', p, d', t. auto.
        -- rewrite IH. split; [apply Hrest|].
           intros (l' & p & d' & t & Hin & H1 & H2 & H3 & ->). apply elem_of_cons in Hin as [->|Hin].
           ++ congruence.
           ++ exists l', p, d', t. auto.
      * rewrite IH. split; [apply Hrest|].
        intros (l' & p & d' & t & Hin & H1 & H2 & H3 & ->). apply elem_of_cons in Hin as [->|Hin].
        -- rewrite Hp in H1. injection H1 as <-. congruence.
        -- exists l', p, d', t. auto.
    + rewrite IH. split; [apply Hrest|].
      intros (l' & p & d' & t & Hin & H1 & H2 & H3 & ->). apply elem_of_cons in Hin as [->|Hin].
      * congruence.
      * exists l', p, d', t. auto.
    + rewrite IH. split; [apply Hrest|].
      intros (l' & p & d' & t & Hin & H1 & H2 & H3 & ->). apply elem_of_cons in Hin as [->|Hin].
      * congruence.
      * exists l', p, d', t. auto.
Qed.

Lemma retry_getBlock_calls attempts n fs r fs1 :
  retry_getBlock getBlock attempts n fs = (r, fs1) ->
  exists k, (k <= attempts)%nat /\ calls fs1 = calls fs ++ repeat (CGetBlock n) k /\
    fetcher fs1 = fetcher fs.
Proof.
  revert fs. induction attempts as [|a IH]; intros fs H; simpl in H.
  - injection H as _ <-. exists 0%nat. rewrite app_nil_r. auto.
  - destruct (getBlock (calls fs) n) as [b|e].
    + injection H as _ <-. exists 1%nat. simpl. auto with lia.
    + assert (Hone : fs1 = mkFState (fetcher fs) (calls fs ++ [CGetBlock n]) ->
                     exists k, (k <= S a)%nat /\ calls fs1 = calls fs ++ repeat (CGetBlock n) k /\
                       fetcher fs1 = fetcher fs).
      { intros ->. exists 1%nat. simpl. auto with lia. }
      destruct e as [| | | | |[|] props ts]; try (injection H as _ <-; apply Hone; reflexivity).
      destruct a as [|a'].
      * injection H as _ <-. apply Hone. reflexivity.
      * apply IH in H as (k & Hk & Hc & Hf). cbn [calls fetcher] in Hc, Hf.
        exists (S k). split; [lia|]. split; [|exact Hf].
        rewrite Hc, <- app_assoc. reflexivity.
Qed.

Lemma getBlock_count_app n l1 l2 :
  getBlock_count n (l1 ++ l2) = (getBlock_count n l1 + getBlock_count n l2)%nat.
Proof. unfold getBlock_count. by rewrite filter_app, length_app. Qed.

Lemma getBlock_count_repeat n m k :
  getBlock_count n (repeat (CGetBlock m) k) = if bool_decide (n = m) then k else 0%nat.
Proof.
  unfold getBlock_count. induction k as [|k IH]; cbn [repeat]; [by case_bool_decide|].
  case_bool_decide as Hnm.
  - subst. rewrite filter_cons_True by done. cbn [length]. rewrite IH.
    done.
  - rewrite filter_cons_False by congruence. rewrite IH. done.
Qed.

Lemma getBlock_count_absent n new :
  Forall (fun c => exists m, c = CGetBlock m /\ m <> n) new -> getBlock_count n new = 0%nat.
Proof.
  unfold getBlock_count. induction 1 as [|c new (m & -> & Hm) _ IH]; [done|].
  rewrite filter_cons_False by congruence. exact IH.
Qed.

Lemma fetch_timestamps_calls ns fs r fs1 :
  NoDup ns ->
  fetch_timestamps getBlock ns fs = (r, fs1) ->
  exists new, calls fs1 = calls fs ++ new /\
    Forall (fun c => exists n, c = CGetBlock n /\ n ∈ ns) new /\
    forall n, (getBlock_count n new <= 4)%nat.
Proof.
  revert fs. induction ns as [|n0 rest IH]; intros fs Hnd H; cbn [fetch_timestamps] in H.
  - injection H as _ <-. exists []. rewrite app_nil_r. split; [done|]. split; [constructor|].
    intros n. unfold getBlock_count. simpl. lia.
  - apply NoDup_cons in Hnd as [Hn0 Hnd].
    destruct (retry_getBlock getBlock 4 n0 fs) as [r1 fs1'] eqn:Hr.
    destruct (retry_getBlock_calls _ _ _ _ _ Hr) as (k & Hk & Hc & Hf).
    assert (Hfirst : forall new', Forall (fun c => exists n, c = CGetBlock n /\ n ∈ rest) new' ->
              (forall n, (getBlock_count n new' <= 4)%nat) ->
              Forall (fun c => exists n, c = CGetBlock n /\ n ∈ n0 :: rest) (repeat (CGetBlock n0) k ++ new') /\
              forall n, (getBlock_count n (repeat (CGetBlock n0) k ++ new') <= 4)%nat).
    { intros new' Hall Hcnt. split.
      - apply Forall_app. split.
        + apply Forall_forall. intros c Hc'. apply list_elem_of_In, repeat_spec in Hc' as ->.
          exists n0. split; [done|]. left.
        + eapply Forall_impl; [exact Hall|]. intros c (m & -> & Hm). exists m. split; [done|]. by right.
      - intros n. rewrite getBlock_count_app, getBlock_count_repeat. case_bool_decide as Hnn.
        + subst n. rewrite getBlock_count_absent; [lia|].
          eapply Forall_impl; [exact Hall|]. intros c (m & -> & Hm). exists m. split; [done|].
          intros ->. contradiction.
        + specialize (Hcnt n). lia. }
    destruct r1 as [[ts|]|e].
    + apply IH in H as (new' & Hc' & Hall & Hcnt); [|exact Hnd]. cbn [calls] in Hc'.
      exists (repeat (CGetBlock n0) k ++ new'). rewrite Hc', Hc, <- app_assoc. split; [done|].
      by apply Hfirst.
    + apply IH in H as (new' & Hc' & Hall & Hcnt); [|exact Hnd].
      exists (repeat (CGetBlock n0) k ++ new'). rewrite Hc', Hc, <- app_assoc. split; [done|].
      by apply Hfirst.
    + injection H as _ <-. exists (repeat (CGetBlock n0) k ++ []). rewrite Hc. split; [by rewrite app_nil_r|].
      apply Hfirst; [constructor|]. intros n. unfold getBlock_count. simpl. lia.
Qed.

Lemma retry_getBlock_returns attempts n fs b fs1 :
  retry_getBlock getBlock attempts n fs = (Returns b, fs1) -> exists pre, getBlock pre n = Returns b.
Proof.
  revert fs. induction attempts as [|a IH]; intros fs H; simpl in H; [discriminate|].
  destruct (getBlock (calls fs) n) as [b'|e] eqn:Hg.
  - injection H as -> _. eauto.
  - destruct e as [| | | | |[|] props ts]; try discriminate.
    destruct a as [|a']; [discriminate|]. eapply IH. exact H.
Qed.

Lemma fetch_timestamps_cached ns fs u fs1 :
  (forall pre n, getBlock pre n <> Returns None) ->
  fetch_timestamps getBlock ns fs = (Returns u, fs1) ->
  (forall n, is_Some (blockTimestampCache (fetcher fs) !! n) -> is_Some (blockTimestampCache (fetcher fs1) !! n)) /\
  (forall n, n ∈ ns -> is_Some (blockTimestampCache (fetcher fs1) !! n)).
Proof.
  intros Hnn. revert fs. induction ns as [|n0 rest IH]; intros fs H; cbn [fetch_timestamps] in H.
  - injection H as _ <-. split; [done|]. intros n Hn. by apply not_elem_of_nil in Hn.
  - destruct (retry_getBlock getBlock 4 n0 fs) as [r1 fs1'] eqn:Hr.
    destruct (retry_getBlock_calls _ _ _ _ _ Hr) as (_ & _ & _ & Hf).
    destruct r1 as [[ts|]|e]; [|exfalso|discriminate].
    + apply IH in H as [Hmono Hall]. cbn [fetcher set_timestamp blockTimestampCache] in Hmono.
      split.
      * intros n Hn. apply Hmono. rewrite Hf. destruct (decide (n = n0)) as [->|Hne].
        -- rewrite lookup_insert_eq. eauto.
        -- by rewrite lookup_insert_ne by congruence.
      * intros n Hn. apply elem_of_cons in Hn as [->|Hn]; [|by apply Hall].
        apply Hmono. rewrite lookup_insert_eq. eauto.
    + apply retry_getBlock_returns in Hr as [pre Hpre]. exact (Hnn pre n0 Hpre).
Qed.

Lemma ok_windows_app getLogs' a tps pre l1 l2 :
  ok_windows getLogs' a tps pre (l1 ++ l2) =
  ok_windows getLogs' a tps pre l1 ++ ok_windows getLogs' a tps (pre ++ l1) l2.
Proof.
  revert pre. induction l1 as [|c l1 IH]; intros pre; simpl; [by rewrite app_nil_r|].
  destruct c as [f t|n]; rewrite IH, <- app_assoc; [by rewrite app_assoc|done].
Qed.

Lemma ok_windows_getBlocks getLogs' a tps pre l :
  Forall (fun c => exists n, c = CGetBlock n /\ True) l -> ok_windows getLogs' a tps pre l = [].
Proof.
  intros H. revert pre. induction H as [|c l (n & -> & _) _ IH]; intros pre; simpl; [done|]. apply IH.
Qed.

End WithRpc.

Lemma dedup_go_elem xs seen n : n ∈ dedup_go xs seen <-> n ∈ xs /\ n ∉ seen.
Proof.
  revert seen. induction xs as [|x xs IH]; intros seen; simpl.
  - split; [intros H; by apply not_elem_of_nil in H|]. intros [H _]. by apply not_elem_of_nil in H.
  - case_bool_decide as Hx.
    + rewrite IH, elem_of_cons. split; [intros [? ?]; auto|].
      intros [[->|?] ?]; [contradiction|auto].
    + rewrite elem_of_cons, IH, elem_of_cons, elem_of_cons. split.
      * intros [->|[? ?]]; [auto|]. split; [auto|]. intros ?. auto.
      * intros [[->|Hin] Hs]; [auto|]. destruct (decide (n = x)) as [->|Hne]; [auto|].
        right. split; [done|]. intros [->|?]; auto.
Qed.

Lemma dedup_go_NoDup xs seen : NoDup (dedup_go xs seen).
Proof.
  revert seen. induction xs as [|x xs IH]; intros seen; simpl; [constructor|].
  case_bool_decide; [apply IH|]. constructor; [|apply IH].
  rewrite dedup_go_elem, elem_of_cons. intros [_ Hn]. auto.
Qed.

End FetcherMore.

Import FetcherMore.

Lemma enrich_calls getBlock parseLog logs fs r fs1 :
  Fetcher.enrichWithTimestamps getBlock parseLog logs fs = (r, fs1) ->
  exists new, Fetcher.calls fs1 = Fetcher.calls fs ++ new /\
    Forall (fun c => exists n, c = Fetcher.CGetBlock n /\ n ∈ Decoder.log_blockNumber <$> logs /\
                       Fetcher.blockTimestampCache (Fetcher.fetcher fs) !! n = None) new /\
    forall n, (Fetcher.getBlock_count n new <= 4)%nat.
Proof.
  unfold Fetcher.enrichWithTimestamps. destruct logs as [|l0 ls'] eqn:Hl.
  - intros H. injection H as _ <-. exists []. rewrite app_nil_r. split; [done|]. split; [constructor|].
    intros n. unfold Fetcher.getBlock_count. simpl. lia.
  - rewrite <- Hl. set (unc := filter _ _).
    assert (Hnd : NoDup unc) by apply NoDup_filter, dedup_go_NoDup.
    destruct (Fetcher.fetch_timestamps getBlock unc fs) as [r1 fs1'] eqn:Hf.
    destruct (fetch_timestamps_calls _ _ _ _ _ Hnd Hf) as (new & Hc & Hall & Hcnt).
    intros H. assert (fs1 = fs1') as -> by (destruct r1; injection H as _ <-; done).
    exists new. split; [done|]. split; [|done].
    eapply Forall_impl; [exact Hall|]. intros c (n & -> & Hn). exists n. split; [done|].
    unfold unc in Hn. apply list_elem_of_filter in Hn as [Hn Hu].
    unfold Fetcher.unique in Hu. apply dedup_go_elem in Hu as [Hu _].
    rewrite list_map_fmap in Hu. auto.
Qed.

Lemma enrich_events getBlock parseLog logs fs evs fs1 :
  Fetcher.enrichWithTimestamps getBlock parseLog logs fs = (Decoder.Returns evs, fs1) ->
  evs = Fetcher.decode_logs parseLog (Fetcher.blockTimestampCache (Fetcher.fetcher fs1)) logs.
Proof.
  unfold Fetcher.enrichWithTimestamps. destruct logs as [|l0 ls'].
  - intros H. by injection H as <- _.
  - destruct (Fetcher.fetch_timestamps _ _ _) as [[u|e] fs1'].
    + intros H. by injection H as <- <-.
    + discriminate.
Qed.

Module IndexerMore.
Import JS Decoder Fetcher Indexer.

Lemma updateSync_err_store fault addr chain blk evs now s m s' :
  Storage.updateSyncStateAndInsertEvents fault addr chain blk evs now s = (Err m, s') -> s' = s.
Proof.
  unfold Storage.updateSyncStateAndInsertEvents.
  destruct (negb (Storage.db_open s)); [congruence|].
  destruct (Storage.transaction _ _) as [[? ?]|?]; congruence.
Qed.

Section WithEnv.
Variable fault : nat -> bool.
Variable now : Z.
Variable getLogsP : string -> list rpc_call -> string -> list string -> Z -> Z -> outcome (list RawLog).
Variable getBlockP : string -> list rpc_call -> Z -> outcome (option Z).
Variable getBlockNumberP : string -> list rpc_call -> outcome Z.
Variable getABI : string -> Z -> option string -> outcome unit.
Variable getEvent : string -> option string.
Variable parseLog : list string -> string -> outcome (option LogDescription).

(** [indexBlocks] writes the database only through one successful
    [updateSyncStateAndInsertEvents] for [toBlock]. *)
Lemma indexBlocks_store fuel chain opts cfg fb tb w :
  match indexBlocks fault now getLogsP getBlockP getABI getEvent parseLog fuel chain opts cfg fb tb w with
  | IOk w' => exists evs, Storage.updateSyncStateAndInsertEvents fault (toLowerCase (c_address cfg))
                (getChainId chain) tb evs now (w_store w) = (Ok tt, w_store w')
  | IThrows _ w' | IOutOfFuel w' => w_store w' = w_store w
  end.
Proof.
  unfold indexBlocks. cbv zeta.
  destruct (Pool.getProvider now (w_pool w)) as [[prov|m] p1]; [|reflexivity].
  destruct (getABI _ _ _) as [u|e].
  - destruct (fetchEvents _ _ _ _ _ _ _ _ _ _) as [evs fs1|e fs1|fs1].
    + destruct (Pool.reportSuccess _ _ _) as [[u'|m] p2].
      * destruct (Storage.updateSyncStateAndInsertEvents _ _ _ _ _ _ _) as [[u0|m] s] eqn:Hu.
        -- destruct u0. exists evs. exact Hu.
        -- apply updateSync_err_store in Hu. subst s.
           destruct (Pool.reportFailure _ _ _ _) as [[]  p3]; reflexivity.
      * destruct (Pool.reportFailure _ _ _ _) as [[] p3]; reflexivity.
    + destruct (Pool.reportFailure _ _ _ _) as [[] p3]; reflexivity.
    + reflexivity.
  - destruct (Pool.reportFailure _ _ _ _) as [[] p3]; reflexivity.
Qed.

End WithEnv.
End IndexerMore.
Module PoolMore2.
Import Pool.

Lemma toInt32_range z : -2^31 <= toInt32 z < 2^31.
Proof.
  unfold toInt32. cbv zeta. pose proof (Z.mod_pos_bound z (2^32) ltac:(lia)).
  destruct (2^31 <=? z mod 2^32) eqn:E; [apply Z.leb_le in E|apply Z.leb_gt in E]; lia.
Qed.

Lemma hash_go_range s h : -2^31 <= h < 2^31 -> -2^31 <= hash_go s h < 2^31.
Proof.
  revert h. induction s as [|c s IH]; intros h Hh; simpl; [exact Hh|].
  apply IH, toInt32_range.
Qed.

Lemma add_configs_lookup_none cfgs ents m l id :
  m !! id = None -> Forall (fun c => generateProviderId c.1 <> id) cfgs ->
  (add_configs cfgs ents m l).1.2 !! id = None.
Proof.
  revert ents m l. induction cfgs as [|[u p] cfgs IH]; intros ents m l Hm Hf; simpl; [exact Hm|].
  apply Forall_cons in Hf as [Hu Hf]. apply IH; [|exact Hf].
  rewrite lookup_insert_ne by exact Hu. exact Hm.
Qed.

End PoolMore2.
Import StorageMore.
Import Storage (no_fault, key_of, addr_filter).
Import IndexerMore PoolMore2.

(** X1. After [close], [close] succeeds again and does nothing, and every other operation fails with the not-open message and leaves the database as it is. *)
Theorem close_then_every_call_fails fault evs now addr chain blk f s :
  let s' := (Storage.close s).2 in
  (Storage.close s).1 = Ok tt /\
  Storage.db_open s' = false /\ Storage.sync_state s' = Storage.sync_state s /\
  Storage.events s' = Storage.events s /\
  Storage.insertEvents fault evs now s' = (Err Storage.not_open_msg, s') /\
  Storage.updateSyncStateAndInsertEvents fault addr chain blk evs now s' = (Err Storage.not_open_msg, s') /\
  Storage.getLastSyncedBlock addr s' = Err Storage.not_open_msg /\
  Storage.queryEvents f s' = Err Storage.not_open_msg /\
  Storage.close s' = (Ok tt, s').
Proof.
  unfold Storage.close. destruct (Storage.db_open s) eqn:Hdb; simpl;
    unfold Storage.insertEvents, Storage.updateSyncStateAndInsertEvents,
      Storage.getLastSyncedBlock, Storage.queryEvents; simpl; rewrite ?Hdb; simpl;
    repeat split; auto.
Qed.

(** X2. [insertEvents] either commits the whole batch or, on a failure, returns the error with the stored events and sync state unchanged. *)
Theorem insertEvents_all_or_nothing fault evs now s :
  Storage.insertEvents fault evs now s = Storage.insertEvents no_fault evs now s \/
  exists m, Storage.insertEvents fault evs now s = (Err m, s).
Proof.
  unfold Storage.insertEvents. destruct (negb (Storage.db_open s)); [by left|].
  destruct evs as [|e rest]; [by left|].
  unfold Storage.transaction.
  destruct (Storage.insert_loop fault (e :: rest) now 0 O s) as [[[n k] s']|m] eqn:H.
  - left. by rewrite (insert_loop_no_fault _ _ _ _ _ _ _ H).
  - right. eauto.
Qed.

(** X3. Inserting events or updating the sync state keeps the (transaction hash, log index) keys of the stored events distinct, and only appends to the stored events. *)
Theorem storage_keys_unique_append_only fault evs now addr chain blk s :
  NoDup (Storage.row_key <$> Storage.events s) ->
  let s1 := (Storage.insertEvents fault evs now s).2 in
  let s2 := (Storage.updateSyncStateAndInsertEvents fault addr chain blk evs now s).2 in
  NoDup (Storage.row_key <$> Storage.events s1) /\ Storage.events s `prefix_of` Storage.events s1 /\
  NoDup (Storage.row_key <$> Storage.events s2) /\ Storage.events s `prefix_of` Storage.events s2.
Proof.
  intros Hnd s1 s2. subst s1 s2. split; [|split; [|split]].
  - unfold Storage.insertEvents. destruct (negb _); [done|]. destruct evs; [done|].
    unfold Storage.transaction. destruct (Storage.insert_loop _ _ _ _ _ _) as [[[n k] s']|m] eqn:H; [|done].
    simpl. by apply (insert_loop_nodup _ _ _ _ _ _ _ _ _ Hnd H).
  - unfold Storage.insertEvents. destruct (negb _); [done|]. destruct evs; [done|].
    unfold Storage.transaction. destruct (Storage.insert_loop _ _ _ _ _ _) as [[[n k] s']|m] eqn:H; [|done].
    simpl. by apply (insert_loop_nodup _ _ _ _ _ _ _ _ _ Hnd H).
  - unfold Storage.updateSyncStateAndInsertEvents. destruct (negb _); [done|].
    unfold Storage.transaction, Storage.sql_bind.
    destruct (Storage.stmt_run fault (Storage.upsert_sync addr chain blk now) O s) as [[[u k1] s1]|m] eqn:Hs; [|done].
    apply stmt_run_ok in Hs as [_ Hs]. injection Hs as _ -> ->.
    destruct evs as [|e rest]; [done|].
    destruct (Storage.commit_loop _ _ _ _ _) as [[[v k2] s3]|m] eqn:Hc; [|done].
    simpl. apply ((fun H => commit_loop_nodup _ _ _ _ _ _ H Hc) Hnd).
  - unfold Storage.updateSyncStateAndInsertEvents. destruct (negb _); [done|].
    unfold Storage.transaction, Storage.sql_bind.
    destruct (Storage.stmt_run fault (Storage.upsert_sync addr chain blk now) O s) as [[[u k1] s1]|m] eqn:Hs; [|done].
    apply stmt_run_ok in Hs as [_ Hs]. injection Hs as _ -> ->.
    destruct evs as [|e rest]; [done|].
    destruct (Storage.commit_loop _ _ _ _ _) as [[[v k2] s3]|m] eqn:Hc; [|done].
    simpl. apply ((fun H => commit_loop_nodup _ _ _ _ _ _ H Hc) Hnd).
Qed.

(** X4. Inserting events with fresh, distinct keys into an open database without faults adds one row per event, and an unfiltered query then returns every one of them. *)
Theorem insertEvents_query_roundtrip fault evs now s n s' :
  Storage.db_open s = true ->
  NoDup ((Storage.row_key <$> Storage.events s) ++ (Storage.event_key <$> evs)) ->
  Storage.insertEvents fault evs now s = (Ok n, s') ->
  n = Z.of_nat (length evs) /\
  exists evs', Storage.queryEvents Storage.no_filter s' = Ok evs' /\
    evs' ≡ₚ (Storage.row_to_event <$> Storage.events s) ++ evs.
Proof.
  intros Hdb Hnd H. unfold Storage.insertEvents in H. rewrite Hdb in H. simpl in H.
  assert (Hq : forall s0, Storage.db_open s0 = true ->
             Storage.queryEvents Storage.no_filter s0 =
             Ok (map Storage.row_to_event (Storage.sort_rows (Storage.events s0)))).
  { intros s0 Hdb0. unfold Storage.queryEvents. rewrite Hdb0. simpl.
    by rewrite filter_no_filter. }
  destruct evs as [|e rest].
  - injection H as <- <-. split; [reflexivity|]. eexists. split; [by apply Hq|].
    rewrite app_nil_r. rewrite list_map_fmap. by rewrite sort_rows_perm.
  - unfold Storage.transaction in H.
    destruct (Storage.insert_loop _ _ _ _ _ _) as [[[n' k] s1]|m] eqn:Hl; [|discriminate].
    injection H as <- <-.
    destruct (insert_loop_fresh _ _ _ _ _ _ _ _ _ Hnd Hl) as (Hn & Hdb1 & Hev).
    split; [lia|]. eexists. split; [apply Hq; congruence|].
    rewrite list_map_fmap, sort_rows_perm. by rewrite Hev.
Qed.




(** X8. After a successful [updateSyncStateAndInsertEvents], [getLastSyncedBlock] of the address gives the new block, other addresses are unchanged, and an existing row keeps its chain and status while a new row gets the given chain and status "active". *)
Theorem updateSync_lookup fault addr chain blk evs now s s' :
  Storage.updateSyncStateAndInsertEvents fault addr chain blk evs now s = (Ok tt, s') ->
  Storage.getLastSyncedBlock addr s' = Ok (Some blk) /\
  (forall a, a <> addr -> Storage.getLastSyncedBlock a s' = Storage.getLastSyncedBlock a s) /\
  (forall r, Storage.sync_state s !! addr = Some r ->
     exists r', Storage.sync_state s' !! addr = Some r' /\
       Storage.chain_id r' = Storage.chain_id r /\ Storage.status r' = Storage.status r /\
       Storage.last_sync r' = now) /\
  (Storage.sync_state s !! addr = None ->
     exists r', Storage.sync_state s' !! addr = Some r' /\
       Storage.chain_id r' = chain /\ Storage.status r' = "active" /\ Storage.last_sync r' = now).
Proof. apply updateSync_ok_lookup. Qed.


Import JSMore.

(** X9. The timeout and rate-limit tests give the same answer on a string and on its lower-cased form. *)
Theorem timeout_rate_limit_case_insensitive s :
  JS.isTimeoutError (JS.VStr (JS.toLowerCase s)) = JS.isTimeoutError (JS.VStr s) /\
  JS.isRateLimitError (JS.VStr (JS.toLowerCase s)) = JS.isRateLimitError (JS.VStr s).
Proof. simpl. by rewrite toLowerCase_idem. Qed.

(** X10. A numeric [code] property never makes [isTimeoutError] true: the answer is the same as with no code. *)
Theorem timeout_numeric_code_ignored is_err props ts z :
  JS.get_prop is_err props "code" = Some (JS.VNum z) ->
  JS.isTimeoutError (JS.VObj is_err props ts) =
  JS.isTimeoutError (JS.VObj is_err (("code", JS.VUndefined) :: props) ts).
Proof.
  intros Hc. unfold JS.isTimeoutError. rewrite Hc. simpl (JS.code_string _).
  cbv beta iota. rewrite numeric_code_no_match.
  unfold JS.has_prop, JS.get_prop. simpl. done.
Qed.

Lemma timeout_numeric_code_ignored_witness :
  JS.get_prop false [("code", JS.VNum (-32005)); ("message", JS.VStr "ETIMEDOUT")] "code" = Some (JS.VNum (-32005)) /\
  JS.isTimeoutError (JS.VObj false [("code", JS.VNum (-32005)); ("message", JS.VStr "ETIMEDOUT")] (JS.TSReturns (JS.VStr "[object Object]"))) =
  JS.isTimeoutError (JS.VObj false (("code", JS.VUndefined) :: [("code", JS.VNum (-32005)); ("message", JS.VStr "ETIMEDOUT")]) (JS.TSReturns (JS.VStr "[object Object]"))).
Proof. split; [reflexivity|]. apply (timeout_numeric_code_ignored _ _ _ (-32005)). reflexivity. Defined.


Import PoolMore.

(** X11. When some provider is healthy, [getProvider] returns a healthy provider of the pool and only advances the round-robin index. *)
Theorem getProvider_some_healthy_entry now p e0 :
  e0 ∈ Pool.list_entries p -> Pool.healthy e0 = true ->
  exists e, Pool.getProvider now p =
    (Ok (Pool.to_info e), Pool.mkPool (Pool.entries p) (Pool.providers p) (Pool.providerList p)
                            (Pool.failureThreshold p) (Pool.cooldownPeriod p) (Pool.roundRobinIndex p + 1)) /\
    e ∈ Pool.list_entries p /\ Pool.healthy e = true.
Proof. apply getProvider_some_healthy. Qed.

Lemma getProvider_some_healthy_entry_witness :
  Pool.new_entry "http://localhost:8545" 1 ∈ Pool.list_entries Scenario.local_pool /\
  Pool.healthy (Pool.new_entry "http://localhost:8545" 1) = true /\
  exists e, Pool.getProvider 0 Scenario.local_pool =
    (Ok (Pool.to_info e), Pool.mkPool (Pool.entries Scenario.local_pool) (Pool.providers Scenario.local_pool)
       (Pool.providerList Scenario.local_pool) (Pool.failureThreshold Scenario.local_pool)
       (Pool.cooldownPeriod Scenario.local_pool) (Pool.roundRobinIndex Scenario.local_pool + 1)) /\
    e ∈ Pool.list_entries Scenario.local_pool /\ Pool.healthy e = true.
Proof.
  assert (H : Pool.new_entry "http://localhost:8545" 1 ∈ Pool.list_entries Scenario.local_pool)
    by (vm_compute; left).
  split; [exact H|]. split; [reflexivity|].
  exact (getProvider_some_healthy_entry 0 Scenario.local_pool _ H eq_refl).
Defined.

(** X12. When no provider is healthy, [getProvider] returns the lowest-priority provider past its cooldown, or fails with "No healthy providers available", and leaves the pool unchanged. *)
Theorem getProvider_no_healthy cfgs th cd p0 cs now :
  Pool.new_ProviderPool cfgs th cd = Ok p0 ->
  Forall (fun e => Pool.healthy e = false) (Pool.list_entries (Pool.run_calls cs p0)) ->
  let p := Pool.run_calls cs p0 in
  match last (filter (fun e => Pool.cooled_down now (Pool.cooldownPeriod p) e = true) (Pool.list_entries p)) with
  | Some e =>
      Pool.getProvider now p = (Ok (Pool.to_info e), p) /\
      forall e', e' ∈ Pool.list_entries p -> Pool.cooled_down now (Pool.cooldownPeriod p) e' = true ->
        Pool.priority e <= Pool.priority e'
  | None => Pool.getProvider now p = (Err "No healthy providers available", p)
  end.
Proof.
  intros Hnew Hall p. unfold Pool.getProvider. fold p in Hall |- *.
  rewrite filter_healthy_nil by exact Hall. rewrite best_unhealthy_last.
  pose proof (list_entries_sorted _ _ _ _ cs Hnew) as Hs. fold p in Hs.
  destruct (last _) as [e|] eqn:Hl; [|done]. split; [done|].
  intros e' He' Hc. eapply sorted_last_min; [apply (filter_sorted (fun e => Pool.cooled_down now (Pool.cooldownPeriod p) e = true)), Hs| exact Hl|].
  by apply list_elem_of_filter.
Qed.

Lemma getProvider_no_healthy_witness :
  Pool.new_ProviderPool [("http://localhost:8545", 1)] None None = Ok Scenario.local_pool /\
  Forall (fun e => Pool.healthy e = false)
    (Pool.list_entries (Pool.run_calls Scenario.three_failures Scenario.local_pool)) /\
  let p := Pool.run_calls Scenario.three_failures Scenario.local_pool in
  match last (filter (fun e => Pool.cooled_down 30003 (Pool.cooldownPeriod p) e = true) (Pool.list_entries p)) with
  | Some e =>
      Pool.getProvider 30003 p = (Ok (Pool.to_info e), p) /\
      forall e', e' ∈ Pool.list_entries p -> Pool.cooled_down 30003 (Pool.cooldownPeriod p) e' = true ->
        Pool.priority e <= Pool.priority e'
  | None => Pool.getProvider 30003 p = (Err "No healthy providers available", p)
  end.
Proof.
  assert (H1 : Pool.new_ProviderPool [("http://localhost:8545", 1)] None None = Ok Scenario.local_pool)
    by reflexivity.
  assert (H2 : Forall (fun e => Pool.healthy e = false)
                 (Pool.list_entries (Pool.run_calls Scenario.three_failures Scenario.local_pool)))
    by (vm_compute; repeat constructor).
  split; [exact H1|]. split; [exact H2|].
  exact (getProvider_no_healthy _ _ _ _ Scenario.three_failures 30003 H1 H2).
Defined.

(** X13. Right after construction, [getHealthStatus] lists one healthy entry per configuration, with no failures, ordered by priority descending. *)
Theorem health_status_after_construction cfgs th cd p0 :
  Pool.new_ProviderPool cfgs th cd = Ok p0 ->
  ((fun h => (Pool.h_url h, Pool.h_priority h)) <$> Pool.getHealthStatus p0) ≡ₚ cfgs /\
  Forall (fun h => Pool.h_id h = Pool.generateProviderId (Pool.h_url h) /\ Pool.h_healthy h = true /\
                   Pool.h_consecutiveFailures h = 0 /\ Pool.h_lastFailure h = None /\
                   Pool.h_lastSuccess h = None /\ Pool.h_lastError h = None)
    (Pool.getHealthStatus p0) /\
  StronglySorted (fun a b => Pool.h_priority b <= Pool.h_priority a) (Pool.getHealthStatus p0).
Proof.
  intros Hnew. pose proof (new_ProviderPool_entries _ _ _ _ Hnew) as Hp.
  unfold Pool.getHealthStatus. split; [|split].
    rewrite (list_map_fmap _ (Pool.list_entries p0)), <- list_fmap_compose, Hp, <- list_fmap_compose.
    clear. induction cfgs as [|[u p] cfgs IH]; simpl; [done|]. by rewrite IH.
  - rewrite (list_map_fmap _ (Pool.list_entries p0)), Forall_fmap, Forall_forall. intros e He. rewrite Hp in He.
    apply list_elem_of_fmap in He as ([u p] & -> & _). simpl. auto 10.
  - apply StronglySorted_map. simpl. exact (list_entries_sorted _ _ _ _ [] Hnew).
Qed.

Lemma health_status_after_construction_witness :
  Pool.new_ProviderPool Scenario.two_cfgs None None = Ok (Scenario.pool_of Scenario.two_cfgs) /\
  ((fun h => (Pool.h_url h, Pool.h_priority h)) <$> Pool.getHealthStatus (Scenario.pool_of Scenario.two_cfgs))
    ≡ₚ Scenario.two_cfgs /\
  Forall (fun h => Pool.h_id h = Pool.generateProviderId (Pool.h_url h) /\ Pool.h_healthy h = true /\
                   Pool.h_consecutiveFailures h = 0 /\ Pool.h_lastFailure h = None /\
                   Pool.h_lastSuccess h = None /\ Pool.h_lastError h = None)
    (Pool.getHealthStatus (Scenario.pool_of Scenario.two_cfgs)) /\
  StronglySorted (fun a b => Pool.h_priority b <= Pool.h_priority a)
    (Pool.getHealthStatus (Scenario.pool_of Scenario.two_cfgs)).
Proof.
  assert (H : Pool.new_ProviderPool Scenario.two_cfgs None None = Ok (Scenario.pool_of Scenario.two_cfgs))
    by reflexivity.
  split; [exact H|]. exact (health_status_after_construction _ _ _ _ H).
Defined.

(** X14. When two configured URLs have the same provider id, the entry of the first stays in the provider list exactly as it was created, whatever is reported afterwards. *)
Theorem duplicate_id_entry_frozen pre u1 p1 mid u2 p2 post th cd p0 cs :
  Pool.generateProviderId u1 = Pool.generateProviderId u2 ->
  Pool.new_ProviderPool (pre ++ (u1, p1) :: mid ++ (u2, p2) :: post) th cd = Ok p0 ->
  (Pool.entries (Pool.run_calls cs p0) !! length pre = Some (Pool.new_entry u1 p1)) /\
  (Pool.new_entry u1 p1 ∈ Pool.list_entries (Pool.run_calls cs p0)).
Proof.
  intros Hid Hnew.
  set (cfgs := pre ++ (u1, p1) :: mid ++ (u2, p2) :: post) in Hnew.
  destruct (new_ProviderPool_shape _ _ _ _ Hnew) as (Hents & Hprov & Hlist).
  assert (Hunm : forall id, Pool.providers p0 !! id <> Some (length pre)).
  { rewrite Hprov. subst cfgs.
    replace (pre ++ (u1, p1) :: mid ++ (u2, p2) :: post)
      with ((pre ++ [(u1, p1)]) ++ mid ++ (u2, p2) :: post) by (by rewrite <- app_assoc).
    rewrite add_configs_app, add_configs_app.
    pose proof (add_configs_bound pre [] ∅ [] ltac:(intros i r Hi; by rewrite lookup_empty in Hi)) as Hb.
    destruct (add_configs_shape pre [] ∅ []) as [Hs1 _].
    destruct (Pool.add_configs pre [] ∅ []) as [[e1 m1] l1]. cbn [fst snd] in Hb, Hs1.
    rewrite app_nil_l in Hs1. cbn [Pool.add_configs].
    intros id. apply add_configs_unmapped.
    - rewrite length_app, Hs1, length_fmap. simpl. lia.
    - intros j Hj. exists (u2, p2). split; [apply elem_of_app; right; left|].
      destruct (decide (j = Pool.generateProviderId u1)) as [->|Hne]; [done|].
      rewrite lookup_insert_ne in Hj by auto. apply Hb in Hj. rewrite Hs1, length_fmap in Hj.
      lia. }
  assert (Hp0 : (Pool.entries p0 !! length pre = Some (Pool.new_entry u1 p1)) /\
                (length pre ∈ Pool.providerList p0)).
  { split.
    - rewrite Hents. subst cfgs. rewrite list_lookup_fmap, lookup_app_r, Nat.sub_diag by lia. reflexivity.
    - rewrite Hlist, elem_of_seq. subst cfgs. rewrite length_app. simpl. lia. }
  destruct Hp0 as [He Hl].
  assert (Hr : Pool.entries (Pool.run_calls cs p0) !! length pre = Some (Pool.new_entry u1 p1))
    by (rewrite run_calls_unmapped; auto).
  split; [exact Hr|].
  unfold Pool.list_entries. rewrite (proj1 (run_calls_priorities cs p0)).
  apply list_elem_of_omap. eauto.
Qed.

Lemma duplicate_id_entry_frozen_witness :
  Pool.generateProviderId "http://a.example" = Pool.generateProviderId "http://a.example" /\
  Pool.new_ProviderPool ([] ++ ("http://a.example", 1) :: [] ++ ("http://a.example", 2) :: []) None None =
    Ok (Scenario.pool_of [("http://a.example", 1); ("http://a.example", 2)]) /\
  let cs := [Pool.PReportFailure 1 (Pool.generateProviderId "http://a.example") "timeout";
             Pool.PReportFailure 2 (Pool.generateProviderId "http://a.example") "timeout";
             Pool.PReportFailure 3 (Pool.generateProviderId "http://a.example") "timeout"] in
  let p := Pool.run_calls cs (Scenario.pool_of [("http://a.example", 1); ("http://a.example", 2)]) in
  Pool.entries p !! length (@nil (string * Z)) = Some (Pool.new_entry "http://a.example" 1) /\
  Pool.new_entry "http://a.example" 1 ∈ Pool.list_entries p.
Proof.
  assert (H : Pool.new_ProviderPool ([] ++ ("http://a.example", 1) :: [] ++ ("http://a.example", 2) :: []) None None =
    Ok (Scenario.pool_of [("http://a.example", 1); ("http://a.example", 2)])) by reflexivity.
  split; [reflexivity|]. split; [exact H|].
  exact (duplicate_id_entry_frozen [] "http://a.example" 1 [] "http://a.example" 2 [] None None _ _ eq_refl H).
Defined.






(** X15. The windows [fetchEvents] queries tile the block range, and its events are the decoding of the concatenated logs of those windows. *)
Theorem fetchEvents_windows_tile getLogs getBlock getEvent parseLog fuel a names fromBlock toBlock fs evs fs2 :
  1 <= Fetcher.cached_chunk (Fetcher.fetcher fs) ->
  Fetcher.fetchEvents getLogs getBlock getEvent parseLog fuel a names fromBlock toBlock fs = Fetcher.FReturns evs fs2 ->
  exists tps new,
    Fetcher.topic_hashes getEvent names = Decoder.Returns tps /\
    Fetcher.calls fs2 = Fetcher.calls fs ++ new /\
    Fetcher.tiles fromBlock toBlock ((Fetcher.ok_windows getLogs a tps (Fetcher.calls fs) new).*1) /\
    evs = Fetcher.decode_logs parseLog (Fetcher.blockTimestampCache (Fetcher.fetcher fs2))
            (concat ((Fetcher.ok_windows getLogs a tps (Fetcher.calls fs) new).*2)).
Proof.
  intros Hc. unfold Fetcher.fetchEvents.
  destruct (Fetcher.topic_hashes getEvent names) as [tps|e]; [|discriminate].
  destruct (Fetcher.fetch_loop _ _ _ _ _ _ _) as [ls fs1|e fs1|fs1] eqn:Hl; [|discriminate|discriminate].
  destruct (fetch_loop_tiles _ _ _ _ _ _ _ _ _ _ _ Hc Hl) as (new1 & Hc1 & Ht & Hlogs).
  destruct (Fetcher.enrichWithTimestamps getBlock parseLog (Fetcher.allLogs ls) fs1) as [[evs'|e] fs2'] eqn:He;
    [|discriminate].
  intros H. injection H as <- <-.
  destruct (enrich_calls _ _ _ _ _ _ He) as (new2 & Hc2 & Hall & _).
  exists tps, (new1 ++ new2). split; [done|].
  rewrite Hc2, Hc1, app_assoc. split; [done|].
  rewrite ok_windows_app, (ok_windows_getBlocks _ _ _ _ new2), app_nil_r.
  - split; [exact Ht|]. rewrite (enrich_events _ _ _ _ _ _ He), Hlogs. done.
  - eapply Forall_impl; [exact Hall|]. intros c (n & -> & _). eauto.
Qed.

Lemma fetchEvents_windows_tile_witness :
  1 <= Fetcher.cached_chunk (Fetcher.fetcher (Fetcher.mkFState (Fetcher.new_EventFetcher "p" 2000) [])) /\
  Fetcher.fetchEvents (Scenario.empty_getLogsP "p") (Scenario.some_getBlockP "p") Scenario.transfer_getEvent
    Scenario.no_parseLog 10 "0xabc" ["Transfer"] 0 4999
    (Fetcher.mkFState (Fetcher.new_EventFetcher "p" 2000) []) =
  Fetcher.FReturns [] (Fetcher.mkFState (Fetcher.new_EventFetcher "p" 2000)
                        [Fetcher.CGetLogs 0 1999; Fetcher.CGetLogs 2000 3999; Fetcher.CGetLogs 4000 4999]) /\
  exists tps new,
    Fetcher.topic_hashes Scenario.transfer_getEvent ["Transfer"] = Decoder.Returns tps /\
    Fetcher.calls (Fetcher.mkFState (Fetcher.new_EventFetcher "p" 2000)
                     [Fetcher.CGetLogs 0 1999; Fetcher.CGetLogs 2000 3999; Fetcher.CGetLogs 4000 4999]) =
      Fetcher.calls (Fetcher.mkFState (Fetcher.new_EventFetcher "p" 2000) []) ++ new /\
    Fetcher.tiles 0 4999 ((Fetcher.ok_windows (Scenario.empty_getLogsP "p") "0xabc" tps
                             (Fetcher.calls (Fetcher.mkFState (Fetcher.new_EventFetcher "p" 2000) [])) new).*1) /\
    [] = Fetcher.decode_logs Scenario.no_parseLog
           (Fetcher.blockTimestampCache (Fetcher.fetcher (Fetcher.mkFState (Fetcher.new_EventFetcher "p" 2000)
              [Fetcher.CGetLogs 0 1999; Fetcher.CGetLogs 2000 3999; Fetcher.CGetLogs 4000 4999])))
           (concat ((Fetcher.ok_windows (Scenario.empty_getLogsP "p") "0xabc" tps
                       (Fetcher.calls (Fetcher.mkFState (Fetcher.new_EventFetcher "p" 2000) [])) new).*2)).
Proof.
  assert (H1 : 1 <= Fetcher.cached_chunk (Fetcher.fetcher (Fetcher.mkFState (Fetcher.new_EventFetcher "p" 2000) [])))
    by (vm_compute; discriminate).
  assert (H2 : Fetcher.fetchEvents (Scenario.empty_getLogsP "p") (Scenario.some_getBlockP "p") Scenario.transfer_getEvent
    Scenario.no_parseLog 10 "0xabc" ["Transfer"] 0 4999
    (Fetcher.mkFState (Fetcher.new_EventFetcher "p" 2000) []) =
    Fetcher.FReturns [] (Fetcher.mkFState (Fetcher.new_EventFetcher "p" 2000)
                        [Fetcher.CGetLogs 0 1999; Fetcher.CGetLogs 2000 3999; Fetcher.CGetLogs 4000 4999]))
    by reflexivity.
  split; [exact H1|]. split; [exact H2|].
  exact (fetchEvents_windows_tile _ _ _ _ _ _ _ _ _ _ _ _ H1 H2).
Defined.

(** X16. An event of [enrichWithTimestamps] is exactly a log that the interface parses, with the fields of the log and the cached timestamp of its block. *)
Theorem enrichWithTimestamps_events getBlock parseLog logs fs evs fs1 :
  Fetcher.enrichWithTimestamps getBlock parseLog logs fs = (Decoder.Returns evs, fs1) ->
  forall ev, ev ∈ evs <->
    exists log parsed eventData ts, log ∈ logs /\
      parseLog (Decoder.topics log) (Decoder.data log) = Decoder.Returns (Some parsed) /\
      Decoder.serializeEventData (Decoder.ld_args parsed) = Decoder.Returns eventData /\
      Fetcher.blockTimestampCache (Fetcher.fetcher fs1) !! Decoder.log_blockNumber log = Some ts /\
      ev = mkDecodedEvent (Decoder.address log) (Decoder.log_blockNumber log) ts
             (Decoder.log_transactionHash log) (Decoder.index log) (Decoder.ld_name parsed) eventData.
Proof.
  intros H ev. rewrite (enrich_events _ _ _ _ _ _ H). apply decode_logs_elem.
Qed.

Lemma enrichWithTimestamps_events_witness :
  Fetcher.enrichWithTimestamps (Scenario.some_getBlockP "p") Scenario.no_parseLog [Scenario.witness_log] Scenario.witness_fs =
    (Decoder.Returns [], Scenario.witness_fs1) /\
  forall ev, ev ∈ @nil DecodedEvent <->
    exists log parsed eventData ts, log ∈ [Scenario.witness_log] /\
      Scenario.no_parseLog (Decoder.topics log) (Decoder.data log) = Decoder.Returns (Some parsed) /\
      Decoder.serializeEventData (Decoder.ld_args parsed) = Decoder.Returns eventData /\
      Fetcher.blockTimestampCache (Fetcher.fetcher Scenario.witness_fs1) !! Decoder.log_blockNumber log = Some ts /\
      ev = mkDecodedEvent (Decoder.address log) (Decoder.log_blockNumber log) ts
             (Decoder.log_transactionHash log) (Decoder.index log) (Decoder.ld_name parsed) eventData.
Proof.
  assert (H : Fetcher.enrichWithTimestamps (Scenario.some_getBlockP "p") Scenario.no_parseLog [Scenario.witness_log] Scenario.witness_fs =
    (Decoder.Returns [], Scenario.witness_fs1)) by reflexivity.
  split; [exact H|]. exact (enrichWithTimestamps_events _ _ _ _ _ _ H).
Defined.

(** X17. [enrichWithTimestamps] only fetches blocks of its logs that are not cached yet, each at most four times. *)
Theorem enrichWithTimestamps_getBlock_calls getBlock parseLog logs fs r fs1 :
  Fetcher.enrichWithTimestamps getBlock parseLog logs fs = (r, fs1) ->
  exists new, Fetcher.calls fs1 = Fetcher.calls fs ++ new /\
    Forall (fun c => exists n, c = Fetcher.CGetBlock n /\ n ∈ Decoder.log_blockNumber <$> logs /\
                       Fetcher.blockTimestampCache (Fetcher.fetcher fs) !! n = None) new /\
    forall n, (Fetcher.getBlock_count n new <= 4)%nat.
Proof. apply enrich_calls. Qed.

Lemma enrichWithTimestamps_getBlock_calls_witness :
  Fetcher.enrichWithTimestamps (Scenario.some_getBlockP "p") Scenario.no_parseLog [Scenario.witness_log] Scenario.witness_fs =
    (Decoder.Returns [], Scenario.witness_fs1) /\
  exists new, Fetcher.calls Scenario.witness_fs1 = Fetcher.calls Scenario.witness_fs ++ new /\
    Forall (fun c => exists n, c = Fetcher.CGetBlock n /\ n ∈ Decoder.log_blockNumber <$> [Scenario.witness_log] /\
                       Fetcher.blockTimestampCache (Fetcher.fetcher Scenario.witness_fs) !! n = None) new /\
    forall n, (Fetcher.getBlock_count n new <= 4)%nat.
Proof.
  assert (H : Fetcher.enrichWithTimestamps (Scenario.some_getBlockP "p") Scenario.no_parseLog [Scenario.witness_log] Scenario.witness_fs =
    (Decoder.Returns [], Scenario.witness_fs1)) by reflexivity.
  split; [exact H|]. exact (enrichWithTimestamps_getBlock_calls _ _ _ _ _ _ H).
Defined.

(** X18. When block fetches never return null, a second [enrichWithTimestamps] on the same logs makes no call and returns the same events. *)
Theorem enrichWithTimestamps_second_call_free getBlock parseLog logs fs evs fs1 :
  (forall pre n, getBlock pre n <> Decoder.Returns None) ->
  Fetcher.enrichWithTimestamps getBlock parseLog logs fs = (Decoder.Returns evs, fs1) ->
  Fetcher.enrichWithTimestamps getBlock parseLog logs fs1 = (Decoder.Returns evs, fs1) /\
  forall log, log ∈ logs -> is_Some (Fetcher.blockTimestampCache (Fetcher.fetcher fs1) !! Decoder.log_blockNumber log).
Proof.
  intros Hnn H. pose proof (enrich_events _ _ _ _ _ _ H) as Hevs.
  unfold Fetcher.enrichWithTimestamps in H |- *. destruct logs as [|l0 ls'] eqn:Hl.
  - injection H as <- <-. split; [done|]. intros log Hin. by apply not_elem_of_nil in Hin.
  - rewrite <- Hl in H |- *.
    destruct (Fetcher.fetch_timestamps getBlock _ fs) as [[u|e] fs1'] eqn:Hf; [|discriminate].
    injection H as _ <-.
    destruct (fetch_timestamps_cached _ _ _ _ _ Hnn Hf) as [Hmono Hall].
    assert (Hc : forall log, log ∈ logs ->
                 is_Some (Fetcher.blockTimestampCache (Fetcher.fetcher fs1') !! Decoder.log_blockNumber log)).
    { intros log Hin. destruct (Fetcher.blockTimestampCache (Fetcher.fetcher fs) !! Decoder.log_blockNumber log)
        as [t|] eqn:Ht; [apply Hmono; eauto|].
      apply Hall, list_elem_of_filter. split; [done|]. apply dedup_go_elem. split; [|apply not_elem_of_nil].
      rewrite list_map_fmap. by apply list_elem_of_fmap_2. }
    split; [|exact Hc].
    rewrite filter_none; [cbn [Fetcher.fetch_timestamps]; rewrite Hevs, Hl; reflexivity|].
    intros n Hn Hnone. unfold Fetcher.unique in Hn. apply dedup_go_elem in Hn as [Hn _].
    rewrite list_map_fmap in Hn. apply list_elem_of_fmap in Hn as (log & -> & Hin).
    destruct (Hc log Hin) as [t Ht]. congruence.
Qed.

Lemma enrichWithTimestamps_second_call_free_witness :
  (forall pre n, Scenario.some_getBlockP "p" pre n <> Decoder.Returns None) /\
  Fetcher.enrichWithTimestamps (Scenario.some_getBlockP "p") Scenario.no_parseLog [Scenario.witness_log] Scenario.witness_fs =
    (Decoder.Returns [], Scenario.witness_fs1) /\
  Fetcher.enrichWithTimestamps (Scenario.some_getBlockP "p") Scenario.no_parseLog [Scenario.witness_log] Scenario.witness_fs1 =
    (Decoder.Returns [], Scenario.witness_fs1) /\
  forall log, log ∈ [Scenario.witness_log] ->
    is_Some (Fetcher.blockTimestampCache (Fetcher.fetcher Scenario.witness_fs1) !! Decoder.log_blockNumber log).
Proof.
  assert (H1 : forall pre n, Scenario.some_getBlockP "p" pre n <> Decoder.Returns None) by discriminate.
  assert (H2 : Fetcher.enrichWithTimestamps (Scenario.some_getBlockP "p") Scenario.no_parseLog [Scenario.witness_log] Scenario.witness_fs =
    (Decoder.Returns [], Scenario.witness_fs1)) by reflexivity.
  split; [exact H1|]. split; [exact H2|].
  exact (enrichWithTimestamps_second_call_free _ _ _ _ _ _ H1 H2).
Defined.

(** X19. A finished pass of [pollLoop] either keeps its cursor and leaves the database as it was, or moves the cursor forward to one past a block that the database now records as the last synced block of the contract, with the other addresses unchanged. *)
Theorem pollOnce_cursor_store fault now getLogsP getBlockP getBlockNumberP getABI getEvent parseLog
    fuel chain opts cfg cb w cb' w' :
  Indexer.pollOnce fault now getLogsP getBlockP getBlockNumberP getABI getEvent parseLog
    fuel chain opts cfg cb w = Some (cb', w') ->
  (cb' = cb /\ Indexer.w_store w' = Indexer.w_store w) \/
  (cb < cb' /\
   Storage.getLastSyncedBlock (JS.toLowerCase (Indexer.c_address cfg)) (Indexer.w_store w') = Ok (Some (cb' - 1)) /\
   forall a, a <> JS.toLowerCase (Indexer.c_address cfg) ->
     Storage.getLastSyncedBlock a (Indexer.w_store w') = Storage.getLastSyncedBlock a (Indexer.w_store w)).
Proof.
  unfold Indexer.pollOnce. cbv zeta.
  destruct (Pool.getProvider now (Indexer.w_pool w)) as [[prov|m] p1].
  2:{ intros [= <- <-]. left. split; reflexivity. }
  destruct (getBlockNumberP _ _) as [lb|e].
  2:{ intros [= <- <-]. left. split; reflexivity. }
  destruct (Pool.reportSuccess _ _ _) as [[u|m] p2].
  2:{ intros [= <- <-]. left. split; reflexivity. }
  destruct (cb <=? lb - Indexer.confirmations opts) eqn:Hle.
  2:{ intros [= <- <-]. left. split; reflexivity. }
  apply Z.leb_le in Hle.
  pose proof (indexBlocks_store fault now getLogsP getBlockP getABI getEvent parseLog fuel chain opts cfg
    cb (lb - Indexer.confirmations opts) (Indexer.with_pool (Indexer.with_pool w p1) p2)) as Hs.
  destruct (Indexer.indexBlocks _ _ _ _ _ _ _ _ _ _ _ _ _ _) as [w3|e w3|w3].
  - intros [= <- <-]. right. destruct Hs as [evs Hu].
    destruct (updateSync_ok_lookup _ _ _ _ _ _ _ _ Hu) as (Hl & Ho & _).
    split; [lia|]. replace (lb - Indexer.confirmations opts + 1 - 1) with (lb - Indexer.confirmations opts) by lia.
    split; [exact Hl|]. intros a Ha. exact (Ho a Ha).
  - intros [= <- <-]. left. split; [reflexivity|]. exact Hs.
  - discriminate.
Qed.


Lemma pollOnce_cursor_store_witness :
  let r := Indexer.pollOnce Storage.no_fault 0 Scenario.empty_getLogsP Scenario.some_getBlockP
             Scenario.latest_200_getBlockNumberP Scenario.found_getABI Scenario.transfer_getEvent
             Scenario.no_parseLog 10 Indexer.ethereum Scenario.default_options Scenario.resume_cfg
             151 Scenario.resume_world in
  let w' := match r with Some (_, w) => w | None => Scenario.resume_world end in
  r = Some (189, w') /\
  ((189 = 151 /\ Indexer.w_store w' = Indexer.w_store Scenario.resume_world) \/
   (151 < 189 /\
    Storage.getLastSyncedBlock (JS.toLowerCase (Indexer.c_address Scenario.resume_cfg)) (Indexer.w_store w') = Ok (Some (189 - 1)) /\
    forall a, a <> JS.toLowerCase (Indexer.c_address Scenario.resume_cfg) ->
      Storage.getLastSyncedBlock a (Indexer.w_store w') = Storage.getLastSyncedBlock a (Indexer.w_store Scenario.resume_world))).
Proof.
  intros r w'.
  assert (Hr : r = Some (189, w')) by (subst r w'; vm_compute; reflexivity).
  split; [exact Hr|]. exact (pollOnce_cursor_store _ _ _ _ _ _ _ _ _ _ _ _ _ _ _ _ Hr).
Defined.

(** X20. [indexBlocks] changes the database only by one successful [updateSyncStateAndInsertEvents] for the contract, its chain and [toBlock]; when it throws or does not finish, the database is as it was. *)
Theorem indexBlocks_store_only_on_success fault now getLogsP getBlockP getABI getEvent parseLog
    fuel chain opts cfg fb tb w :
  match Indexer.indexBlocks fault now getLogsP getBlockP getABI getEvent parseLog fuel chain opts cfg fb tb w with
  | Indexer.IOk w' => exists evs, Storage.updateSyncStateAndInsertEvents fault (JS.toLowerCase (Indexer.c_address cfg))
                (Indexer.getChainId chain) tb evs now (Indexer.w_store w) = (Ok tt, Indexer.w_store w')
  | Indexer.IThrows _ w' | Indexer.IOutOfFuel w' => Indexer.w_store w' = Indexer.w_store w
  end.
Proof. apply indexBlocks_store. Qed.

(** X21. The [status] command labels the chain id of every supported chain with that chain's configuration name. *)
Theorem status_chain_label_known c :
  Indexer.status_chain_label (Indexer.getChainId c) = Indexer.chain_name c.
Proof. destruct c; reflexivity. Qed.

(** X22. The [status] command labels a chain id of no supported chain as "Unknown (<id>)". *)
Theorem status_chain_label_unknown (id : Z) :
  (forall c, Indexer.getChainId c <> id) ->
  Indexer.status_chain_label id = "Unknown (" +:+ pretty id +:+ ")".
Proof.
  intros H. unfold Indexer.status_chain_label, Indexer.CHAIN_NAMES.
  pose proof (H Indexer.ethereum). pose proof (H Indexer.polygon). pose proof (H Indexer.arbitrum).
  pose proof (H Indexer.optimism). pose proof (H Indexer.base). pose proof (H Indexer.bsc).
  cbn [Indexer.getChainId] in *.
  rewrite !bool_decide_false by lia. reflexivity.
Qed.

Lemma status_chain_label_unknown_witness :
  (forall c, Indexer.getChainId c <> 5) /\ Indexer.status_chain_label 5 = "Unknown (5)".
Proof.
  assert (H : forall c, Indexer.getChainId c <> 5) by (intros []; cbn; lia).
  split; [exact H|]. exact (status_chain_label_unknown 5 H).
Defined.


(** X23. On a pool built from a configuration list, [reportSuccess] and [reportFailure] for an id that no configured URL generates fail with "Provider <id> not found" and leave the pool unchanged, whatever calls came before. *)
Theorem report_unconfigured_id cfgs th cd p0 cs now id msg :
  Pool.new_ProviderPool cfgs th cd = Ok p0 ->
  Forall (fun c => Pool.generateProviderId c.1 <> id) cfgs ->
  let p := Pool.run_calls cs p0 in
  Pool.reportSuccess now id p = (Err ("Provider " +:+ id +:+ " not found"), p) /\
  Pool.reportFailure now id msg p = (Err ("Provider " +:+ id +:+ " not found"), p).
Proof.
  intros Hnew Hf p.
  assert (Hn : Pool.providers p !! id = None).
  { subst p. destruct (run_calls_frame cs p0) as [-> _].
    destruct (new_ProviderPool_shape _ _ _ _ Hnew) as (_ & -> & _).
    apply add_configs_lookup_none; [apply lookup_empty|exact Hf]. }
  unfold Pool.reportSuccess, Pool.reportFailure. rewrite Hn. split; reflexivity.
Qed.

Lemma report_unconfigured_id_witness :
  Pool.new_ProviderPool Scenario.two_cfgs None None = Ok (Scenario.pool_of Scenario.two_cfgs) /\
  Forall (fun c => Pool.generateProviderId c.1 <> "provider-0") Scenario.two_cfgs /\
  let p := Pool.run_calls Scenario.three_failures (Scenario.pool_of Scenario.two_cfgs) in
  Pool.reportSuccess 5 "provider-0" p = (Err ("Provider " +:+ "provider-0" +:+ " not found"), p) /\
  Pool.reportFailure 5 "provider-0" "boom" p = (Err ("Provider " +:+ "provider-0" +:+ " not found"), p).
Proof.
  assert (H1 : Pool.new_ProviderPool Scenario.two_cfgs None None = Ok (Scenario.pool_of Scenario.two_cfgs))
    by (vm_compute; reflexivity).
  assert (H2 : Forall (fun c => Pool.generateProviderId c.1 <> "provider-0") Scenario.two_cfgs)
    by (repeat constructor; intros Hx; vm_compute in Hx; discriminate).
  split; [exact H1|]. split; [exact H2|].
  exact (report_unconfigured_id _ _ _ _ Scenario.three_failures 5 "provider-0" "boom" H1 H2).
Defined.

(** X24. A provider id is "provider-" followed by the decimal form of a number between 0 and 2^31. *)
Theorem generateProviderId_format u :
  exists n, 0 <= n <= 2^31 /\ Pool.generateProviderId u = "provider-" +:+ pretty n.
Proof.
  exists (Z.abs (Pool.hash_go u 0)). split; [|reflexivity].
  pose proof (hash_go_range u 0 ltac:(lia)). lia.
Qed.

Lemma storage_keys_unique_append_only_witness :
  NoDup (Storage.row_key <$> Storage.events Scenario.witness_store) /\
  let s1 := (Storage.insertEvents Storage.no_fault Scenario.witness_events 1 Scenario.witness_store).2 in
  let s2 := (Storage.updateSyncStateAndInsertEvents Storage.no_fault "0xabc" 1 9 Scenario.witness_events 1 Scenario.witness_store).2 in
  NoDup (Storage.row_key <$> Storage.events s1) /\ Storage.events Scenario.witness_store `prefix_of` Storage.events s1 /\
  NoDup (Storage.row_key <$> Storage.events s2) /\ Storage.events Scenario.witness_store `prefix_of` Storage.events s2.
Proof.
  assert (H : NoDup (Storage.row_key <$> Storage.events Scenario.witness_store))
    by (apply (bool_decide_unpack _); vm_compute; reflexivity).
  split; [exact H|]. exact (storage_keys_unique_append_only _ _ _ _ _ _ _ H).
Defined.

Lemma insertEvents_query_roundtrip_witness :
  Storage.db_open Storage.fresh_store = true /\
  NoDup ((Storage.row_key <$> Storage.events Storage.fresh_store) ++ (Storage.event_key <$> Scenario.witness_events)) /\
  Storage.insertEvents Storage.no_fault Scenario.witness_events 0 Storage.fresh_store = (Ok 3, Scenario.witness_store) /\
  3 = Z.of_nat (length Scenario.witness_events) /\
  exists evs', Storage.queryEvents Storage.no_filter Scenario.witness_store = Ok evs' /\
    evs' ≡ₚ (Storage.row_to_event <$> Storage.events Storage.fresh_store) ++ Scenario.witness_events.
Proof.
  assert (H1 : Storage.db_open Storage.fresh_store = true) by reflexivity.
  assert (H2 : NoDup ((Storage.row_key <$> Storage.events Storage.fresh_store) ++ (Storage.event_key <$> Scenario.witness_events)))
    by (apply (bool_decide_unpack _); vm_compute; reflexivity).
  assert (H3 : Storage.insertEvents Storage.no_fault Scenario.witness_events 0 Storage.fresh_store = (Ok 3, Scenario.witness_store))
    by (vm_compute; reflexivity).
  split; [exact H1|]. split; [exact H2|]. split; [exact H3|].
  exact (insertEvents_query_roundtrip _ _ _ _ _ _ H1 H2 H3).
Defined.




Lemma updateSync_lookup_witness :
  let s' := (Storage.updateSyncStateAndInsertEvents Storage.no_fault "0xabc" 1 9 Scenario.witness_events 1 Scenario.witness_store).2 in
  Storage.updateSyncStateAndInsertEvents Storage.no_fault "0xabc" 1 9 Scenario.witness_events 1 Scenario.witness_store = (Ok tt, s') /\
  Storage.getLastSyncedBlock "0xabc" s' = Ok (Some 9).
Proof.
  intros s'.
  assert (H : Storage.updateSyncStateAndInsertEvents Storage.no_fault "0xabc" 1 9 Scenario.witness_events 1 Scenario.witness_store = (Ok tt, s'))
    by (subst s'; vm_compute; reflexivity).
  split; [exact H|]. exact (proj1 (updateSync_lookup _ _ _ _ _ _ _ _ H)).
Defined.
